(** * Mesh / volumetric conversion utilities of [src/geometry/cgal/cgalutils.cc]

    A shallow embedding of the functions of [namespace CGALUtils]:

    - [computeResizeTransform]
    - [createPolySetFromNefPolyhedron3]
    - [createNefPolyhedronFromPolySet]
    - [is_approximately_convex]

    The CGAL kernels the C++ templates are instantiated with are type
    classes; the helpers of the repository that live in other translation
    units ([Reindexer], [GeometryUtils], [PolySet]) are interfaces or small
    models.  The first half of the file holds the definitions, the second
    half the lemmas. *)

From Stdlib Require Import ZArith QArith Floats Lia Lqa String.
From stdpp Require Import base option list gmap sets strings pretty.

(* ===================================================================== *)
(** * Part I: definitions                                                 *)
(* ===================================================================== *)

(** ** Control flow of a C++ function body *)

(** What makes a run leave the defined behaviour of the program. *)
Inductive fault : Type :=
| OutOfBounds            (* operator[] past the end of a vector *)
| OutOfRange             (* std::vector::at throws std::out_of_range *)
| AssertionFailed        (* assert(...) does not hold *)
| DivisionByZero         (* exact division by NT(0) *)
| Uncaught (what : string) (* an exception leaves the function *)
| FuelExhausted.         (* the bound given to a while loop was too small *)

(** A statement either falls through with a state, executes [return r;],
    or faults. *)
Inductive step (R A : Type) : Type :=
| Next (a : A)
| Return (r : R)
| Fault (f : fault).
Arguments Next {R A} a.
Arguments Return {R A} r.
Arguments Fault {R A} f.

#[global] Instance step_bind {R} : MBind (step R) := λ A B k m,
  match m with
  | Next a => k a
  | Return r => Return r
  | Fault f => Fault f
  end.

(** The result of a call. *)
Inductive outcome (R : Type) : Type :=
| Ok (r : R)
| Crash (f : fault).
Arguments Ok {R} r.
Arguments Crash {R} f.

Definition run {R} (body : step R R) : outcome R :=
  match body with
  | Next r | Return r => Ok r
  | Fault f => Crash f
  end.

(** [v[i]] on a [std::vector]. *)
Definition at_ {R A} (v : list A) (i : nat) : step R A :=
  match v !! i with
  | Some a => Next a
  | None => Fault OutOfBounds
  end.

(** [v.at(i)] on a [std::vector]. *)
Definition checked_at {R A} (v : list A) (i : nat) : step R A :=
  match v !! i with
  | Some a => Next a
  | None => Fault OutOfRange
  end.

(** [assert(b);] *)
Definition assert_ {R} (b : bool) : step R unit :=
  if b then Next tt else Fault AssertionFailed.

(** [for (const auto& a : l) body] and, over [seq 0 n],
    [for (size_t i = 0; i < n; ++i) body]. *)
Fixpoint for_each {R A S} (l : list A) (body : A → S → step R S) (s : S)
  : step R S :=
  match l with
  | [] => Next s
  | a :: l' => s' ← body a s; for_each l' body s'
  end.

(** ** Logging *)

Inductive message_group : Type :=
| NONE | Warning | Error.

(** [LOG(group, format, args...)]. *)
Record log_entry : Type := LOG {
  log_group : message_group;
  log_format : string;
  log_args : list string;
}.

(** ** Fixed-size Eigen vectors and matrices *)

(** [Eigen::Matrix<A, 3, 1>]. *)
Record Vector3 (A : Type) : Type := mkVector3 { v_x : A; v_y : A; v_z : A }.
Arguments mkVector3 {A} v_x v_y v_z.
Arguments v_x {A} _.
Arguments v_y {A} _.
Arguments v_z {A} _.

#[global] Instance Vector3_eq_dec {A} `{EqDecision A} : EqDecision (Vector3 A).
Proof. solve_decision. Defined.

Definition coefficients {A} (v : Vector3 A) : list A := [v_x v; v_y v; v_z v].

(** [v[i]]: the index has to stay below the fixed size. *)
Definition coeff {R A} (v : Vector3 A) (i : nat) : step R A :=
  at_ (coefficients v) i.

(** Finite doubles are rational numbers; the exact kernels convert them
    without loss. *)
Abbreviation double := Q (only parsing).

(** [if (x)] on a double. *)
Definition double_nonzero (x : double) : bool := negb (Qeq_bool x 0).
(** [x > y] on doubles. *)
Definition double_gt (x y : double) : bool := negb (Qle_bool x y).

(** [Eigen::Matrix4d], by rows; [Transform3d] wraps one. *)
Definition Matrix4d : Type := list (list double).
Definition Transform3d : Type := Matrix4d.

Definition entry (t : Matrix4d) (r c : nat) : option double :=
  row ← t !! r; row !! c.

(** [Transform3d::Identity()]. *)
Definition Identity : Transform3d :=
  [ [1; 0; 0; 0];
    [0; 1; 0; 0];
    [0; 0; 1; 0];
    [0; 0; 0; 1] ]%Q.

(** ** [computeResizeTransform] *)

(** The kernel [K] of the template: an exact field type [K::FT] with the
    operations the function uses. *)
Class ExactKernel : Type := {
  NT : Type;
  NT_of_double : double → NT;          (* NT(x) *)
  NT_sub : NT → NT → NT;
  NT_div : NT → NT → NT;
  NT_eqb : NT → NT → bool;             (* a == b *)
  to_double : NT → double;             (* CGAL::to_double *)
}.

(** [a / b] in [K::FT]; the exact number types do not divide by zero. *)
Definition divide `{ExactKernel} {R} (a b : NT) : step R NT :=
  if NT_eqb b (NT_of_double 0%Q) then Fault DivisionByZero
  else Next (NT_div a b).

(** [CGAL::Iso_cuboid_3<K>]. *)
Record Iso_cuboid_3 `{ExactKernel} : Type := mkIso_cuboid_3 {
  cuboid_min : Vector3 NT;
  cuboid_max : Vector3 NT;
}.

Definition min_coord `{ExactKernel} {R} (bb : Iso_cuboid_3) (i : nat) : step R NT :=
  coeff (cuboid_min bb) i.
Definition max_coord `{ExactKernel} {R} (bb : Iso_cuboid_3) (i : nat) : step R NT :=
  coeff (cuboid_max bb) i.

(** The matrix the function streams into [Eigen::Matrix4d t]. *)
Definition scale_matrix (sx sy sz : double) : Matrix4d :=
  [ [sx; 0; 0; 0];
    [0; sy; 0; 0];
    [0; 0; sz; 0];
    [0; 0; 0; 1] ]%Q.

Definition flat_object_warning : log_entry :=
  LOG Warning "Resize in direction normal to flat object is not implemented" [].

(** The first loop: [scale] is filled with ones, [bbox_size] with the
    extents of the box. *)
Definition resize_init `{ExactKernel} {R} (bb : Iso_cuboid_3)
  : step R (list NT * list NT) :=
  for_each (seq 0 3) (λ i '(scale, bbox_size),
    hi ← max_coord bb i;
    lo ← min_coord bb i;
    Next (scale ++ [NT_of_double 1%Q], bbox_size ++ [NT_sub hi lo]))
    ([], []).

(** The second loop: one scale factor per active axis with a target size,
    and the index of the largest target seen. *)
Definition resize_explicit `{ExactKernel} (bbox_size : list NT) (dimension : nat)
    (newsize : Vector3 double) (scale : list NT)
  : step (Transform3d * list log_entry) (list NT * nat) :=
  for_each (seq 0 dimension) (λ i '(scale, newsizemax_index),
    ni ← coeff newsize i;
    if double_nonzero ni then
      bi ← at_ bbox_size i;
      scale ← (if NT_eqb bi (NT_of_double 0%Q)
               then Return (Identity, [flat_object_warning])
               else si ← divide (NT_of_double ni) bi; Next (<[i:=si]> scale));
      nm ← coeff newsize newsizemax_index;
      Next (scale, if double_gt ni nm then i else newsizemax_index)
    else Next (scale, newsizemax_index))
    (scale, 0).

(** [autoscale]: the factor of the axis [newsizemax_index], or one. *)
Definition resize_autoscale `{ExactKernel} {R} (bbox_size : list NT)
    (newsize : Vector3 double) (newsizemax_index : nat) : step R NT :=
  nm ← coeff newsize newsizemax_index;
  if negb (Qeq_bool nm 0) then
    bm ← at_ bbox_size newsizemax_index;
    divide (NT_of_double nm) bm
  else Next (NT_of_double 1%Q).

(** The third loop: the autosize axes without a target take [autoscale]. *)
Definition resize_auto `{ExactKernel} {R} (dimension : nat)
    (newsize : Vector3 double) (autosize : Vector3 bool) (autoscale : NT)
    (scale : list NT) : step R (list NT) :=
  for_each (seq 0 dimension) (λ i (scale : list NT),
    ai ← coeff autosize i;
    if (ai : bool) then
      ni ← coeff newsize i;
      Next (if Qeq_bool ni 0 then <[i:=autoscale]> scale else scale)
    else Next scale)
    scale.

Definition computeResizeTransform `{ExactKernel} (bb : Iso_cuboid_3)
    (dimension : nat) (newsize : Vector3 double) (autosize : Vector3 bool)
  : outcome (Transform3d * list log_entry) :=
  run (
    '(scale, bbox_size) ← resize_init bb;
    '(scale, newsizemax_index) ← resize_explicit bbox_size dimension newsize scale;
    autoscale ← resize_autoscale bbox_size newsize newsizemax_index;
    scale ← resize_auto dimension newsize autosize autoscale scale;
    s0 ← at_ scale 0;
    s1 ← at_ scale 1;
    s2 ← at_ scale 2;
    Return (scale_matrix (to_double s0) (to_double s1) (to_double s2), [])).

(** *** The kernel over GMP rationals, [CGAL::Cartesian<CGAL::Gmpq>] *)

(** [mpq_get_d]: the quotient truncated towards zero to a double, which
    keeps 53 significant bits and no bit below 2^-1074 (the subnormal
    doubles), so that a quotient below 2^-1074 becomes 0.  From 2^1024 on
    [mpq_get_d] answers with an infinity, which is no value of [double]
    here, where the doubles are the finite ones: the largest finite
    double stands in for it. *)
Definition Gmpq_to_double (q : Q) : double :=
  let n := Qnum q in
  let d := Zpos (Qden q) in
  if (n =? 0)%Z then 0%Q
  else
    let e := (Z.log2 (Z.abs n) - Z.log2 d - 54)%Z in
    (* |n| / (d * 2^e) lies between 2^53 and 2^55 *)
    let m := (if (0 <=? e)%Z then Z.abs n / (d * 2 ^ e)
              else (Z.abs n * 2 ^ (- e)) / d)%Z in
    (* the place of the last bit kept *)
    let last := Z.max (e + (Z.log2 m - 52)) (-1074) in
    let m53 := (m / 2 ^ (last - e))%Z in
    let mag := (if (971 <? last)%Z then inject_Z ((2 ^ 53 - 1) * 2 ^ 971)
                else if (0 <=? last)%Z then inject_Z (m53 * 2 ^ last)
                else Qmake m53 (Z.to_pos (2 ^ (- last))))%Z in
    Qred (if (n <? 0)%Z then Qopp mag else mag).

#[global] Instance Gmpq_kernel : ExactKernel := {|
  NT := Q;
  NT_of_double := λ x, x;
  NT_sub := Qminus;
  NT_div := Qdiv;
  NT_eqb := Qeq_bool;
  to_double := Gmpq_to_double;
|}.

(** The box [[0,1]^3]. *)
Definition unit_cube : @Iso_cuboid_3 Gmpq_kernel :=
  mkIso_cuboid_3 Gmpq_kernel (mkVector3 0%Q 0%Q 0%Q) (mkVector3 1%Q 1%Q 1%Q).

(** *** What the resize transform is expected to satisfy *)

(** The extent of the box along axis [i]. *)
Definition extent `{ExactKernel} (bb : Iso_cuboid_3) (i : nat) : option NT :=
  hi ← coefficients (cuboid_max bb) !! i;
  lo ← coefficients (cuboid_min bb) !! i;
  Some (NT_sub hi lo).

(** A box without depth. *)
Definition flat_cube : @Iso_cuboid_3 Gmpq_kernel :=
  mkIso_cuboid_3 Gmpq_kernel (mkVector3 0%Q 0%Q 0%Q) (mkVector3 1%Q 1%Q 0%Q).

(** The contents of [bbox_size] after the first loop. *)
Definition extents `{ExactKernel} (bb : Iso_cuboid_3) : list NT :=
  [ NT_sub (v_x (cuboid_max bb)) (v_x (cuboid_min bb));
    NT_sub (v_y (cuboid_max bb)) (v_y (cuboid_min bb));
    NT_sub (v_z (cuboid_max bb)) (v_z (cuboid_min bb)) ].

(** An active axis with a target size on which the box is flat. *)
Definition flat_axis `{ExactKernel} (bb : Iso_cuboid_3)
    (newsize : Vector3 double) (dimension : nat) : Prop :=
  ∃ i ni ei, i < dimension ∧ coefficients newsize !! i = Some ni ∧
             ¬ (ni == 0)%Q ∧ extent bb i = Some ei ∧
             NT_eqb ei (NT_of_double 0%Q) = true.

(** The state [(scale, newsizemax_index)] of the second loop once the
    axes below [k] are done: an axis with a target size has its factor and
    a target no larger than the one tracked, the other axes have the
    factor one. *)
Definition explicit_inv `{ExactKernel} (bb : Iso_cuboid_3)
    (newsize : Vector3 double) (k : nat) (st : list NT * nat) : Prop :=
  length st.1 = 3 ∧
  (st.2 = 0 ∨ st.2 < k) ∧
  (st.2 ≠ 0 → ∃ nM, coefficients newsize !! st.2 = Some nM ∧ ¬ (nM == 0)%Q) ∧
  (∀ j nj, j < k → coefficients newsize !! j = Some nj → ¬ (nj == 0)%Q →
     ∃ ej nM, extents bb !! j = Some ej ∧
              NT_eqb ej (NT_of_double 0%Q) = false ∧
              st.1 !! j = Some (NT_div (NT_of_double nj) ej) ∧
              coefficients newsize !! st.2 = Some nM ∧ (nj <= nM)%Q) ∧
  (∀ j, j < 3 →
     (k ≤ j ∨ ∃ nj, coefficients newsize !! j = Some nj ∧ (nj == 0)%Q) →
     st.1 !! j = Some (NT_of_double 1%Q)).

(** The factor the autosized axes receive. *)
Definition autoscale_of `{ExactKernel} (nM : double) (eM : NT) : NT :=
  if double_nonzero nM then NT_div (NT_of_double nM) eM else NT_of_double 1%Q.

(** Axis [M] is active, has a target size, and no active axis has a larger
    one. *)
Definition largest_requested (newsize : Vector3 double) (dimension M : nat)
    (nM : double) : Prop :=
  M < dimension ∧ coefficients newsize !! M = Some nM ∧ ¬ (nM == 0)%Q ∧
  ∀ j nj, j < dimension → coefficients newsize !! j = Some nj →
          ¬ (nj == 0)%Q → (nj <= nM)%Q.

(** Axis [i] is active, flagged autosize, and has no target size. *)
Definition autosized (newsize : Vector3 double) (autosize : Vector3 bool)
    (dimension i : nat) : Prop :=
  i < dimension ∧ coefficients autosize !! i = Some true ∧
  ∃ ni, coefficients newsize !! i = Some ni ∧ (ni == 0)%Q.

(** No active axis has a target size. *)
Definition nothing_requested (newsize : Vector3 double) (dimension : nat) : Prop :=
  ∀ j nj, j < dimension → coefficients newsize !! j = Some nj → (nj == 0)%Q.

(** The autosized axes carry the scale factor of a largest-target axis,
    which is its target over its extent, or the factor one when there is
    no target at all. *)
Definition autosize_follows_largest `{ExactKernel} (bb : Iso_cuboid_3)
    (dimension : nat) (newsize : Vector3 double) (autosize : Vector3 bool)
    (t : Transform3d) : Prop :=
  (∃ M nM eM,
      largest_requested newsize dimension M nM ∧
      extent bb M = Some eM ∧
      entry t M M = Some (to_double (NT_div (NT_of_double nM) eM)) ∧
      ∀ i, autosized newsize autosize dimension i → entry t i i = entry t M M)
  ∨ (nothing_requested newsize dimension ∧
     ∀ i, autosized newsize autosize dimension i →
          entry t i i = Some (to_double (NT_of_double 1%Q))).

(** A diagonal matrix with a unit in the last place: no shear, no
    translation. *)
Definition diagonal_scale (t : Transform3d) : Prop :=
  ∃ sx sy sz, t = scale_matrix sx sy sz.

(** ** Polygon meshes *)

(** Modelled from the spec: [PolySet] ([PolySet.h] is not among the
    sources).  A mesh is an ordered sequence of polygons, each an ordered
    sequence of vertices carrying a mark flag, with a dimension tag and a
    convexity hint. *)
Record Polygon (V : Type) : Type := mkPolygon {
  marked : bool;
  vertices : list V;
}.
Arguments mkPolygon {V} marked vertices.
Arguments marked {V} _.
Arguments vertices {V} _.

Record PolySet (V : Type) : Type := mkPolySet {
  polygons : list (Polygon V);
  getDimension : nat;
  convexValue : option bool;      (* boost::tribool *)
}.
Arguments mkPolySet {V} polygons getDimension convexValue.
Arguments polygons {V} _.
Arguments getDimension {V} _.
Arguments convexValue {V} _.

(** [PolySet ps(dim, convex)]. *)
Definition new_PolySet {V} (dim : nat) (convex : option bool) : PolySet V :=
  mkPolySet [] dim convex.

Definition isEmpty {V} (ps : PolySet V) : bool :=
  bool_decide (length (polygons ps) = 0).

(** [ps.append_poly(mark)] opens a new polygon. *)
Definition append_poly {V} (mark : bool) (ps : PolySet V) : PolySet V :=
  mkPolySet (polygons ps ++ [mkPolygon mark []]) (getDimension ps) (convexValue ps).

(** [ps.append_vertex(v)] extends the polygon opened last. *)
Definition append_vertex {V} (v : V) (ps : PolySet V) : PolySet V :=
  match last (polygons ps) with
  | Some p =>
      mkPolySet (removelast (polygons ps) ++ [mkPolygon (marked p) (vertices p ++ [v])])
        (getDimension ps) (convexValue ps)
  | None => ps
  end.

(** ** [createPolySetFromNefPolyhedron3] *)

(** The kernel of the volumetric structure; [Vector3f] is the mesh vertex
    the exact points are narrowed to by [vector_convert<Vector3f>]. *)
Class NefKernel : Type := {
  Point_3 : Type;
  Vector3f : Type;
  Vector3f_eq_dec :: EqDecision Vector3f;
  vector_convert_3f : Point_3 → Vector3f;
}.

(** A half-facet as the function reads it: its mark, the mark of its
    incident volume, and its boundary cycles, each the sequence of the
    points [c1->source()->center_vertex()->point()] met around it. *)
Record Halffacet `{NefKernel} : Type := mkHalffacet {
  mark : bool;
  incident_volume_mark : bool;
  facet_cycles : list (list Point_3);
}.

(** [CGAL_forall_halffacets] visits the half-facets in order. *)
Definition Nef_polyhedron_3 `{NefKernel} : Type := list Halffacet.

(** Modelled from the spec: [Reindexer<T>] ([Reindexer.h] is not among the
    sources).  [lookup] returns the existing index of a value already seen,
    else appends it and returns the new index; [getArray] lists the values
    in insertion order. *)
Record Reindexer (T : Type) : Type := mkReindexer { getArray : list T }.
Arguments mkReindexer {T} getArray.
Arguments getArray {T} _.

Definition lookup {T} `{EqDecision T} (r : Reindexer T) (v : T)
  : nat * Reindexer T :=
  match list_find (λ x, x = v) (getArray r) with
  | Some (idx, _) => (idx, r)
  | None => (length (getArray r), mkReindexer (getArray r ++ [v]))
  end.

Definition IndexedFace : Type := list nat.
Definition IndexedTriangle : Type := Vector3 Z.     (* Vector3i *)

(** The functions of [GeometryUtils] the conversion calls. *)
Class GeometryUtils `{NefKernel} : Type := {
  (* returns the error flag and the triangles written to the out-parameter *)
  tessellatePolygonWithHoles :
    list Vector3f → list IndexedFace → bool * list IndexedTriangle;
  findUnconnectedEdges_polygons : list (list IndexedFace) → nat;
  findUnconnectedEdges_triangles : list IndexedTriangle → nat;
}.

(** The body of [CGAL_For_all(c1, c2)]: create vertex indices and remove
    consecutive duplicate vertices. *)
Definition index_vertex `{NefKernel} (st : Reindexer Vector3f * IndexedFace)
    (p : Point_3) : Reindexer Vector3f * IndexedFace :=
  let '(allVertices, currface) := st in
  let '(idx, allVertices) := lookup allVertices (vector_convert_3f p) in
  (allVertices,
   if bool_decide (currface = []) || negb (bool_decide (Some idx = last currface))
   then currface ++ [idx] else currface).

(** One boundary cycle: the indices of its points, without the last one
    when it repeats the first. *)
Definition index_cycle `{NefKernel} (cycle : list Point_3)
    (allVertices : Reindexer Vector3f) : Reindexer Vector3f * IndexedFace :=
  let '(allVertices, currface) := fold_left index_vertex cycle (allVertices, []) in
  (allVertices,
   if negb (bool_decide (currface = [])) && bool_decide (head currface = last currface)
   then removelast currface else currface).

(** The body of [CGAL_forall_facet_cycles_of]: a cycle left with fewer
    than three vertices is popped again. *)
Definition add_cycle `{NefKernel} (st : Reindexer Vector3f * list IndexedFace)
    (cyclei : list Point_3) : Reindexer Vector3f * list IndexedFace :=
  let '(allVertices, faces) := st in
  let '(allVertices, currface) := index_cycle cyclei allVertices in
  let faces := faces ++ [currface] in
  (allVertices, if length currface <? 3 then removelast faces else faces).

(** The cycles of one half-facet. *)
Definition index_cycles `{NefKernel} (cycles : list (list Point_3))
    (allVertices : Reindexer Vector3f)
  : Reindexer Vector3f * list IndexedFace :=
  fold_left add_cycle cycles (allVertices, []).

(** The faces of one half-facet: the 0-mark-volume is the 'empty' volume
    of space, a half-facet on any other volume is skipped. *)
Definition facet_faces `{NefKernel} (hfaceti : Halffacet)
    (allVertices : Reindexer Vector3f)
  : Reindexer Vector3f * list IndexedFace :=
  if negb (incident_volume_mark hfaceti)
  then index_cycles (facet_cycles hfaceti) allVertices
  else (allVertices, []).

(** The body of [CGAL_forall_halffacets]. *)
Definition index_halffacet `{NefKernel}
    (st : Reindexer Vector3f * list (list IndexedFace) * list bool)
    (hfaceti : Halffacet)
  : Reindexer Vector3f * list (list IndexedFace) * list bool :=
  let '(allVertices, polygons, markedPolygons) := st in
  let marked := negb (mark hfaceti) in
  let markedPolygons := markedPolygons ++ [marked] in
  let '(allVertices, faces) := facet_faces hfaceti allVertices in
  (* faces aliases polygons.back() *)
  let polygons := polygons ++ [faces] in
  if bool_decide (faces = [])
  then (allVertices, removelast polygons, removelast markedPolygons)
  else (allVertices, polygons, markedPolygons).

Definition triangle_in_range (size : nat) (t : IndexedTriangle) : bool :=
  ((0 <=? v_x t) && (v_x t <? Z.of_nat size) &&
   (0 <=? v_y t) && (v_y t <? Z.of_nat size) &&
   (0 <=? v_z t) && (v_z t <? Z.of_nat size))%Z.

(** The loop over the triangles of one face group: each is kept with the
    mark of the group. *)
Definition keep_triangles {R} (size : nat) (markedPolygons : list bool)
    (polygonIndex : nat) (triangles : list IndexedTriangle)
    (acc : list IndexedTriangle * list bool)
  : step R (list IndexedTriangle * list bool) :=
  for_each triangles (λ t '(allTriangles, markedTriangles),
    _ ← assert_ (triangle_in_range size t);
    m ← checked_at markedPolygons polygonIndex;
    Next (allTriangles ++ [t], markedTriangles ++ [m]))
    acc.

(** The body of the loop of step 3: a face group goes to the tessellator;
    its triangles are kept when the tessellator reports no error. *)
Definition triangulate_face `{GeometryUtils} {R} (verts : list Vector3f)
    (markedPolygons : list bool) (faces : list IndexedFace)
    (st : list IndexedTriangle * list bool * nat)
  : step R (list IndexedTriangle * list bool * nat) :=
  let '(allTriangles, markedTriangles, polygonIndex) := st in
  let '(err, triangles) := tessellatePolygonWithHoles verts faces in
  '(allTriangles, markedTriangles) ←
    (if negb err
     then keep_triangles (length verts) markedPolygons polygonIndex triangles
            (allTriangles, markedTriangles)
     else Next (allTriangles, markedTriangles));
  Next (allTriangles, markedTriangles, S polygonIndex).

(** Step 3 of the function. *)
Definition triangulate_faces `{GeometryUtils} {R} (verts : list Vector3f)
    (polygons : list (list IndexedFace)) (markedPolygons : list bool)
  : step R (list IndexedTriangle * list bool) :=
  '(allTriangles, markedTriangles, _) ←
    for_each polygons (triangulate_face verts markedPolygons) ([], [], 0);
  Next (allTriangles, markedTriangles).

(** The body of the loop of step 5: one polygon per triangle. *)
Definition emit_triangle `{NefKernel} {R} (verts : list Vector3f)
    (markedTriangles : list bool) (t : IndexedTriangle)
    (st : PolySet Vector3f * nat) : step R (PolySet Vector3f * nat) :=
  let '(ps, triangleIndex) := st in
  m ← checked_at markedTriangles triangleIndex;
  let ps := append_poly m ps in
  v0 ← at_ verts (Z.to_nat (v_x t));
  let ps := append_vertex v0 ps in
  v1 ← at_ verts (Z.to_nat (v_y t));
  let ps := append_vertex v1 ps in
  v2 ← at_ verts (Z.to_nat (v_z t));
  let ps := append_vertex v2 ps in
  Next (ps, S triangleIndex).

(** Step 5. *)
Definition emit_triangles `{NefKernel} {R} (verts : list Vector3f)
    (allTriangles : list IndexedTriangle) (markedTriangles : list bool)
    (ps : PolySet Vector3f) : step R (PolySet Vector3f) :=
  '(ps, _) ← for_each allTriangles (emit_triangle verts markedTriangles) (ps, 0);
  Next ps.

(** The function returns its flag; the mesh it fills through the reference
    [ps] and the lines it logs are returned next to it. *)
Definition createPolySetFromNefPolyhedron3 `{GeometryUtils}
    (N : Nef_polyhedron_3) (ps : PolySet Vector3f)
  : outcome (bool * PolySet Vector3f * list log_entry) :=
  run (
    let err := false in
    (* 1. Build Indexed PolyMesh *)
    let '(allVertices, polygons, markedPolygons) :=
      fold_left index_halffacet N (mkReindexer [], [], []) in
    (* 2. Validate mesh (manifoldness) *)
    let unconnected := findUnconnectedEdges_polygons polygons in
    let log :=
      if 0 <? unconnected
      then [LOG Error "Non-manifold mesh encountered: %1$d unconnected edges"
              [pretty unconnected]]
      else [] in
    (* 3. Triangulate each face; the [err] of the tessellator is a local
       of the loop body, see [triangulate_face] *)
    let verts := getArray allVertices in
    '(allTriangles, markedTriangles) ←
      triangulate_faces verts polygons markedPolygons;
    (* 4. Validate mesh (manifoldness) *)
    let unconnected2 := findUnconnectedEdges_triangles allTriangles in
    let log :=
      if 0 <? unconnected2
      then log ++ [LOG Error "Non-manifold mesh created: %1$d unconnected edges"
                     [pretty unconnected2]]
      else log in
    (* 5. Create PolySet *)
    ps ← emit_triangles verts allTriangles markedTriangles ps;
    Return (err, ps, log)).

(** *** Where the triangles of the mesh come from *)

(** The half-facets that contribute faces, each with its faces, and the
    vertices indexed on the way. *)
Fixpoint retained `{NefKernel} (N : Nef_polyhedron_3)
    (allVertices : Reindexer Vector3f)
  : Reindexer Vector3f * list (Halffacet * list IndexedFace) :=
  match N with
  | [] => (allVertices, [])
  | hfaceti :: N =>
      let '(allVertices, faces) := facet_faces hfaceti allVertices in
      let '(allVertices, rest) := retained N allVertices in
      (allVertices,
       if bool_decide (faces = []) then rest else (hfaceti, faces) :: rest)
  end.

(** The triangles a face group contributes: none when the tessellator
    reports an error. *)
Definition kept_triangles `{GeometryUtils} (verts : list Vector3f)
    (faces : list IndexedFace) : list IndexedTriangle :=
  let '(err, triangles) := tessellatePolygonWithHoles verts faces in
  if err then [] else triangles.

(** The vertex array of the conversion. *)
Definition all_vertices `{NefKernel} (N : Nef_polyhedron_3) : list Vector3f :=
  getArray (retained N (mkReindexer [])).1.

(** The triangles of the conversion in output order, each with the
    half-facet it was tessellated from. *)
Definition sourced_triangles `{GeometryUtils} (N : Nef_polyhedron_3)
  : list (Halffacet * IndexedTriangle) :=
  flat_map (λ '(hfaceti, faces),
              pair hfaceti <$> kept_triangles (all_vertices N) faces)
    (retained N (mkReindexer [])).2.

(** The indices of a face stay below [n]. *)
Definition indexes_below (n : nat) (face : IndexedFace) : Prop :=
  Forall (λ i, i < n) face.

(** The face groups of step 1 and their marks, from the retained
    half-facets. *)
Definition face_groups `{NefKernel} (kept : list (Halffacet * list IndexedFace))
  : list (list IndexedFace * bool) :=
  (λ '(hfaceti, faces), (faces, negb (mark hfaceti))) <$> kept.

(** The triangles step 3 keeps, each with the mark of its group. *)
Definition marked_triangles `{GeometryUtils} (verts : list Vector3f)
    (groups : list (list IndexedFace * bool)) : list (IndexedTriangle * bool) :=
  flat_map (λ '(faces, m), (λ t, (t, m)) <$> kept_triangles verts faces) groups.

(** Polygon [p] is triangle [t] over the vertex array. *)
Definition is_triangle `{NefKernel} (verts : list Vector3f)
    (t : IndexedTriangle) (p : Polygon Vector3f) : Prop :=
  ∃ v0 v1 v2,
    verts !! Z.to_nat (v_x t) = Some v0 ∧
    verts !! Z.to_nat (v_y t) = Some v1 ∧
    verts !! Z.to_nat (v_z t) = Some v2 ∧
    vertices p = [v0; v1; v2].

(** The mesh [ps'] is [ps] followed by one polygon per sourced triangle,
    whose mark is [flag_of] of the half-facet the triangle comes from. *)
Definition triangles_carry `{GeometryUtils} (flag_of : Halffacet → bool)
    (N : Nef_polyhedron_3) (ps ps' : PolySet Vector3f) : Prop :=
  ∃ out, polygons ps' = polygons ps ++ out ∧
    Forall2 (λ '(hfaceti, t) p,
               marked p = flag_of hfaceti ∧ is_triangle (all_vertices N) t p)
      (sourced_triangles N) out.

(** What the conversion expects of the tessellator: over faces that index
    into the vertex array, so do the triangles of a successful run. *)
Definition tessellator_in_range `{GeometryUtils} : Prop :=
  ∀ verts faces triangles,
    Forall (indexes_below (length verts)) faces →
    tessellatePolygonWithHoles verts faces = (false, triangles) →
    Forall (λ t, triangle_in_range (length verts) t = true) triangles.

(** The polygons step 5 appends for a list of marked triangles. *)
Definition emitted `{NefKernel} (verts : list Vector3f)
    (tm : list (IndexedTriangle * bool)) (out : list (Polygon Vector3f)) : Prop :=
  Forall2 (λ '(t, m) p, marked p = m ∧ is_triangle verts t p) tm out.

(** The marked triangles of the conversion. *)
Definition conversion_triangles `{GeometryUtils} (N : Nef_polyhedron_3)
  : list (IndexedTriangle * bool) :=
  marked_triangles (all_vertices N) (face_groups (retained N (mkReindexer [])).2).

(** *** A kernel and a tessellator to run the conversion with *)

(** Integer points that are their own mesh vertices. *)
#[global] Instance integer_points : NefKernel := {|
  Point_3 := Vector3 Z;
  Vector3f := Vector3 Z;
  Vector3f_eq_dec := _;
  vector_convert_3f := λ p, p;
|}.

(** The directed edges of a loop. *)
Definition loop_edges (loop : list nat) : list (nat * nat) :=
  match loop with
  | [] => []
  | a :: rest => zip loop (rest ++ [a])
  end.

(** The edges of a set of loops whose reverse is in no loop. *)
Definition unconnected_edges (loops : list (list nat)) : nat :=
  let edges := concat (loop_edges <$> loops) in
  length (filter (λ e, (e.2, e.1) ∉ edges) edges).

(** A tessellator that lets a single triangle through and fails on any
    other face. *)
#[global] Instance triangles_pass : GeometryUtils := {|
  tessellatePolygonWithHoles := λ verts faces,
    match faces with
    | [[a; b; c]] => (false, [mkVector3 (Z.of_nat a) (Z.of_nat b) (Z.of_nat c)])
    | _ => (true, [])
    end;
  findUnconnectedEdges_polygons := λ polygons, unconnected_edges (concat polygons);
  findUnconnectedEdges_triangles := λ triangles,
    unconnected_edges ((λ t, Z.to_nat <$> coefficients t) <$> triangles);
|}.

Definition point (x y z : Z) : Vector3 Z := mkVector3 x y z.

(** One marked half-facet on the outside volume, bounded by a triangle. *)
Definition marked_triangle : @Nef_polyhedron_3 integer_points :=
  [ mkHalffacet integer_points true false
      [[point 0 0 0; point 1 0 0; point 0 1 0]] ].

(** A triangle, a square and another triangle. *)
Definition triangle_square_triangle : @Nef_polyhedron_3 integer_points :=
  [ mkHalffacet integer_points true false
      [[point 0 0 0; point 1 0 0; point 0 1 0]];
    mkHalffacet integer_points true false
      [[point 0 0 0; point 0 0 1; point 1 0 1; point 1 0 0]];
    mkHalffacet integer_points true false
      [[point 0 0 0; point 0 1 0; point 0 0 1]] ].

(** ** [createNefPolyhedronFromPolySet] *)

(** An exception in flight, with the message [what()] returns.  CGAL
    reports a check that failed inside the library by throwing an
    exception of the class of the check: [CGAL::Assertion_exception], the
    class the handlers of the function name, for [CGAL_assertion], and its
    sibling classes for preconditions, postconditions and warnings; none
    of them derives from another.  Any other class, [std::bad_alloc] for
    one, is [other_exception]. *)
Inductive exception : Type :=
| Assertion_exception (what : string)
| Precondition_exception (what : string)
| Postcondition_exception (what : string)
| Warning_exception (what : string)
| other_exception (what : string).

(** [e.what()] *)
Definition exception_what (e : exception) : string :=
  match e with
  | Assertion_exception what | Precondition_exception what
  | Postcondition_exception what | Warning_exception what
  | other_exception what => what
  end.

Inductive throwing (A : Type) : Type :=
| Value (a : A)
| Raise (e : exception).
Arguments Value {A} a.
Arguments Raise {A} e.

(** What the function consumes from [PolySet], [PolySetUtils] and CGAL. *)
Class BoundaryBuilder (V : Type) : Type := {
  CGAL_Polyhedron : Type;
  CGAL_Nef_polyhedron3 : Type;
  (* psq.quantizeVertices(&points3d): the quantized mesh and its points *)
  quantizeVertices : PolySet V → PolySet V * list V;
  (* PolySetUtils::tessellate_faces(in, out): the filled [out] *)
  tessellate_faces : PolySet V → PolySet V → PolySet V;
  is_convex : PolySet V → bool;
  (* CGAL::convex_hull_3 followed by CGALUtils::copyPolyhedron *)
  convex_hull_3 : list V → throwing CGAL_Polyhedron;
  (* CGALUtils::createPolyhedronFromPolySet(ps, P): the flag and [P] *)
  createPolyhedronFromPolySet : PolySet V → throwing (bool * CGAL_Polyhedron);
  is_closed : CGAL_Polyhedron → bool;
  is_valid : CGAL_Polyhedron → bool;
  (* new CGAL_Nef_polyhedron3(P) *)
  new_Nef_polyhedron3 : CGAL_Polyhedron → throwing CGAL_Nef_polyhedron3;
}.

(** [CGAL_Nef_polyhedron] holds a possibly null pointer to the structure;
    the null pointer is the empty geometry. *)
Record CGAL_Nef_polyhedron `{BoundaryBuilder V} : Type := mkNef {
  p3 : option CGAL_Nef_polyhedron3;
}.
Arguments mkNef {V _} p3.

(** The effects of a run: the lines logged and the calls made to the
    boundary constructor, in order. *)
Inductive event (V : Type) : Type :=
| Logged (l : log_entry)
| Built (input : PolySet V).        (* createPolyhedronFromPolySet(input, P) *)
Arguments Logged {V} l.
Arguments Built {V} input.

Inductive completion (A : Type) : Type :=
| Normal (a : A)
| Throw (e : exception)
| Abort (f : fault).
Arguments Normal {A} a.
Arguments Throw {A} e.
Arguments Abort {A} f.

Definition effect (V A : Type) : Type := list (event V) * completion A.

#[global] Instance effect_bind {V} : MBind (effect V) := λ A B k m,
  match m with
  | (evs, Normal a) => let '(evs', r) := k a in (evs ++ evs', r)
  | (evs, Throw e) => (evs, Throw e)
  | (evs, Abort f) => (evs, Abort f)
  end.

#[global] Instance effect_ret {V} : MRet (effect V) := λ A a, ([], Normal a).

Definition emit {V} (l : log_entry) : effect V unit := ([Logged l], Normal tt).

Definition lift {V A} (t : throwing A) : effect V A :=
  match t with
  | Value a => ([], Normal a)
  | Raise e => ([], Throw e)
  end.

Definition assert_effect {V} (b : bool) : effect V unit :=
  ([], if b then Normal tt else Abort AssertionFailed).

(** [try body catch (const CGAL::Assertion_exception& e) handler]: an
    exception of another class passes through. *)
Definition try_catch {V A} (body : effect V A) (handler : string → effect V A)
  : effect V A :=
  match body with
  | (evs, Throw (Assertion_exception what)) =>
      let '(evs', r) := handler what in (evs ++ evs', r)
  | _ => body
  end.

(** The end of a call: an exception nobody caught leaves the function. *)
Definition finish {V A} (m : effect V A) : list (event V) * outcome A :=
  match m with
  | (evs, Normal a) => (evs, Ok a)
  | (evs, Throw e) => (evs, Crash (Uncaught (exception_what e)))
  | (evs, Abort f) => (evs, Crash f)
  end.

(** [std::string(s).find(pattern) != std::string::npos]. *)
Definition found (pattern s : string) : bool :=
  bool_decide (is_Some (String.index 0 pattern s)).

(** The test of the first handler: the message of a failed planarity
    assertion of the boundary constructor, for the CGAL versions before
    and from 4.10. *)
Definition is_plane_error (what : string) : bool :=
  (found "Plane_constructor" what && found "has_on" what)
  || found "ss_plane.has_on(sv_prev->point())" what
  || found "ss_circle.has_on(sp)" what.

(** [auto err = createPolyhedronFromPolySet(input, P)] *)
Definition build `{BoundaryBuilder V} (input : PolySet V)
  : effect V (bool * CGAL_Polyhedron) :=
  _ ← (([Built input], Normal tt) : effect V unit);
  lift (createPolyhedronFromPolySet input).

(** The calls to the boundary constructor a trace records. *)
Definition builds {V} (trace : list (event V)) : list (PolySet V) :=
  omap (λ e, match e with Built input => Some input | Logged _ => None end) trace.

Definition mesh_not_closed : log_entry :=
  LOG Error "The given mesh is not closed! Unable to convert to CGAL_Nef_Polyhedron." [].
Definition mesh_invalid : log_entry :=
  LOG Error "The given mesh is invalid! Unable to convert to CGAL_Nef_Polyhedron." [].
Definition nonplanar_notice : log_entry :=
  LOG NONE "PolySet has nonplanar faces. Attempting alternate construction" [].
Definition construct_failed (what : string) : log_entry :=
  LOG Error "CGAL error in CGAL_Nef_polyhedron3(): %1$s" [what].
Definition alternate_failed (what : string) : log_entry :=
  LOG Error "Alternate construction failed. CGAL error in CGAL_Nef_polyhedron3(): %1$s" [what].

(** The first [try] block; it yields [N], [plane_error] stays false. *)
Definition construct_exact `{BoundaryBuilder V} (psq : PolySet V)
  : effect V (option CGAL_Nef_polyhedron3 * bool) :=
  '(err, P) ← build psq;
  if negb err then
    if negb (is_closed P) then
      _ ← emit mesh_not_closed;
      mret (None, false)
    else if negb (is_valid P) then
      _ ← emit mesh_invalid;
      mret (None, false)
    else
      N ← lift (new_Nef_polyhedron3 P);
      mret (Some N, false)
  else mret (None, false).

(** The first handler. *)
Definition on_construct_error `{BoundaryBuilder V} (what : string)
  : effect V (option CGAL_Nef_polyhedron3 * bool) :=
  if is_plane_error what then
    _ ← emit nonplanar_notice;
    mret (None, true)
  else
    _ ← emit (construct_failed what);
    mret (None, false).

(** The second [try] block, on the tessellated mesh. *)
Definition construct_alternate `{BoundaryBuilder V} (ps_tri : PolySet V)
    (N : option CGAL_Nef_polyhedron3) : effect V (option CGAL_Nef_polyhedron3) :=
  '(err, P) ← build ps_tri;
  if negb err then
    N ← lift (new_Nef_polyhedron3 P);
    mret (Some N)
  else mret N.

(** The second handler. *)
Definition on_alternate_error `{BoundaryBuilder V}
    (N : option CGAL_Nef_polyhedron3) (what : string)
  : effect V (option CGAL_Nef_polyhedron3) :=
  _ ← emit (alternate_failed what);
  mret N.

(** The part of the function after the convexity test has failed. *)
Definition construct_boundary `{BoundaryBuilder V} (psq ps_tri : PolySet V)
  : effect V CGAL_Nef_polyhedron :=
  '(N, plane_error) ← try_catch (construct_exact psq) on_construct_error;
  N ← (if (plane_error : bool)
       then try_catch (construct_alternate ps_tri N) (on_alternate_error N)
       else mret N);
  mret (mkNef N).

Definition createNefPolyhedronFromPolySet `{BoundaryBuilder V} (ps : PolySet V)
  : list (event V) * outcome CGAL_Nef_polyhedron :=
  finish (
    if isEmpty ps then mret (mkNef None)
    else
      _ ← assert_effect (bool_decide (getDimension ps = 3));
      (* Since is_convex doesn't work well with non-planar faces,
         we tessellate the polyset before checking. *)
      let psq := ps in
      let '(psq, points3d) := quantizeVertices psq in
      let ps_tri := new_PolySet 3 (convexValue psq) in
      let ps_tri := tessellate_faces psq ps_tri in
      if is_convex ps_tri then
        (* Collect point cloud *)
        let points := points3d in
        if length points <=? 3 then mret (mkNef None)
        else
          (* Apply hull *)
          r_exact ← lift (convex_hull_3 points);
          N ← lift (new_Nef_polyhedron3 r_exact);
          mret (mkNef (Some N))
      else construct_boundary psq ps_tri).

(** *** What the handling of failures is expected to do *)

(** Boundary construction on [input] fails with [e]: the exception leaves
    [createPolyhedronFromPolySet], or the constructor of the volumetric
    structure, which the first [try] block reaches with a polyhedron that
    was built without error, is closed and is valid. *)
Definition construction_fails `{BoundaryBuilder V} (input : PolySet V)
    (e : exception) : Prop :=
  createPolyhedronFromPolySet input = Raise e ∨
  ∃ P, createPolyhedronFromPolySet input = Value (false, P) ∧
       is_closed P = true ∧ is_valid P = true ∧
       new_Nef_polyhedron3 P = Raise e.

(** What a second construction from the tessellated copy gives: the
    structure of the polyhedron built from it, no structure when the
    polyhedron is reported in error, or the exception of either step. *)
Definition retried `{BoundaryBuilder V} (ps_tri : PolySet V)
  : throwing (option CGAL_Nef_polyhedron3) :=
  match createPolyhedronFromPolySet ps_tri with
  | Value (false, P) =>
      match new_Nef_polyhedron3 P with
      | Value N => Value (Some N)
      | Raise e => Raise e
      end
  | Value (true, _) => Value None
  | Raise e => Raise e
  end.

(** The convex hull of the points, or the structure built from it, fails
    with [e]. *)
Definition hull_fails `{BoundaryBuilder V} (points : list V) (e : exception)
  : Prop :=
  convex_hull_3 points = Raise e ∨
  ∃ r, convex_hull_3 points = Value r ∧ new_Nef_polyhedron3 r = Raise e.

(** A failure is contained: the function returns the empty geometry and
    has logged an error. *)
Definition failure_reported `{BoundaryBuilder V} (ps : PolySet V) : Prop :=
  ∃ trace l,
    createNefPolyhedronFromPolySet ps = (trace, Ok (mkNef None)) ∧
    Logged l ∈ trace ∧ log_group l = Error.

(** *** A boundary constructor to run the function with *)

(** Meshes over numbered vertices.  The polyhedron and the volumetric
    structure are the mesh they were built from; the volumetric structure
    accepts triangles only and fails on any other face with the message of
    the planarity assertion. *)
Definition fan (p : Polygon nat) : list (Polygon nat) :=
  match vertices p with
  | a :: rest =>
      (λ '(b, c), mkPolygon (marked p) [a; b; c]) <$> zip rest (tail rest)
  | [] => []
  end.

Definition planarity_message : string :=
  "CGAL ERROR: assertion violation! Expr: ss_plane.has_on(sv_prev->point())".

#[global] Instance triangles_only : BoundaryBuilder nat := {|
  CGAL_Polyhedron := PolySet nat;
  CGAL_Nef_polyhedron3 := PolySet nat;
  quantizeVertices := λ ps, (ps, remove_dups (concat (vertices <$> polygons ps)));
  tessellate_faces := λ inp out,
    mkPolySet (polygons out ++ concat (fan <$> polygons inp))
      (getDimension out) (convexValue out);
  is_convex := λ ps, bool_decide (convexValue ps = Some true);
  convex_hull_3 := λ points, Value (mkPolySet [] 3 (Some true));
  createPolyhedronFromPolySet := λ ps, Value (false, ps);
  is_closed := λ _, true;
  is_valid := λ _, true;
  new_Nef_polyhedron3 := λ P,
    if forallb (λ p, length (vertices p) =? 3) (polygons P)
    then Value P
    else Raise (Assertion_exception planarity_message);
|}.

(** Two squares, as a mesh of dimension three. *)
Definition two_squares : PolySet nat :=
  mkPolySet [mkPolygon false [0; 1; 2; 3]; mkPolygon false [3; 2; 1; 0]] 3 None.

(** ** [is_approximately_convex] *)

(** The kernel [CGAL::Simple_cartesian<double>] and the arithmetic on
    doubles the function uses. *)
Class Kernel : Type := {
  FT : Type;                                   (* double *)
  FT_lt : FT → FT → bool;                      (* a < b *)
  FT_eq : FT → FT → bool;                      (* a == b *)
  FT_div : FT → FT → FT;
  FT_sqrt : FT → FT;
  FT_point_one : FT;                           (* the literal .1 *)
  cos_degrees : FT → FT;                       (* degree_trig.h *)
  Point : Type;                                (* K::Point_3 *)
  Vector : Type;                               (* K::Vector_3 *)
  Plane : Type;                                (* K::Plane_3 *)
  vector_convert : Vector3 FT → Point;         (* vector_convert<Point> *)
  normal_vector_newell_3 : list Point → Vector;
  new_Plane : Point → Vector → Plane;          (* Plane(p, normal) *)
  default_Plane : Plane;                       (* Plane plane; *)
  has_on_positive_side : Plane → Point → bool;
  orthogonal_vector : Plane → Vector;
  scalar_product : Vector → Vector → FT;       (* u * v *)
  Vector_div : Vector → FT → Vector;           (* u / s *)
}.

Abbreviation Vector3d := (Vector3 FT) (only parsing).

(** The loop of [operator<] over the coefficients. *)
Fixpoint lexicographic_lt `{Kernel} (a b : list FT) : bool :=
  match a, b with
  | ai :: a', bi :: b' =>
      if FT_lt ai bi then true
      else if FT_eq ai bi then lexicographic_lt a' b'
      else false
  | _, _ => false
  end.

(** [bool operator<(Vector3d const& a, Vector3d const& b)]:
    lexicographic comparison. *)
Definition Vector3d_lt `{Kernel} (a b : Vector3d) : bool :=
  lexicographic_lt (coefficients a) (coefficients b).

Abbreviation Edge := (Vector3d * Vector3d)%type (only parsing).

(** [VecPairCompare::operator()]. *)
Definition VecPairCompare `{Kernel} (a b : Edge) : bool :=
  Vector3d_lt a.1 b.1 || (negb (Vector3d_lt b.1 a.1) && Vector3d_lt a.2 b.2).

(** [std::map<Edge, int, VecPairCompare>]: the entries in the order in
    which they were inserted.  The map identifies two keys when neither
    compares less than the other. *)
Abbreviation Edge_to_facet_map := (list (Edge * nat)) (only parsing).

Definition equivalent `{Kernel} (a b : Edge) : bool :=
  negb (VecPairCompare a b) && negb (VecPairCompare b a).

(** What the container requires of its comparator, on the keys it
    meets: a strict weak ordering, which is irreflexive and transitive and
    whose equivalence is transitive. *)
Definition strict_weak_ordering `{Kernel} (keys : list Edge) : Prop :=
  (∀ a, a ∈ keys → VecPairCompare a a = false) ∧
  (∀ a b c, a ∈ keys → b ∈ keys → c ∈ keys →
     VecPairCompare a b = true → VecPairCompare b c = true →
     VecPairCompare a c = true) ∧
  (∀ a b c, a ∈ keys → b ∈ keys → c ∈ keys →
     equivalent a b = true → equivalent b c = true → equivalent a c = true).

(** The place of the first key equivalent to [k]. *)
Fixpoint first_equivalent `{Kernel} (keys : list Edge) (k : Edge) : option nat :=
  match keys with
  | [] => None
  | key :: keys =>
      if equivalent key k then Some 0 else S <$> first_equivalent keys k
  end.

(** A search of the container for a key.  [std::map] belongs to the C++
    library: it keeps its entries in a search tree ordered by the
    comparator and looks for a key by descending the tree, so that what
    it finds is decided by the keys, in the order in which they were
    inserted, and by the key looked for.  It ends on an entry of the map
    or on none, and for a comparator that is a strict weak ordering of
    these keys it ends on the entry with the equivalent key.  For any
    other comparator, as with a coordinate that is NaN, the C++ standard
    leaves the result open, and so does [node]. *)
Record search `{Kernel} : Type := mkSearch {
  node : list Edge → Edge → option nat;
  node_bound : ∀ keys k i, node keys k = Some i → i < length keys;
  node_ordered : ∀ keys k,
    strict_weak_ordering (k :: keys) → node keys k = first_equivalent keys k;
}.

(** The searches behind [count], [find] and [operator[]]. *)
Class std_map `{Kernel} : Type := {
  count_search : search;
  find_search : search;
  subscript_search : search;
}.

(** [m.find(k)]: the value of the entry found, if any. *)
Definition map_find `{std_map} (m : Edge_to_facet_map) (k : Edge) : option nat :=
  i ← node find_search m.*1 k;
  snd <$> m !! i.

(** [m.count(k)]. *)
Definition map_count `{std_map} (m : Edge_to_facet_map) (k : Edge) : nat :=
  match node count_search m.*1 k with Some _ => 1 | None => 0 end.

(** [m[k] = v]: the entry found takes the value, and a key that is not
    found is inserted with it. *)
Definition map_assign `{std_map} (m : Edge_to_facet_map) (k : Edge) (v : nat)
  : Edge_to_facet_map :=
  match node subscript_search m.*1 k with
  | Some i => alter (λ kv, (kv.1, v)) i m
  | None => m ++ [(k, v)]
  end.

(** [m[k]] read: a missing key is inserted with the value 0. *)
Definition map_subscript `{std_map} (m : Edge_to_facet_map) (k : Edge)
  : nat * Edge_to_facet_map :=
  match node subscript_search m.*1 k with
  | Some i => (from_option snd 0 (m !! i), m)
  | None => (0, m ++ [(k, 0)])
  end.

(** The search that tries the entries one after the other. *)
Definition linear_search `{Kernel} : search.
Proof.
  refine (mkSearch _ first_equivalent _ (λ _ _ _, eq_refl)).
  intros keys k. induction keys as [|key keys IH]; intros i; simpl; [done|].
  destruct (equivalent key k); [intros [= <-]; lia|].
  destruct (first_equivalent keys k) as [i'|]; [|done].
  intros [= <-]. specialize (IH i' eq_refl). lia.
Defined.

#[global] Instance linear_map `{Kernel} : std_map := {|
  count_search := linear_search;
  find_search := linear_search;
  subscript_search := linear_search;
|}.

(** The first loop: edge to face relations and plane equations. *)
Definition facet_edges_and_planes `{std_map} (ps : PolySet Vector3d)
  : step bool (Edge_to_facet_map * list Plane) :=
  for_each (seq 0 (length (polygons ps))) (λ i '(edge_to_facet_map, facet_planes),
    poly ← at_ (polygons ps) i;
    let N := length (vertices poly) in
    '(edge_to_facet_map, plane) ←
      (if 3 <=? N then
         (* v is filled from index 0 upward *)
         '(edge_to_facet_map, v) ←
           for_each (seq 0 N) (λ j '(edge_to_facet_map, v),
             pj ← at_ (vertices poly) j;
             let v := v ++ [vector_convert pj] in
             pj1 ← at_ (vertices poly) ((j + 1) mod N);
             let edge := (pj, pj1) in
             if negb (map_count edge_to_facet_map edge =? 0)
             then Return false (* edge already exists: nonmanifold *)
             else Next (map_assign edge_to_facet_map edge i, v))
             (edge_to_facet_map, []);
         let normal := normal_vector_newell_3 v in
         v0 ← at_ v 0;
         Next (edge_to_facet_map, new_Plane v0 normal)
       else Next (edge_to_facet_map, default_Plane));
    Next (edge_to_facet_map, facet_planes ++ [plane]))
    ([], []).

(** [u / sqrt(u * u) * v / sqrt(v * v)] *)
Definition cos_angle `{Kernel} (u v : Vector) : FT :=
  FT_div
    (scalar_product (Vector_div u (FT_sqrt (scalar_product u u))) v)
    (FT_sqrt (scalar_product v v)).

(** The second loop: every edge has its reverse, and the face across it
    does not fold outward by more than the threshold. *)
Definition check_neighbours `{std_map} (ps : PolySet Vector3d)
    (angle_threshold : FT) (facet_planes : list Plane)
    (edge_to_facet_map : Edge_to_facet_map) : step bool Edge_to_facet_map :=
  for_each (seq 0 (length (polygons ps))) (λ i edge_to_facet_map,
    poly ← at_ (polygons ps) i;
    let N := length (vertices poly) in
    if N <? 3 then Next edge_to_facet_map
    else
      for_each (seq 0 N) (λ j edge_to_facet_map,
        pj1 ← at_ (vertices poly) ((j + 1) mod N);
        pj ← at_ (vertices poly) j;
        let other_edge := (pj1, pj) in
        if map_count edge_to_facet_map other_edge =? 0 then Return false
        else
          let '(other_facet, edge_to_facet_map) :=
            map_subscript edge_to_facet_map other_edge in
          pj2 ← at_ (vertices poly) ((j + 2) mod N);
          let p := vector_convert pj2 in
          other_plane ← at_ facet_planes other_facet;
          if has_on_positive_side other_plane p then
            (* Check angle *)
            let u := orthogonal_vector other_plane in
            own_plane ← at_ facet_planes i;
            let v := orthogonal_vector own_plane in
            if FT_lt (cos_angle u v) angle_threshold then Return false
            else Next edge_to_facet_map
          else Next edge_to_facet_map)
        edge_to_facet_map)
    edge_to_facet_map.

(** The [while] loop over the queue of faces to visit, run for at most
    [fuel] tests of its condition. *)
Fixpoint explore_facets `{std_map} (fuel : nat) (ps : PolySet Vector3d)
    (edge_to_facet_map : Edge_to_facet_map)
    (explored_facets : gset nat) (facets_to_visit : list nat)
  : step bool (gset nat) :=
  match fuel with
  | 0 => Fault FuelExhausted
  | S fuel =>
      match facets_to_visit with
      | [] => Next explored_facets
      | f :: facets_to_visit =>
          poly ← at_ (polygons ps) f;
          '(explored_facets, facets_to_visit) ←
            for_each (seq 0 (length (vertices poly)))
              (λ i '(explored_facets, facets_to_visit),
                let j := (i + 1) mod length (vertices poly) in
                pj ← at_ (vertices poly) j;
                pi ← at_ (vertices poly) i;
                match map_find edge_to_facet_map (pj, pi) with
                | None => Return false (* Nonmanifold *)
                | Some it =>
                    if bool_decide (it ∈ explored_facets)
                    then Next (explored_facets, facets_to_visit)
                    else Next ({[it]} ∪ explored_facets, facets_to_visit ++ [it])
                end)
              (explored_facets, facets_to_visit);
          explore_facets fuel ps edge_to_facet_map explored_facets facets_to_visit
      end
  end.

(** Check if all faces of a polyset is within 0.1 degree of being convex.
    Every round of the [while] loop takes a face off the queue and no face
    enters the queue twice, so one test of the condition per face and a
    last one on the empty queue are provided. *)
Definition is_approximately_convex `{std_map} (ps : PolySet Vector3d)
  : outcome bool :=
  run (
    let angle_threshold := cos_degrees FT_point_one in
    (* compute edge to face relations and plane equations *)
    '(edge_to_facet_map, facet_planes) ← facet_edges_and_planes ps;
    edge_to_facet_map ←
      check_neighbours ps angle_threshold facet_planes edge_to_facet_map;
    explored_facets ←
      explore_facets (S (length (polygons ps))) ps edge_to_facet_map {[0]} [0];
    (* Make sure that we were able to reach all polygons during our visit *)
    Return (bool_decide (size explored_facets = length (polygons ps)))).

(** *** What a convex mesh is expected to satisfy *)

(** A tessellated mesh has triangles only; the function reads the edges of
    every face with three vertices or more. *)
Definition tessellated {V} (ps : PolySet V) : Prop :=
  Forall (λ poly, length (vertices poly) = 3) (polygons ps).

Definition proper_faces {V} (ps : PolySet V) : Prop :=
  Forall (λ poly, 3 ≤ length (vertices poly)) (polygons ps).

(** The directed edge from vertex [j] of face [i] to the next vertex of
    the loop. *)
Definition face_edge `{Kernel} (ps : PolySet Vector3d) (i j : nat) : option Edge :=
  poly ← polygons ps !! i;
  pj ← vertices poly !! j;
  pj1 ← vertices poly !! ((j + 1) mod length (vertices poly));
  Some (pj, pj1).

Definition reverse `{Kernel} (e : Edge) : Edge := (e.2, e.1).

(** The plane the first loop stores for a face. *)
Definition facet_plane `{Kernel} (poly : Polygon Vector3d) : Plane :=
  if 3 <=? length (vertices poly) then
    match vector_convert <$> vertices poly with
    | v0 :: _ => new_Plane v0 (normal_vector_newell_3 (vector_convert <$> vertices poly))
    | [] => default_Plane
    end
  else default_Plane.

(** Step 1: no directed edge occurs twice, so none occurs in two faces. *)
Definition manifold_edges `{Kernel} (ps : PolySet Vector3d) : Prop :=
  ∀ i j i' j' e e',
    face_edge ps i j = Some e → face_edge ps i' j' = Some e' →
    (i, j) ≠ (i', j') → equivalent e e' = false.

(** Step 3, first half: the reverse of every edge is an edge of some
    face. *)
Definition closed_edges `{Kernel} (ps : PolySet Vector3d) : Prop :=
  ∀ i j e, face_edge ps i j = Some e →
    ∃ i' j' e', face_edge ps i' j' = Some e' ∧ equivalent e' (reverse e) = true.

(** The cosine of the angle between two vectors, the way the function
    takes it: the first vector over its length, times the second, over the
    length of the second. *)
Definition cosine_between `{Kernel} (u v : Vector) : FT :=
  FT_div (scalar_product (Vector_div u (FT_sqrt (scalar_product u u))) v)
         (FT_sqrt (scalar_product v v)).

(** Step 3, second half: across every edge of a face [F] whose reverse is
    an edge of a face [G], when the vertex two steps ahead on [F] is
    strictly on the positive side of the plane of [G], the cosine of the
    angle between the normals is accepted. *)
Definition locally_convex `{Kernel} (accepted : FT → Prop)
    (ps : PolySet Vector3d) : Prop :=
  ∀ F j e G j' e' polyF polyG p,
    face_edge ps F j = Some e → face_edge ps G j' = Some e' →
    equivalent e' (reverse e) = true →
    polygons ps !! F = Some polyF → polygons ps !! G = Some polyG →
    vertices polyF !! ((j + 2) mod length (vertices polyF)) = Some p →
    has_on_positive_side (facet_plane polyG) (vector_convert p) = true →
    accepted (cosine_between (orthogonal_vector (facet_plane polyG))
                             (orthogonal_vector (facet_plane polyF))).

(** The cosine is not below the cosine of 0.1 degrees: the test of the
    function. *)
Definition not_below_threshold `{Kernel} (c : FT) : Prop :=
  FT_lt c (cos_degrees FT_point_one) = false.

(** The cosine is at least the cosine of 0.1 degrees: above it or equal
    to it. *)
Definition at_least_threshold `{Kernel} (c : FT) : Prop :=
  FT_lt (cos_degrees FT_point_one) c = true ∨
  FT_eq c (cos_degrees FT_point_one) = true.

(** Face [g] has the reverse of an edge of face [f]. *)
Definition linked `{Kernel} (ps : PolySet Vector3d) (f g : nat) : Prop :=
  ∃ j e j' e',
    face_edge ps f j = Some e ∧ face_edge ps g j' = Some e' ∧
    equivalent e' (reverse e) = true.

(** Step 4: every face is reached from face 0 over such links. *)
Definition connected_faces `{Kernel} (ps : PolySet Vector3d) : Prop :=
  ∀ i, i < length (polygons ps) → rtc (linked ps) 0 i.

Definition convexity_conditions `{Kernel} (accepted : FT → Prop)
    (ps : PolySet Vector3d) : Prop :=
  manifold_edges ps ∧ closed_edges ps ∧ locally_convex accepted ps ∧
  connected_faces ps.

(** The pairs of vertices of a face: its edges and their reverses are
    among them. *)
Definition mesh_keys `{Kernel} (ps : PolySet Vector3d) : list Edge :=
  poly ← polygons ps; a ← vertices poly; b ← vertices poly; [(a, b)].

(** *** The states of the loops *)

(** The faces under which the map files edges are among the first [n]. *)
Definition values_below `{Kernel} (n : nat) (m : Edge_to_facet_map) : Prop :=
  ∀ key g, (key, g) ∈ m → g < n.

(** The keys of the map are pairs of vertices of a face of the mesh. *)
Definition keys_within `{Kernel} (ps : PolySet Vector3d) (m : Edge_to_facet_map)
  : Prop :=
  ∀ key g, (key, g) ∈ m → key ∈ mesh_keys ps.

(** The edges the first loop enters into the map: those of the faces with
    three vertices or more. *)
Definition registered_edge `{Kernel} (ps : PolySet Vector3d) (i j : nat)
  : option Edge :=
  poly ← polygons ps !! i;
  if 3 <=? length (vertices poly) then face_edge ps i j else None.

(** Edge [j'] of face [g] comes before edge [j] of face [i]. *)
Definition done_before (i j g j' : nat) : Prop := g < i ∨ (g = i ∧ j' < j).

(** The map holds the edges before edge [j] of face [i], each under its
    face, and no two of them are equivalent. *)
Definition edges_upto `{Kernel} (ps : PolySet Vector3d) (i j : nat)
    (m : Edge_to_facet_map) : Prop :=
  (∀ key g, (key, g) ∈ m →
     ∃ j', done_before i j g j' ∧ registered_edge ps g j' = Some key) ∧
  (∀ g j' e, done_before i j g j' → registered_edge ps g j' = Some e → (e, g) ∈ m) ∧
  (∀ g j1 g' j2 e e',
     done_before i j g j1 → done_before i j g' j2 →
     registered_edge ps g j1 = Some e → registered_edge ps g' j2 = Some e' →
     (g, j1) ≠ (g', j2) → equivalent e e' = false).

(** What the second loop has checked on the edges before edge [j] of
    face [i]: the map files the reverse edge under a face, and the fold
    across it is within the threshold. *)
Definition neighbours_ok `{std_map} (ps : PolySet Vector3d)
    (angle_threshold : FT) (m : Edge_to_facet_map) (i j : nat) : Prop :=
  ∀ F j' e polyF,
    done_before i j F j' → registered_edge ps F j' = Some e →
    polygons ps !! F = Some polyF →
    ∃ G polyG,
      map_find m (reverse e) = Some G ∧ polygons ps !! G = Some polyG ∧
      ∀ p, vertices polyF !! ((j' + 2) mod length (vertices polyF)) = Some p →
           has_on_positive_side (facet_plane polyG) (vector_convert p) = true →
           FT_lt (cos_angle (orthogonal_vector (facet_plane polyG))
                            (orthogonal_vector (facet_plane polyF)))
                 angle_threshold = false.

(** Face [g] exists and is linked to face 0. *)
Definition reached `{Kernel} (ps : PolySet Vector3d) (g : nat) : Prop :=
  g < length (polygons ps) ∧ rtc (linked ps) 0 g.

(** *** The kernel over binary64 *)

Definition float_dot (u v : Vector3 float) : float :=
  (v_x u * v_x v + v_y u * v_y v + v_z u * v_z v)%float.

(** One step of Newell's method in Cartesian coordinates. *)
Definition newell_single_step_3 (p q n : Vector3 float) : Vector3 float :=
  mkVector3
    (v_x n + (v_y p - v_y q) * (v_z p + v_z q))%float
    (v_y n + (v_z p - v_z q) * (v_x p + v_x q))%float
    (v_z n + (v_x p - v_x q) * (v_y p + v_y q))%float.

Fixpoint newell_from (start prev : Vector3 float) (rest : list (Vector3 float))
    (n : Vector3 float) : Vector3 float :=
  match rest with
  | [] => newell_single_step_3 prev start n
  | q :: rest => newell_from start q rest (newell_single_step_3 prev q n)
  end.

Definition float_newell (v : list (Vector3 float)) : Vector3 float :=
  match v with
  | [] => mkVector3 0 0 0
  | p :: rest => newell_from p p rest (mkVector3 0 0 0)
  end%float.

(** A plane [a x + b y + c z + d = 0]. *)
Record float_plane : Type := mkPlane {
  plane_normal : Vector3 float;
  plane_d : float;
}.

(** The cosine of an angle in degrees by its Taylor polynomial, which is
    exact to the last bit or so for the small angle of the threshold. *)
Definition float_cos_degrees (x : float) : float :=
  let r := (x * 0x1.1df46a2529d39p-6)%float in   (* pi / 180 *)
  let r2 := (r * r)%float in
  (1 - r2 / 2 + r2 * r2 / 24 - r2 * r2 * r2 / 720)%float.

#[global] Instance Simple_cartesian_double : Kernel := {|
  FT := float;
  FT_lt := PrimFloat.ltb;
  FT_eq := PrimFloat.eqb;
  FT_div := PrimFloat.div;
  FT_sqrt := PrimFloat.sqrt;
  FT_point_one := 0x1.999999999999ap-4%float;
  cos_degrees := float_cos_degrees;
  Point := Vector3 float;
  Vector := Vector3 float;
  Plane := float_plane;
  vector_convert := λ p, p;
  normal_vector_newell_3 := float_newell;
  new_Plane := λ p n, mkPlane n (- float_dot n p)%float;
  default_Plane := mkPlane (mkVector3 0 0 0)%float 0%float;
  has_on_positive_side := λ h p,
    (0 <? float_dot (plane_normal h) p + plane_d h)%float;
  orthogonal_vector := plane_normal;
  scalar_product := float_dot;
  Vector_div := λ u s, mkVector3 (v_x u / s)%float (v_y u / s)%float (v_z u / s)%float;
|}.

(** Meshes to run the function on. *)
Definition float_polygon (l : list (float * float * float)) : Polygon (Vector3 float) :=
  mkPolygon false (map (λ '(x, y, z), mkVector3 x y z) l).

Definition float_mesh (faces : list (list (float * float * float)))
  : PolySet (Vector3 float) :=
  mkPolySet (map float_polygon faces) 3 None.

(** The tetrahedron on the origin and the three unit points, its faces
    counter-clockwise seen from outside. *)
Definition tetrahedron : PolySet (Vector3 float) :=
  float_mesh
    [ [(0, 0, 0); (0, 1, 0); (1, 0, 0)];
      [(0, 0, 0); (1, 0, 0); (0, 0, 1)];
      [(0, 0, 0); (0, 0, 1); (0, 1, 0)];
      [(1, 0, 0); (0, 1, 0); (0, 0, 1)] ]%float.


(** The same tetrahedron behind a face of two vertices, which the first
    two loops pass over and the traversal starts from. *)
Definition tetrahedron_behind_digon : PolySet (Vector3 float) :=
  float_mesh
    [ [(0, 0, 0); (0, 1, 0)];
      [(0, 0, 0); (0, 1, 0); (1, 0, 0)];
      [(0, 0, 0); (1, 0, 0); (0, 0, 1)];
      [(0, 0, 0); (0, 0, 1); (0, 1, 0)];
      [(1, 0, 0); (0, 1, 0); (0, 0, 1)] ]%float.

(** ** Further inputs for [createNefPolyhedronFromPolySet] *)

(** A boundary constructor whose answers are fixed in advance: the flag
    of [createPolyhedronFromPolySet], what [is_closed] and [is_valid] say,
    and what the convex hull yields.  The mesh is convex when its hint
    says so. *)
Definition scripted (err closed valid : bool) (hull : throwing (PolySet nat))
  : BoundaryBuilder nat := {|
  CGAL_Polyhedron := PolySet nat;
  CGAL_Nef_polyhedron3 := PolySet nat;
  quantizeVertices := λ ps, (ps, remove_dups (concat (vertices <$> polygons ps)));
  tessellate_faces := λ inp out,
    mkPolySet (polygons out ++ concat (fan <$> polygons inp))
      (getDimension out) (convexValue out);
  is_convex := λ ps, bool_decide (convexValue ps = Some true);
  convex_hull_3 := λ points, hull;
  createPolyhedronFromPolySet := λ ps, Value (err, ps);
  is_closed := λ _, closed;
  is_valid := λ _, valid;
  new_Nef_polyhedron3 := Value;
|}.

(** A boundary constructor whose [createPolyhedronFromPolySet] throws
    [e] on every mesh. *)
Definition rejecting (e : exception) : BoundaryBuilder nat := {|
  CGAL_Polyhedron := PolySet nat;
  CGAL_Nef_polyhedron3 := PolySet nat;
  quantizeVertices := λ ps, (ps, remove_dups (concat (vertices <$> polygons ps)));
  tessellate_faces := λ inp out,
    mkPolySet (polygons out ++ concat (fan <$> polygons inp))
      (getDimension out) (convexValue out);
  is_convex := λ ps, bool_decide (convexValue ps = Some true);
  convex_hull_3 := λ points, Value (mkPolySet [] 3 (Some true));
  createPolyhedronFromPolySet := λ ps, Raise e;
  is_closed := λ _, true;
  is_valid := λ _, true;
  new_Nef_polyhedron3 := Value;
|}.

Definition precondition_message : string :=
  "CGAL ERROR: precondition violation!".

(** A square and a triangle over it, flagged convex. *)
Definition convex_patch : PolySet nat :=
  mkPolySet [mkPolygon false [0; 1; 2; 3]; mkPolygon false [3; 2; 4]] 3 (Some true).

(** A single triangle of a mesh of dimension two. *)
Definition flat_triangle : PolySet nat :=
  mkPolySet [mkPolygon false [0; 1; 2]] 2 None.

(** ** More on [createPolySetFromNefPolyhedron3] *)

(** Step 1 of the function: the vertex index, the face groups and their
    marks. *)
Definition indexed_mesh `{NefKernel} (N : Nef_polyhedron_3)
  : Reindexer Vector3f * list (list IndexedFace) * list bool :=
  fold_left index_halffacet N (mkReindexer [], [], []).

(** No index of the face is followed by itself. *)
Definition adjacent_distinct (face : list nat) : Prop :=
  ∀ i a b, face !! i = Some a → face !! S i = Some b → a ≠ b.

(** The same around the loop, where the first index follows the last. *)
Definition cyclically_distinct (face : list nat) : Prop :=
  ∀ i a b, face !! i = Some a → face !! (S i mod length face) = Some b → a ≠ b.

(** The points on the boundary cycles of the half-facets the function
    does not skip. *)
Definition boundary_points `{NefKernel} (N : Nef_polyhedron_3) : list Point_3 :=
  hfaceti ← N;
  if incident_volume_mark hfaceti then [] else concat (facet_cycles hfaceti).

(** A half-facet the function gets no face from: it lies on a marked
    volume, or none of its cycles has three points. *)
Definition skipped `{NefKernel} (hfaceti : Halffacet) : Prop :=
  incident_volume_mark hfaceti = true ∨
  Forall (λ cycle, length cycle < 3) (facet_cycles hfaceti).

(** The array holds each vertex once, and only narrowed points of
    [points]. *)
Definition array_of `{NefKernel} (points : list Point_3)
    (allVertices : Reindexer Vector3f) : Prop :=
  NoDup (getArray allVertices) ∧
  ∀ v, v ∈ getArray allVertices → ∃ p, p ∈ points ∧ v = vector_convert_3f p.

(** A face as the tessellator gets it. *)
Definition proper_loop (size : nat) (face : IndexedFace) : Prop :=
  3 ≤ length face ∧ indexes_below size face ∧ cyclically_distinct face.

(** A square one of whose edges has a point in the middle that the
    narrowing merges with a corner, on the outside volume. *)
Definition merging_square : @Nef_polyhedron_3 integer_points :=
  [ mkHalffacet integer_points false false
      [[point 0 0 0; point 0 0 0; point 1 0 0; point 1 1 0; point 0 1 0; point 0 0 0]];
    mkHalffacet integer_points false true
      [[point 0 0 0; point 0 1 0; point 1 1 0; point 1 0 0]];
    mkHalffacet integer_points false false
      [[point 5 5 5; point 6 5 5]] ].

(** A tessellator that answers every face with a triangle on the
    indices 0, 1 and 7, whatever the size of the vertex array. *)
Definition careless : @GeometryUtils integer_points := {|
  tessellatePolygonWithHoles := λ verts faces, (false, [mkVector3 0 1 7]%Z);
  findUnconnectedEdges_polygons := λ polygons, 0;
  findUnconnectedEdges_triangles := λ triangles, 0;
|}.

(** ** The ordering behind the edge map *)

(** Exactly one of three. *)
Definition one_of (x y z : bool) : bool :=
  match x, y, z with
  | true, false, false | false, true, false | false, false, true => true
  | _, _, _ => false
  end.

(** [lt] and [eqv] order the elements that satisfy [good]: of [a < b],
    [a ~ b] and [b < a] exactly one holds, and both relations are
    transitive. *)
Definition weak_order {T} (good : T → Prop) (lt eqv : T → T → bool) : Prop :=
  (∀ a b, good a → good b → one_of (lt a b) (eqv a b) (lt b a) = true) ∧
  (∀ a b c, good a → good b → good c →
     eqv a b = true → eqv b c = true → eqv a c = true) ∧
  (∀ a b c, good a → good b → good c →
     lt a b = true → lt b c = true → lt a c = true).

(** The lexicographic order of pairs and its equivalence. *)
Definition lex_lt {T U} (lt1 eqv1 : T → T → bool) (lt2 : U → U → bool)
    (a b : T * U) : bool :=
  lt1 a.1 b.1 || (eqv1 a.1 b.1 && lt2 a.2 b.2).

Definition lex_eqv {T U} (eqv1 : T → T → bool) (eqv2 : U → U → bool)
    (a b : T * U) : bool :=
  eqv1 a.1 b.1 && eqv2 a.2 b.2.

(** The doubles of [l] are totally ordered by [<] and [==], as doubles
    are among which there is no NaN. *)
Definition totally_ordered `{Kernel} (l : list FT) : bool :=
  forallb (λ a,
    forallb (λ b,
      one_of (FT_lt a b) (FT_eq a b) (FT_lt b a) &&
      forallb (λ c,
        implb (FT_eq a b && FT_eq b c) (FT_eq a c) &&
        implb (FT_lt a b && FT_lt b c) (FT_lt a c)) l) l) l.

(** Vectors that agree in every coordinate under [==]. *)
Definition Vector3d_eqv `{Kernel} (a b : Vector3d) : bool :=
  FT_eq (v_x a) (v_x b) && FT_eq (v_y a) (v_y b) && FT_eq (v_z a) (v_z b).

(** The coordinates of the vertices of an edge lie in [l]. *)
Definition vector_within `{Kernel} (l : list FT) (a : Vector3d) : Prop :=
  v_x a ∈ l ∧ v_y a ∈ l ∧ v_z a ∈ l.

Definition edge_within `{Kernel} (l : list FT) (e : Edge) : Prop :=
  vector_within l e.1 ∧ vector_within l e.2.

(** The coordinates of the vertices of a mesh. *)
Definition mesh_coordinates `{Kernel} (ps : PolySet Vector3d) : list FT :=
  poly ← polygons ps; v ← vertices poly; coefficients v.

(** A pyramid over the unit square. *)
Definition pyramid : PolySet (Vector3 float) :=
  float_mesh
    [ [(0, 0, 0); (0, 1, 0); (1, 1, 0); (1, 0, 0)];
      [(0, 0, 0); (1, 0, 0); (0.5, 0.5, 1)];
      [(1, 0, 0); (1, 1, 0); (0.5, 0.5, 1)];
      [(1, 1, 0); (0, 1, 0); (0.5, 0.5, 1)];
      [(0, 1, 0); (0, 0, 0); (0.5, 0.5, 1)] ]%float.

(** A tetrahedron with a dent: the base of the tetrahedron on [A], [B],
    [C] and [T] is pushed in to the point [D] inside it, so that the three
    faces on [D] meet in edges at which the solid is not convex.  The face
    on [B], [A] and [D] lies in the plane [x = -1] and faces [C]; [u] is
    the scale of the other two directions. *)
Definition dented (u : float) : PolySet (Vector3 float) :=
  let A := (-1, 3 * u, 0)%float in
  let B := (-1, 0, 0)%float in
  let C := (2, 0, 0)%float in
  let D := (-1, 0, 3 * u)%float in
  let T := (-2, - u, 6 * u)%float in
  float_mesh
    [ [A; B; T]; [B; C; T]; [C; A; T];
      [B; A; D]; [C; B; D]; [A; C; D] ].

(** *** Doubles without NaN *)

(** The place of a double that is not NaN in the order of the doubles:
    its class (the infinities, the negative and the positive numbers,
    zero), then its exponent and its mantissa. *)
Definition spec_float_key (f : spec_float) : Z * Z * Z :=
  match f with
  | S754_zero _ => (0, 0, 0)
  | S754_infinity s => (if s then -2 else 2, 0, 0)
  | S754_nan => (0, 0, 0)
  | S754_finite s m e => if s then (-1, - e, - Z.pos m) else (1, e, Z.pos m)
  end%Z.

Definition lex3_compare (a b : Z * Z * Z) : comparison :=
  match (a.1.1 ?= b.1.1)%Z with
  | Eq => match (a.1.2 ?= b.1.2)%Z with
          | Eq => (a.2 ?= b.2)%Z
          | c => c
          end
  | c => c
  end.

(** No coordinate of the edge is NaN. *)
Definition edge_without_nan (e : Vector3 float * Vector3 float) : Prop :=
  Forall (λ x, PrimFloat.is_nan x = false) (coefficients e.1 ++ coefficients e.2).

(** No coordinate of the mesh is NaN. *)
Definition without_nan (ps : PolySet (Vector3 float)) : Prop :=
  Forall (λ poly,
    Forall (λ v, Forall (λ x, PrimFloat.is_nan x = false) (coefficients v))
      (vertices poly))
    (polygons ps).

(** What the test [cos_angle < angle_threshold] lets through on doubles:
    a cosine that is at least the cosine of 0.1 degrees, and NaN, which
    is below nothing. *)
Definition at_least_threshold_or_nan (c : float) : Prop :=
  (@cos_degrees Simple_cartesian_double FT_point_one <=? c)%float = true ∨
  PrimFloat.is_nan c = true.

(** ** [boundingBox] *)

(** The volumetric structure over an exact kernel as [boundingBox] reads
    it, and [CGAL::bounding_box]. *)
Class ExactNef `{ExactKernel} : Type := {
  Exact_Nef_polyhedron_3 : Type;
  (* CGAL_forall_vertices(vi, N) ... vi->point() *)
  vertex_points : Exact_Nef_polyhedron_3 → list (Vector3 NT);
  bounding_box : list (Vector3 NT) → Iso_cuboid_3;
}.

Definition boundingBox `{ExactNef} (N : Exact_Nef_polyhedron_3) : Iso_cuboid_3 :=
  let zero := NT_of_double 0%Q in
  let result := mkIso_cuboid_3 _ (mkVector3 zero zero zero) (mkVector3 zero zero zero) in
  let points := vertex_points N in
  if negb (length points =? 0) then bounding_box points else result.

(** Structures given by their vertices, over the rationals; the box of
    a list of points spans their least and greatest coordinates. *)
Definition span (l : list Q) : Q * Q :=
  match l with
  | [] => (0, 0)%Q
  | x :: l =>
      fold_left (λ '(lo, hi) y,
                   (if Qle_bool lo y then lo else y, if Qle_bool hi y then y else hi))
        l (x, x)
  end.

#[global] Instance rational_points : @ExactNef Gmpq_kernel := {|
  Exact_Nef_polyhedron_3 := list (Vector3 Q);
  vertex_points := λ N, N;
  bounding_box := λ points,
    let x := span (v_x <$> points) in
    let y := span (v_y <$> points) in
    let z := span (v_z <$> points) in
    mkIso_cuboid_3 Gmpq_kernel (mkVector3 x.1 y.1 z.1) (mkVector3 x.2 y.2 z.2);
|}.

(** ** Geometries *)

(** An object of a class derived from [Geometry]: the convexity the base
    class keeps, next to the members of the class. *)
Record object (A : Type) : Type := mkObject { getConvexity : nat; self : A }.
Arguments mkObject {A} getConvexity self.
Arguments getConvexity {A} _.
Arguments self {A} _.

Definition setConvexity {A} (convexity : nat) (o : object A) : object A :=
  mkObject convexity (self o).

(** What the functions of this part consume of the classes of geometry,
    none of which is defined in the two files: the classes themselves,
    the convexity a new object starts with, the half-facets
    [CGAL_forall_halffacets] visits, [isEmpty] and [getDimension] of
    [CGAL_Nef_polyhedron], and the conversions between the classes. *)
Class Geometries `{G : GeometryUtils} `{B : BoundaryBuilder Vector3f} : Type := {
  AbstractNode : Type;
  Polygon2d : Type;
  CGALHybridPolyhedron : Type;
  ManifoldGeometry : Type;
  ENABLE_MANIFOLD : bool;
  default_convexity : nat;
  halffacets : CGAL_Nef_polyhedron3 → Nef_polyhedron_3;
  Nef_isEmpty : object CGAL_Nef_polyhedron → bool;
  Nef_getDimension : object CGAL_Nef_polyhedron → nat;
  (* polygon.tessellate() *)
  Polygon2d_tessellate : Polygon2d → object (PolySet Vector3f);
  (* hybrid->toPolySet(), mani->toPolySet(): shared pointers *)
  Hybrid_toPolySet : CGALHybridPolyhedron → option (object (PolySet Vector3f));
  Manifold_toPolySet : ManifoldGeometry → option (object (PolySet Vector3f));
  createNefPolyhedronFromHybrid :
    CGALHybridPolyhedron → option (object CGAL_Nef_polyhedron);
}.

(** A geometry by its dynamic class; [dynamic_pointer_cast] succeeds on
    the constructor of the class it names.  A [GeometryList] holds pairs
    of a node and a shared pointer to a geometry. *)
#[warnings="-register-all"]
Inductive Geometry `{Geometries} : Type :=
| a_GeometryList (children : list (AbstractNode * option Geometry))
| a_PolySet (ps : object (PolySet Vector3f))
| a_Polygon2d (poly2d : Polygon2d)
| a_Nef (nef : object CGAL_Nef_polyhedron)
| a_Hybrid (hybrid : CGALHybridPolyhedron)
| a_Manifold (mani : ManifoldGeometry)
| another.

(** What ends a call: a fault of the function or of one it calls, or the
    dereference of a null pointer. *)
Inductive failure : Type :=
| Faulted (f : fault)
| NullDereference.

Inductive result (R : Type) : Type :=
| Done (r : R)
| Failed (e : failure).
Arguments Done {R} r.
Arguments Failed {R} e.

(** A statement of a body that may also dereference a pointer. *)
Inductive flow (R A : Type) : Type :=
| Continue (a : A)
| Returned (r : R)
| Stopped (e : failure).
Arguments Continue {R A} a.
Arguments Returned {R A} r.
Arguments Stopped {R A} e.

#[global] Instance flow_bind {R} : MBind (flow R) := λ A B k m,
  match m with
  | Continue a => k a
  | Returned r => Returned r
  | Stopped e => Stopped e
  end.

Definition end_of_body {R} (body : flow R R) : result R :=
  match body with
  | Continue r | Returned r => Done r
  | Stopped e => Failed e
  end.

(** A call inside a body. *)
Definition call {R A} (r : result A) : flow R A :=
  match r with
  | Done a => Continue a
  | Failed e => Stopped e
  end.

Definition flow_assert {R} (b : bool) : flow R unit :=
  if b then Continue tt else Stopped (Faulted AssertionFailed).

(** [*p] on a shared pointer. *)
Definition deref {R A} (p : option A) : flow R A :=
  match p with
  | Some a => Continue a
  | None => Stopped NullDereference
  end.

(** [for (const auto& a : l) body] in such a body. *)
Fixpoint flow_for_each {R A S} (l : list A) (body : A → S → flow R S) (s : S)
  : flow R S :=
  match l with
  | [] => Continue s
  | a :: l' => s' ← body a s; flow_for_each l' body s'
  end.

(** [v.empty()] *)
Definition empty {A} (v : list A) : bool :=
  match v with [] => true | _ => false end.

(** ** [getGeometryAsPolySet] *)

Definition nef_to_polyset_failed : log_entry :=
  LOG Error "Nef->PolySet failed." [].

(** The function returns a shared pointer; the lines it logs are returned
    next to it. *)
Definition getGeometryAsPolySet `{Geometries} (geom : option Geometry)
  : result (option (object (PolySet Vector3f)) * list log_entry) :=
  end_of_body (
    match geom with
    | Some (a_PolySet ps) => Returned (Some ps, [])
    | Some (a_Nef N) =>
        let ps := mkObject default_convexity (new_PolySet 3 None) in
        let ps := setConvexity (getConvexity N) ps in
        '(ps, log) ←
          (if negb (Nef_isEmpty N) then
             N3 ← deref (p3 (self N));
             match createPolySetFromNefPolyhedron3 (halffacets N3) (self ps) with
             | Ok (err, mesh, log) =>
                 Continue (mkObject (getConvexity ps) mesh,
                           if err then log ++ [nef_to_polyset_failed] else log)
             | Crash f => Stopped (Faulted f)
             end
           else Continue (ps, []));
        Returned (Some ps, log)
    | Some (a_Hybrid hybrid) => Returned (Hybrid_toPolySet hybrid, [])
    | Some (a_Manifold mani) =>
        if ENABLE_MANIFOLD then Returned (Manifold_toPolySet mani, [])
        else Returned (None, [])
    | _ => Returned (None, [])
    end).

(** ** [getNefPolyhedronFromGeometry] *)

(** [shared_ptr<CGAL_Nef_polyhedron>(createNefPolyhedronFromPolySet(ps))]:
    the new object has the convexity every geometry starts with. *)
Definition shared_Nef `{Geometries}
    (r : list (event Vector3f) * outcome CGAL_Nef_polyhedron)
  : list (event Vector3f) * result (option (object CGAL_Nef_polyhedron)) :=
  match r with
  | (evs, Ok N) => (evs, Done (Some (mkObject default_convexity N)))
  | (evs, Crash f) => (evs, Failed (Faulted f))
  end.

Definition createNefPolyhedronFromPolygon2d `{Geometries} (polygon : Polygon2d)
  : list (event Vector3f) * outcome CGAL_Nef_polyhedron :=
  let ps := Polygon2d_tessellate polygon in
  createNefPolyhedronFromPolySet (self ps).

Definition getNefPolyhedronFromGeometry `{Geometries} (geom : option Geometry)
  : list (event Vector3f) * result (option (object CGAL_Nef_polyhedron)) :=
  match geom with
  | Some (a_PolySet ps) => shared_Nef (createNefPolyhedronFromPolySet (self ps))
  | Some (a_Hybrid poly) => ([], Done (createNefPolyhedronFromHybrid poly))
  | Some (a_Polygon2d poly2d) => shared_Nef (createNefPolyhedronFromPolygon2d poly2d)
  | Some (a_Nef nef) => ([], Done (Some nef))
  | Some (a_Manifold mani) =>
      if ENABLE_MANIFOLD then
        match Manifold_toPolySet mani with
        | Some ps => shared_Nef (createNefPolyhedronFromPolySet (self ps))
        | None => ([], Failed NullDereference)
        end
      else ([], Done None)
  | _ => ([], Done None)
  end.

(** ** [CGALRenderer] *)

(** The polyhedrons of OpenGL the renderer draws volumetric structures
    with: [new CGAL_OGL_Polyhedron(colorscheme)] or, when [vbo] holds,
    [new CGAL_OGL_VBOPolyhedron(colorscheme)], filled by
    [convert_to_OGLPolyhedron] and [init]. *)
Class Rendering `{Geometries} : Type := {
  ColorScheme : Type;
  CGAL_OGL_Polyhedron : Type;
  new_OGL_Polyhedron : bool → ColorScheme → CGAL_Nef_polyhedron3 → CGAL_OGL_Polyhedron;
}.

(** The members the functions below read and write. *)
Record CGALRenderer `{Rendering} : Type := mkCGALRenderer {
  polysets : list (option (object (PolySet Vector3f)));
  nefPolyhedrons : list (object CGAL_Nef_polyhedron);
  polyhedrons : list CGAL_OGL_Polyhedron;
  colorscheme : ColorScheme;
  last_render_state : bool;
}.

Definition push_polyset `{Rendering} (ps : option (object (PolySet Vector3f)))
    (this : CGALRenderer) : CGALRenderer :=
  mkCGALRenderer _ _ _ _ _ (polysets this ++ [ps]) (nefPolyhedrons this) (polyhedrons this)
    (colorscheme this) (last_render_state this).

Definition set_polyhedrons `{Rendering} (l : list CGAL_OGL_Polyhedron)
    (this : CGALRenderer) : CGALRenderer :=
  mkCGALRenderer _ _ _ _ _ (polysets this) (nefPolyhedrons this) l
    (colorscheme this) (last_render_state this).

(** [createPolyhedrons]; [vxo] is what
    [Feature::ExperimentalVxORenderers.is_enabled()] answers.  The two
    branches differ in the class of the polyhedron only. *)
Definition createPolyhedrons `{Rendering} (vxo : bool) (this : CGALRenderer)
  : result CGALRenderer :=
  end_of_body (
    let this := set_polyhedrons [] this in
    flow_for_each (nefPolyhedrons this) (λ N this,
      N3 ← deref (p3 (self N));
      let p := new_OGL_Polyhedron vxo (colorscheme this) N3 in
      Continue (set_polyhedrons (polyhedrons this ++ [p]) this))
      this).

Definition nef_to_polyset_failed_renderer : log_entry :=
  LOG Error "Nef->PolySet failed" [].

(** The branch of [addGeometry] for a mesh. *)
Definition add_PolySet `{Rendering} {R} (ps : object (PolySet Vector3f))
    (st : CGALRenderer * list log_entry) : flow R (CGALRenderer * list log_entry) :=
  _ ← flow_assert (getDimension (self ps) =? 3);
  (* We need to tessellate here, in case the generated PolySet contains
     concave polygons *)
  let ps_tri := mkObject default_convexity (new_PolySet 3 (convexValue (self ps))) in
  let ps_tri := setConvexity (getConvexity ps) ps_tri in
  let ps_tri := mkObject (getConvexity ps_tri)
                  (tessellate_faces (self ps) (self ps_tri)) in
  Continue (push_polyset (Some ps_tri) st.1, st.2).

(** The branch for a volumetric structure; on an error of the conversion
    the function logs it and returns. *)
Definition add_Nef `{Rendering} (new_N : object CGAL_Nef_polyhedron)
    (st : CGALRenderer * list log_entry)
  : flow (CGALRenderer * list log_entry) (CGALRenderer * list log_entry) :=
  _ ← flow_assert (Nef_getDimension new_N =? 3);
  if negb (Nef_isEmpty new_N) then
    let ps := mkObject default_convexity (new_PolySet 3 None) in
    N3 ← deref (p3 (self new_N));
    match createPolySetFromNefPolyhedron3 (halffacets N3) (self ps) with
    | Ok (err, mesh, log) =>
        let ps := mkObject (getConvexity ps) mesh in
        if (err : bool) then
          Returned (st.1, st.2 ++ log ++ [nef_to_polyset_failed_renderer])
        else Continue (push_polyset (Some ps) st.1, st.2 ++ log)
    | Crash f => Stopped (Faulted f)
    end
  else Continue st.

(** The last statement of [addGeometry]. *)
Definition create_missing_polyhedrons `{Rendering} {R} (vxo : bool)
    (st : CGALRenderer * list log_entry) : flow R (CGALRenderer * list log_entry) :=
  if negb (empty (nefPolyhedrons st.1)) && empty (polyhedrons st.1) then
    this ← call (createPolyhedrons vxo st.1);
    Continue (this, st.2)
  else Continue st.

(** The loop over the children of a list, [add] being [addGeometry]: no
    cast succeeds on a null pointer, which ends in [assert(false)]. *)
Definition add_children `{Rendering}
    (add : Geometry → CGALRenderer * list log_entry →
           result (CGALRenderer * list log_entry))
  : list (AbstractNode * option Geometry) → CGALRenderer * list log_entry →
    flow (CGALRenderer * list log_entry) (CGALRenderer * list log_entry) :=
  fix items l st :=
    match l with
    | [] => Continue st
    | (_, Some item) :: l => st ← call (add item st); items l st
    | (_, None) :: l => Stopped (Faulted AssertionFailed)
    end.

(** [addGeometry] on a pointer that is not null; the lines logged so far
    travel with the renderer. *)
Fixpoint addGeometry `{Rendering} (vxo : bool) (geom : Geometry)
    (st : CGALRenderer * list log_entry) {struct geom}
  : result (CGALRenderer * list log_entry) :=
  end_of_body (
    st ←
      match geom with
      | a_GeometryList children => add_children (addGeometry vxo) children st
      | a_PolySet ps => add_PolySet ps st
      | a_Polygon2d poly =>
          Continue (push_polyset (Some (Polygon2d_tessellate poly)) st.1, st.2)
      | a_Nef new_N => add_Nef new_N st
      | a_Hybrid hybrid =>
          Continue (push_polyset (Hybrid_toPolySet hybrid) st.1, st.2)
      | a_Manifold mani =>
          if ENABLE_MANIFOLD
          then Continue (push_polyset (Manifold_toPolySet mani) st.1, st.2)
          else Stopped (Faulted AssertionFailed)
      | another => Stopped (Faulted AssertionFailed)
      end;
    create_missing_polyhedrons vxo st).

(** [addGeometry] on a shared pointer. *)
Definition addGeometry_ptr `{Rendering} (vxo : bool) (geom : option Geometry)
    (st : CGALRenderer * list log_entry)
  : result (CGALRenderer * list log_entry) :=
  match geom with
  | Some geom => addGeometry vxo geom st
  | None => Failed (Faulted AssertionFailed)
  end.

(** The constructor, on the members as the class declares them: empty
    vectors, and the color scheme of the base class. *)
Definition new_CGALRenderer `{Rendering} (vxo : bool) (scheme : ColorScheme)
    (geom : option Geometry) : result (CGALRenderer * list log_entry) :=
  addGeometry_ptr vxo geom (mkCGALRenderer _ _ _ _ _ [] [] [] scheme vxo, []).

(** The two reports of [createPolySetFromNefPolyhedron3]. *)
Definition manifold_report (l : log_entry) : Prop :=
  log_group l = Error ∧
  (log_format l = "Non-manifold mesh encountered: %1$d unconnected edges" ∨
   log_format l = "Non-manifold mesh created: %1$d unconnected edges").

(** *** Geometries to run the functions on *)

(** A boundary constructor over integer points that keeps the mesh: the
    polyhedron is the mesh, and the volumetric structure has one
    half-facet per polygon, marked as the polygon is and lying on the
    unmarked volume. *)
Definition facet_of (p : Polygon (Vector3 Z)) : @Halffacet integer_points :=
  mkHalffacet integer_points (marked p) false [vertices p].

Definition mesh_builder : BoundaryBuilder (Vector3 Z) := {|
  CGAL_Polyhedron := PolySet (Vector3 Z);
  CGAL_Nef_polyhedron3 := list (@Halffacet integer_points);
  quantizeVertices := λ ps, (ps, remove_dups (concat (vertices <$> polygons ps)));
  tessellate_faces := λ inp out,
    mkPolySet (polygons out ++ polygons inp) (getDimension out) (convexValue out);
  is_convex := λ ps, bool_decide (convexValue ps = Some true);
  convex_hull_3 := λ points, Value (mkPolySet [] 3 (Some true));
  createPolyhedronFromPolySet := λ ps, Value (false, ps);
  is_closed := λ _, true;
  is_valid := λ _, true;
  new_Nef_polyhedron3 := λ P, Value (facet_of <$> polygons P);
|}.

(** Geometries over these: a flat polygon is its list of corners, the
    other classes are meshes; a volumetric structure is empty when it has
    no half-facet. *)
Definition mesh_geometries : @Geometries integer_points triangles_pass mesh_builder :=
  @Build_Geometries integer_points triangles_pass mesh_builder
    unit                                  (* AbstractNode *)
    (list (Z * Z))                        (* Polygon2d *)
    (PolySet (Vector3 Z))                 (* CGALHybridPolyhedron *)
    (PolySet (Vector3 Z))                 (* ManifoldGeometry *)
    true                                  (* ENABLE_MANIFOLD *)
    1                                     (* default_convexity *)
    (λ N3, N3)                            (* halffacets *)
    (λ N, match @p3 _ mesh_builder (self N) with
          | Some N3 => empty N3
          | None => true
          end)                            (* isEmpty *)
    (λ _, 3)                              (* getDimension *)
    (λ poly,
       mkObject 1
         (mkPolySet [mkPolygon false ((λ '(x, y), point x y 0) <$> poly)] 2 None))
    (λ h, Some (mkObject 1 h))
    (λ m, Some (mkObject 1 m))
    (λ h, Some (mkObject 1 (@mkNef _ mesh_builder (Some (facet_of <$> polygons h))))).

Definition mesh_rendering : @Rendering _ _ _ mesh_geometries :=
  @Build_Rendering _ _ _ mesh_geometries
    unit (bool * list (@Halffacet integer_points))%type (λ vbo _ N3, (vbo, N3)).

(** Two triangles back to back, as a volumetric structure of convexity
    five. *)
Definition two_triangles : object (@CGAL_Nef_polyhedron _ mesh_builder) :=
  mkObject 5
    (@mkNef _ mesh_builder
       (Some [ mkHalffacet integer_points false false
                 [[point 0 0 0; point 1 0 0; point 0 1 0]];
               mkHalffacet integer_points true false
                 [[point 0 0 0; point 0 1 0; point 1 0 0]] ])).

(** *** What the renderer draws *)

(** The mesh a volumetric structure is drawn as: what the conversion
    puts into a new mesh of dimension 3. *)
Definition converted `{Geometries} (N : object CGAL_Nef_polyhedron)
  : list (option (object (PolySet Vector3f))) :=
  if Nef_isEmpty N then []
  else match p3 (self N) with
       | Some N3 =>
           match createPolySetFromNefPolyhedron3 (halffacets N3) (new_PolySet 3 None) with
           | Ok (_, mesh, _) => [Some (mkObject default_convexity mesh)]
           | Crash _ => []
           end
       | None => []
       end.

(** The meshes of a geometry, leaf by leaf in the order of the lists: a
    mesh is tessellated into a new one, a flat polygon and the hybrid and
    manifold geometries give their own mesh. *)
Definition rendered_children `{Geometries}
    (rendered : Geometry → list (option (object (PolySet Vector3f))))
  : list (AbstractNode * option Geometry) → list (option (object (PolySet Vector3f))) :=
  fix items l :=
    match l with
    | [] => []
    | (_, Some item) :: l => rendered item ++ items l
    | (_, None) :: l => items l
    end.

Fixpoint rendered `{Geometries} (geom : Geometry)
  : list (option (object (PolySet Vector3f))) :=
  match geom with
  | a_GeometryList children => rendered_children rendered children
  | a_PolySet ps =>
      [Some (mkObject (getConvexity ps)
               (tessellate_faces (self ps) (new_PolySet 3 (convexValue (self ps)))))]
  | a_Polygon2d poly => [Some (Polygon2d_tessellate poly)]
  | a_Nef N => converted N
  | a_Hybrid hybrid => [Hybrid_toPolySet hybrid]
  | a_Manifold mani => [Manifold_toPolySet mani]
  | another => []
  end.

(** What a call of [addGeometry] leaves of the renderer and the log: the
    meshes [out] more, the same structures and color scheme, the same
    polyhedrons when there is no structure, and more reports in the log. *)
Definition grows_by `{Rendering} (out : list (option (object (PolySet Vector3f))))
    (st st' : CGALRenderer * list log_entry) : Prop :=
  polysets st'.1 = polysets st.1 ++ out ∧
  nefPolyhedrons st'.1 = nefPolyhedrons st.1 ∧
  colorscheme st'.1 = colorscheme st.1 ∧
  last_render_state st'.1 = last_render_state st.1 ∧
  (nefPolyhedrons st.1 = [] → polyhedrons st'.1 = polyhedrons st.1) ∧
  ∃ log, st'.2 = st.2 ++ log ∧ Forall manifold_report log.

(** A list in a list, with a mesh, an empty structure, a structure of
    two triangles and a flat polygon. *)
Definition scene : @Geometry _ _ _ mesh_geometries :=
  @a_GeometryList _ _ _ mesh_geometries
    [ (tt, Some (@a_GeometryList _ _ _ mesh_geometries
                   [ (tt, Some (@a_PolySet _ _ _ mesh_geometries
                                  (mkObject 2
                                     (mkPolySet
                                        [mkPolygon false
                                           [point 0 0 0; point 1 0 0; point 1 1 0; point 0 1 0]]
                                        3 None))));
                     (tt, Some (@a_Nef _ _ _ mesh_geometries
                                  (mkObject 1 (@mkNef _ mesh_builder None)))) ]));
      (tt, Some (@a_Nef _ _ _ mesh_geometries two_triangles));
      (tt, Some (@a_Polygon2d _ _ _ mesh_geometries [(0, 0); (1, 0); (0, 1)]%Z)) ].

(** *** The faces of step 1 by their vertices *)

(** The loop over the points of a cycle on the vertices themselves: a
    vertex equal to the one before it is dropped. *)
Definition without_repeats {A} `{EqDecision A} (l : list A) : list A :=
  fold_left (λ loop v, if decide (last loop = Some v) then loop else loop ++ [v]) l [].

(** A loop that ends on the vertex it starts from loses its end. *)
Definition open_loop {A} `{EqDecision A} (loop : list A) : list A :=
  if negb (empty loop) && bool_decide (head loop = last loop)
  then removelast loop else loop.

Definition narrowed_loop `{NefKernel} (cycle : list Point_3) : list Vector3f :=
  open_loop (without_repeats (vector_convert_3f <$> cycle)).

(** The loops of a half-facet that are left with three vertices or more;
    none for a half-facet on a marked volume. *)
Definition narrowed_loops `{NefKernel} (hfaceti : Halffacet) : list (list Vector3f) :=
  if incident_volume_mark hfaceti then []
  else List.filter (λ loop, 3 <=? length loop) (narrowed_loop <$> facet_cycles hfaceti).

(** The loops of the half-facets that have any. *)
Definition narrowed_groups `{NefKernel} (N : Nef_polyhedron_3)
  : list (list (list Vector3f)) :=
  List.filter (λ loops, negb (empty loops)) (narrowed_loops <$> N).

(** The face indexes the vertices of the loop. *)
Definition indexes `{NefKernel} (verts : list Vector3f) (face : IndexedFace)
    (loop : list Vector3f) : Prop :=
  Forall2 (λ idx v, verts !! idx = Some v) face loop.

(* ===================================================================== *)
(** * Part II: lemmas                                                     *)
(* ===================================================================== *)

(** ** Loops *)

Section for_each.
Context {R A S : Type}.
Implicit Types (body : A → S → step R S) (l : list A).

Lemma for_each_app l1 l2 body s :
  for_each (l1 ++ l2) body s = s' ← for_each l1 body s; for_each l2 body s'.
Proof.
  revert s. induction l1 as [|a l1 IH]; intros s; simpl; [done|].
  destruct (body a s); simpl; auto.
Qed.

(** A loop whose body keeps [P], indexed by the elements done, ends
    with [P] on the whole list, unless the body returned a value in [Q]
    or faulted in [F]. *)
Lemma for_each_cases (P : list A → S → Prop) (Q : R → Prop) (F : fault → Prop)
    l body s :
  P [] s →
  (∀ done a rest s, l = done ++ a :: rest → P done s →
     (∃ s', body a s = Next s' ∧ P (done ++ [a]) s') ∨
     (∃ r, body a s = Return r ∧ Q r) ∨
     (∃ f, body a s = Fault f ∧ F f)) →
  (∃ s', for_each l body s = Next s' ∧ P l s') ∨
  (∃ r, for_each l body s = Return r ∧ Q r) ∨
  (∃ f, for_each l body s = Fault f ∧ F f).
Proof.
  revert P s. induction l as [|a l IH]; intros P s H0 Hstep; simpl.
  - left. eauto.
  - destruct (Hstep [] a l s eq_refl H0) as [(s' & -> & HP)|[(r & -> & HQ)|(f & -> & HF)]];
      simpl; [|right; left; eauto|right; right; eauto].
    apply (IH (λ done, P (a :: done)) s' HP).
    intros done b rest s0 -> HP0.
    apply (Hstep (a :: done) b rest s0 eq_refl HP0).
Qed.
End for_each.

(** The same for a counting loop. *)
Lemma for_each_seq_cases {R S} (P : nat → S → Prop) (Q : R → Prop)
    (F : fault → Prop) n (body : nat → S → step R S) s :
  P 0 s →
  (∀ k s, k < n → P k s →
     (∃ s', body k s = Next s' ∧ P (Datatypes.S k) s') ∨
     (∃ r, body k s = Return r ∧ Q r) ∨
     (∃ f, body k s = Fault f ∧ F f)) →
  (∃ s', for_each (seq 0 n) body s = Next s' ∧ P n s') ∨
  (∃ r, for_each (seq 0 n) body s = Return r ∧ Q r) ∨
  (∃ f, for_each (seq 0 n) body s = Fault f ∧ F f).
Proof.
  intros H0 Hstep.
  destruct (for_each_cases (λ done, P (length done)) Q F (seq 0 n) body s H0)
    as [(s' & Hs & HP)|?]; [|left; rewrite length_seq in HP; eauto|by right].
  intros done a rest s0 Hl HP.
  assert (a = length done ∧ length done < n) as [-> Hlt].
  { assert (seq 0 n !! length done = Some a) as Hlk.
    { rewrite Hl. by rewrite list_lookup_middle. }
    apply lookup_seq in Hlk. lia. }
  rewrite length_app. simpl. rewrite Nat.add_1_r. by apply Hstep.
Qed.

(** ** [computeResizeTransform] *)


Lemma double_nonzero_true x : double_nonzero x = true ↔ ¬ (x == 0)%Q.
Proof.
  unfold double_nonzero. rewrite negb_true_iff, <- not_true_iff_false.
  by rewrite Qeq_bool_iff.
Qed.

Lemma double_nonzero_false x : double_nonzero x = false ↔ (x == 0)%Q.
Proof.
  unfold double_nonzero. rewrite negb_false_iff. apply Qeq_bool_iff.
Qed.

Lemma double_gt_true x y : double_gt x y = true ↔ (y < x)%Q.
Proof.
  unfold double_gt. rewrite negb_true_iff, <- not_true_iff_false, Qle_bool_iff.
  split; [apply Qnot_le_lt | apply Qlt_not_le].
Qed.

Lemma double_gt_false x y : double_gt x y = false ↔ (x <= y)%Q.
Proof.
  unfold double_gt. rewrite negb_false_iff. apply Qle_bool_iff.
Qed.

Lemma coefficients_lookup {A} (v : Vector3 A) i :
  i < 3 → is_Some (coefficients v !! i).
Proof. intros Hi. apply lookup_lt_is_Some. simpl. lia. Qed.

Lemma coeff_Next {R A} (v : Vector3 A) i a :
  coefficients v !! i = Some a → coeff (R:=R) v i = Next a.
Proof. unfold coeff, at_. by intros ->. Qed.

Lemma at_Next {R A} (l : list A) i a : l !! i = Some a → at_ (R:=R) l i = Next a.
Proof. unfold at_. by intros ->. Qed.

Section resize.
Context `{K : ExactKernel}.
#[local] Arguments coefficients : simpl never.
#[local] Arguments extents : simpl never.
Implicit Types (bb : Iso_cuboid_3) (newsize : Vector3 double)
  (autosize : Vector3 bool) (scale : list NT).

Lemma extent_extents bb i : extent bb i = extents bb !! i.
Proof. by destruct i as [|[|[|i]]]. Qed.

Lemma resize_init_eq {R} bb :
  resize_init (R:=R) bb =
  Next ([NT_of_double 1%Q; NT_of_double 1%Q; NT_of_double 1%Q], extents bb).
Proof. reflexivity. Qed.

Lemma resize_explicit_cases bb dimension newsize :
  dimension ≤ 3 →
  (∃ st, resize_explicit (extents bb) dimension newsize
           [NT_of_double 1%Q; NT_of_double 1%Q; NT_of_double 1%Q] = Next st ∧
         explicit_inv bb newsize dimension st ∧
         ¬ flat_axis bb newsize dimension) ∨
  (resize_explicit (extents bb) dimension newsize
     [NT_of_double 1%Q; NT_of_double 1%Q; NT_of_double 1%Q]
   = Return (Identity, [flat_object_warning]) ∧
   flat_axis bb newsize dimension).
Proof.
  intros Hdim. unfold resize_explicit.
  match goal with |- context [for_each _ ?b ?s] =>
    destruct (for_each_seq_cases
      (λ k st, k ≤ dimension ∧ explicit_inv bb newsize k st ∧ ¬ flat_axis bb newsize k)
      (λ r, r = (Identity, [flat_object_warning]) ∧ flat_axis bb newsize dimension)
      (λ _, False) dimension b s) as [(st & Hst & _ & Hinv & Hflat)|[(r & Hr & -> & Hflat)|(f & _ & [])]]
  end.
  - split; [lia|]. split.
    + repeat split; simpl; auto.
      * intros []; done.
      * intros; lia.
      * intros j Hj _. by destruct j as [|[|[|j]]]; [..|lia].
    + intros (i & ? & ? & ? & _). lia.
  - intros k [scale M] Hk (_ & (Hlen & HM & HMnz & Hreq & Hone) & Hnoflat).
    simpl in Hlen, HM, HMnz, Hreq, Hone.
    destruct (coefficients_lookup newsize k) as [nk Hnk]; [lia|].
    destruct (coefficients_lookup newsize M) as [nM HnM]; [lia|].
    assert (is_Some (extents bb !! k)) as [ek Hek].
    { apply lookup_lt_is_Some. simpl. lia. }
    rewrite (coeff_Next _ _ _ Hnk). simpl.
    destruct (double_nonzero nk) eqn:Hnz.
    + apply double_nonzero_true in Hnz.
      rewrite (at_Next _ _ _ Hek). simpl.
      destruct (NT_eqb ek (NT_of_double 0%Q)) eqn:Hflat; simpl.
      * right; left. eexists; split; [done|]. split; [done|].
        exists k, nk, ek. rewrite extent_extents. repeat split; auto; lia.
      * unfold divide. rewrite Hflat. simpl.
        rewrite (coeff_Next _ _ _ HnM). simpl.
        left. eexists; split; [done|]. split; [lia|]. split.
        -- repeat split; simpl.
           ++ by rewrite length_insert.
           ++ destruct (double_gt nk nM); lia.
           ++ intros HM'. destruct (double_gt nk nM) eqn:Hgt; [eauto|].
              apply HMnz, HM'.
           ++ intros j nj Hj Hnj Hnjz.
              destruct (decide (j = k)) as [->|Hjk].
              ** replace nj with nk in * by congruence.
                 exists ek. destruct (double_gt nk nM) eqn:Hgt.
                 --- exists nk. rewrite list_lookup_insert_eq by lia.
                     repeat split; auto. apply Qle_refl.
                 --- exists nM. rewrite list_lookup_insert_eq by lia.
                     repeat split; auto. by apply double_gt_false.
              ** destruct (Hreq j nj) as (ej & nM' & ? & ? & ? & HnM' & Hle);
                   [lia|done..|].
                 replace nM' with nM in * by congruence.
                 exists ej. destruct (double_gt nk nM) eqn:Hgt.
                 --- exists nk. rewrite list_lookup_insert_ne by done.
                     repeat split; auto.
                     apply double_gt_true in Hgt. lra.
                 --- exists nM. rewrite list_lookup_insert_ne by done.
                     repeat split; auto.
           ++ intros j Hj Hcase.
              assert (j ≠ k) as Hjk.
              { destruct Hcase as [?|(nj & Hnj & Hz)]; [lia|].
                intros ->. replace nj with nk in * by congruence. done. }
              rewrite list_lookup_insert_ne by done.
              apply Hone; [done|]. destruct Hcase; [left; lia|by right].
        -- intros (i & ni & ei & Hi & Hni & Hniz & Hei & Heiz).
           destruct (decide (i = k)) as [->|Hik].
           ++ rewrite extent_extents in Hei. congruence.
           ++ apply Hnoflat. exists i, ni, ei. repeat split; auto. lia.
    + apply double_nonzero_false in Hnz.
      left. eexists; split; [done|]. split; [lia|]. split.
      * repeat split; simpl; auto.
        -- lia.
        -- intros j nj Hj Hnj Hnjz.
           destruct (decide (j = k)) as [->|Hjk].
           ++ replace nj with nk in * by congruence. done.
           ++ apply Hreq; [lia|done..].
        -- intros j Hj Hcase. apply Hone; [done|].
           destruct (decide (j = k)) as [->|Hjk]; [left; lia|].
           destruct Hcase; [left; lia|by right].
      * intros (i & ni & ei & Hi & Hni & Hniz & Hei & Heiz).
        destruct (decide (i = k)) as [->|Hik].
        -- replace ni with nk in * by congruence. done.
        -- apply Hnoflat. exists i, ni, ei. repeat split; auto. lia.
  - left. eauto.
  - right. eauto.
Qed.
End resize.

Section resize_cases.
Context `{K : ExactKernel}.
#[local] Arguments coefficients : simpl never.
#[local] Arguments extents : simpl never.
Implicit Types (bb : Iso_cuboid_3) (newsize : Vector3 double)
  (autosize : Vector3 bool) (scale : list NT).

(** The third loop never leaves the vectors when the dimension is at
    most three; it writes [autoscale] to the autosized axes only. *)
Lemma resize_auto_spec {R} dimension newsize autosize autoscale scale :
  dimension ≤ 3 → length scale = 3 →
  ∃ scale', resize_auto (R:=R) dimension newsize autosize autoscale scale = Next scale' ∧
    length scale' = 3 ∧
    ∀ j, (autosized newsize autosize dimension j → scale' !! j = Some autoscale) ∧
         (¬ autosized newsize autosize dimension j → scale' !! j = scale !! j).
Proof.
  intros Hdim Hlen. unfold resize_auto.
  match goal with |- context [for_each _ ?b ?s] =>
    destruct (for_each_seq_cases (R:=R)
      (λ k scale', length scale' = 3 ∧
         ∀ j, (autosized newsize autosize k j → scale' !! j = Some autoscale) ∧
              (¬ autosized newsize autosize k j → scale' !! j = scale !! j))
      (λ _, False) (λ _, False) dimension b s)
      as [(st & Hst & Hl & Hinv)|[(r & _ & [])|(f & _ & [])]]
  end.
  - split; [done|]. intros j. split; [|done]. intros (? & _). lia.
  - intros k sc Hk (Hl & Hinv). left.
    destruct (coefficients_lookup autosize k) as [ak Hak]; [lia|].
    destruct (coefficients_lookup newsize k) as [nk Hnk]; [lia|].
    rewrite (coeff_Next _ _ _ Hak). simpl.
    assert (∀ j, j ≠ k →
              autosized newsize autosize (S k) j ↔ autosized newsize autosize k j) as Hother.
    { intros j Hj. unfold autosized. split; intros (? & ?); (split; [lia|done]). }
    assert (autosized newsize autosize (S k) k ↔ ak = true ∧ (nk == 0)%Q) as Hthis.
    { unfold autosized. split.
      - intros (_ & Ha & nj & Hnj & Hz). split; congruence.
      - intros [-> Hz]. split; [lia|]. split; [done|]. eauto. }
    destruct ak; simpl.
    + rewrite (coeff_Next _ _ _ Hnk). simpl.
      eexists; split; [done|].
      destruct (Qeq_bool nk 0) eqn:Hz.
      * apply Qeq_bool_iff in Hz. split; [by rewrite length_insert|].
        intros j. destruct (decide (j = k)) as [->|Hjk].
        -- rewrite list_lookup_insert_eq by lia. split; [done|].
           intros Hn. destruct Hn. by apply Hthis.
        -- rewrite list_lookup_insert_ne by done. rewrite (Hother j Hjk). apply Hinv.
      * split; [done|]. intros j. destruct (decide (j = k)) as [->|Hjk].
        -- split.
           ++ intros [_ Hz']%Hthis. apply Qeq_bool_iff in Hz'. congruence.
           ++ intros _. apply Hinv. intros (? & _). lia.
        -- rewrite (Hother j Hjk). apply Hinv.
    + eexists; split; [done|]. split; [done|].
      intros j. destruct (decide (j = k)) as [->|Hjk].
      * split.
        -- intros [? _]%Hthis. done.
        -- intros _. apply Hinv. intros (? & _). lia.
      * rewrite (Hother j Hjk). apply Hinv.
  - eauto.
Qed.

Lemma entry_scale_matrix sx sy sz i s :
  [sx; sy; sz] !! i = Some s → entry (scale_matrix sx sy sz) i i = Some s.
Proof. by destruct i as [|[|[|i]]]. Qed.

Lemma flat_axis_mono bb newsize d d' :
  d ≤ d' → flat_axis bb newsize d → flat_axis bb newsize d'.
Proof.
  intros Hd (i & ni & ei & ? & ?). exists i, ni, ei. split; [lia|done].
Qed.

Lemma flat_axis_below_3 bb newsize d :
  flat_axis bb newsize d → flat_axis bb newsize (d `min` 3).
Proof.
  intros (i & ni & ei & ? & Hni & ?). exists i, ni, ei. split; [|done].
  apply lookup_lt_Some in Hni. simpl in Hni. lia.
Qed.

(** Past the third axis the second loop reads [newsize] out of bounds,
    unless it has returned before. *)
Lemma resize_explicit_beyond bb d newsize scale :
  3 < d →
  resize_explicit (extents bb) d newsize scale =
  match resize_explicit (extents bb) 3 newsize scale with
  | Next _ => Fault OutOfBounds
  | r => r
  end.
Proof.
  intros Hd. unfold resize_explicit.
  replace (seq 0 d) with (seq 0 3 ++ 3 :: seq 4 (d - 4)).
  - rewrite for_each_app.
    match goal with |- context [for_each (seq 0 3) ?b ?s] =>
      destruct (for_each (seq 0 3) b s) as [[sc M]| |] end; reflexivity.
  - replace d with (3 + S (d - 4)) at 2 by lia. by rewrite seq_app.
Qed.

Lemma resize_autoscale_eq {R} bb newsize M nM eM :
  coefficients newsize !! M = Some nM → extents bb !! M = Some eM →
  resize_autoscale (R:=R) (extents bb) newsize M =
  if double_nonzero nM then
    if NT_eqb eM (NT_of_double 0%Q) then Fault DivisionByZero
    else Next (NT_div (NT_of_double nM) eM)
  else Next (NT_of_double 1%Q).
Proof.
  intros HnM HeM. unfold resize_autoscale.
  rewrite (coeff_Next _ _ _ HnM). simpl. unfold double_nonzero.
  destruct (Qeq_bool nM 0); simpl; [done|].
  rewrite (at_Next _ _ _ HeM). reflexivity.
Qed.

(** What a call computes, by cases. *)
Lemma computeResizeTransform_cases bb dimension newsize autosize :
  (flat_axis bb newsize dimension ∧
   computeResizeTransform bb dimension newsize autosize
     = Ok (Identity, [flat_object_warning]))
  ∨ (¬ flat_axis bb newsize dimension ∧
     ((∃ f, computeResizeTransform bb dimension newsize autosize = Crash f ∧
            ¬ (0 < dimension ≤ 3))
      ∨ (∃ scale M nM eM scale',
           dimension ≤ 3 ∧
           explicit_inv bb newsize dimension (scale, M) ∧
           coefficients newsize !! M = Some nM ∧
           extents bb !! M = Some eM ∧
           length scale' = 3 ∧
           (∀ j, (autosized newsize autosize dimension j →
                    scale' !! j = Some (autoscale_of nM eM)) ∧
                 (¬ autosized newsize autosize dimension j →
                    scale' !! j = scale !! j)) ∧
           ∃ s0 s1 s2, scale' = [s0; s1; s2] ∧
             computeResizeTransform bb dimension newsize autosize
             = Ok (scale_matrix (to_double s0) (to_double s1) (to_double s2), [])))).
Proof.
  unfold computeResizeTransform. rewrite resize_init_eq. simpl.
  destruct (decide (dimension ≤ 3)) as [Hdim|Hdim].
  - destruct (resize_explicit_cases bb dimension newsize Hdim)
      as [([scale M] & -> & Hinv & Hnoflat)|[-> Hflat]]; [|left; split; [done|reflexivity]].
    right. split; [done|]. simpl.
    pose proof Hinv as (Hlen & HM & HMnz & Hreq & Hone). simpl in *.
    destruct (coefficients_lookup newsize M) as [nM HnM]; [lia|].
    assert (is_Some (extents bb !! M)) as [eM HeM].
    { apply lookup_lt_is_Some. simpl. lia. }
    rewrite (resize_autoscale_eq bb newsize M nM eM HnM HeM).
    assert (0 < dimension → double_nonzero nM = true →
            NT_eqb eM (NT_of_double 0%Q) = false) as Hdiv.
    { intros Hd Hnz%double_nonzero_true.
      destruct (Hreq M nM) as (eM' & _ & HeM' & ? & _); [lia|done..|].
      congruence. }
    assert (∃ a, (if double_nonzero nM
                  then if NT_eqb eM (NT_of_double 0%Q)
                       then Fault DivisionByZero
                       else Next (NT_div (NT_of_double nM) eM)
                  else Next (NT_of_double 1%Q))
                 = (Next (autoscale_of nM eM) : step (Transform3d * list log_entry) NT)
               ∨ (dimension = 0 ∧
                  (if double_nonzero nM
                   then if NT_eqb eM (NT_of_double 0%Q)
                        then Fault DivisionByZero
                        else Next (NT_div (NT_of_double nM) eM)
                   else Next (NT_of_double 1%Q))
                  = (Fault a : step (Transform3d * list log_entry) NT))) as [a [->| [-> ->]]].
    { exists DivisionByZero. unfold autoscale_of.
      destruct (double_nonzero nM) eqn:Hnz; [|by left].
      destruct (NT_eqb eM (NT_of_double 0%Q)) eqn:Hz; [|by left].
      right. split; [|done]. destruct dimension; [done|].
      by specialize (Hdiv ltac:(lia) eq_refl). }
    + simpl.
      destruct (resize_auto_spec (R:=Transform3d * list log_entry)
                  dimension newsize autosize (autoscale_of nM eM) scale Hdim Hlen)
        as (scale' & -> & Hlen' & Hauto).
      right. exists scale, M, nM, eM, scale'.
      destruct scale' as [|s0 [|s1 [|s2 [|]]]]; try done.
      repeat (split; [done|]). exists s0, s1, s2. done.
    + left. eexists. split; [done|]. lia.
  - rewrite resize_explicit_beyond by lia.
    destruct (resize_explicit_cases bb 3 newsize (le_n 3))
      as [([scale M] & -> & Hinv & Hnoflat)|[-> Hflat]].
    + right. split.
      * intros Hflat%flat_axis_below_3. by rewrite Nat.min_r in Hflat by lia.
      * left. eexists. split; [done|]. lia.
    + left. split; [|done]. apply (flat_axis_mono _ _ 3); [lia|done].
Qed.
End resize_cases.

(** C7.  For every bounding box, dimension, target-size vector and
    autosize vector: when an active axis [i] (below the dimension) has a
    non-zero target size [ni] and the box has zero extent on it,
    [computeResizeTransform] logs the warning and returns the identity
    transform for the whole call, so that no axis is scaled. *)
Theorem computeResizeTransform_flat_identity `{ExactKernel}
    (bb : Iso_cuboid_3) (dimension : nat) (newsize : Vector3 double)
    (autosize : Vector3 bool) (i : nat) (ni : double) (hi lo : NT) :
  i < dimension →
  coefficients newsize !! i = Some ni → ¬ (ni == 0)%Q →
  coefficients (cuboid_max bb) !! i = Some hi →
  coefficients (cuboid_min bb) !! i = Some lo →
  NT_eqb (NT_sub hi lo) (NT_of_double 0%Q) = true →
  computeResizeTransform bb dimension newsize autosize
  = Ok (Identity, [flat_object_warning]).
Proof.
  intros Hi Hni Hnz Hhi Hlo Hflat.
  destruct (computeResizeTransform_cases bb dimension newsize autosize)
    as [[_ ->]|[Hno _]]; [done|].
  destruct Hno. exists i, ni, (NT_sub hi lo).
  repeat split; auto. unfold extent. by rewrite Hhi, Hlo.
Qed.

Lemma computeResizeTransform_flat_identity_witness :
  computeResizeTransform flat_cube 3 (mkVector3 2 0 5)%Q (mkVector3 false true false)
  = Ok (Identity, [flat_object_warning]).
Proof.
  apply (computeResizeTransform_flat_identity flat_cube 3 _ _ 2 5%Q 0%Q 0%Q);
    [lia | reflexivity | by intros ?%Qeq_eq_bool | reflexivity..].
Defined.

(** C8 (as amended).  For target sizes that are not negative on the
    active axes, [computeResizeTransform] returns for every dimension
    from 1 to 3, and whenever it returns, the result is a diagonal,
    shear-free, translation-free scale matrix; it is the identity with the
    warning when an active axis with a target size is flat, and otherwise
    nothing is logged and every active autosize axis without a target size
    carries the scale factor of an active axis with the largest requested
    target size (its target over its extent), or the factor one when no
    active axis has a target size.  For the box [0,1]^3, target size
    (2,0,0), autosize (false,true,true) and dimension 3 the result is the
    uniform scale (2,2,2). *)
Theorem computeResizeTransform_autosize :
  (∀ (K : ExactKernel) (bb : Iso_cuboid_3) (dimension : nat)
     (newsize : Vector3 double) (autosize : Vector3 bool),
     (∀ j nj, j < dimension → coefficients newsize !! j = Some nj → (0 <= nj)%Q) →
     (0 < dimension ≤ 3 →
        ∃ r, computeResizeTransform bb dimension newsize autosize = Ok r) ∧
     ∀ t log, computeResizeTransform bb dimension newsize autosize = Ok (t, log) →
       diagonal_scale t ∧
       ((flat_axis bb newsize dimension ∧ t = Identity ∧ log = [flat_object_warning]) ∨
        (¬ flat_axis bb newsize dimension ∧ log = [] ∧
         autosize_follows_largest bb dimension newsize autosize t)))
  ∧ computeResizeTransform unit_cube 3 (mkVector3 2 0 0)%Q (mkVector3 false true true)
    = Ok (scale_matrix 2 2 2, []).
Proof.
  split; [|reflexivity].
  intros K bb dimension newsize autosize Hpos.
  destruct (computeResizeTransform_cases bb dimension newsize autosize)
    as [[Hflat ->]|[Hnoflat [(f & -> & Hd)|Hnormal]]].
  - split; [eauto|]. intros t log [= <- <-]. split; [by exists 1%Q, 1%Q, 1%Q|].
    left. done.
  - split; [done|]. intros ?? [=].
  - destruct Hnormal as (scale & M & nM & eM & scale' & Hdim & Hinv & HnM & HeM
                          & Hlen' & Hauto & s0 & s1 & s2 & -> & ->).
    split; [eauto|]. intros t log [= <- <-]. split; [eexists _, _, _; done|].
    right. split; [done|]. split; [done|].
    destruct Hinv as (Hlen & HM & HMnz & Hreq & Hone). simpl in *.
    assert (∀ i s, [s0; s1; s2] !! i = Some s →
              entry (scale_matrix (to_double s0) (to_double s1) (to_double s2)) i i
              = Some (to_double s)) as Hentry.
    { intros i s Hs. apply entry_scale_matrix.
      destruct i as [|[|[|i]]]; by simplify_eq/=. }
    destruct (decide (dimension = 0)) as [->|Hd0].
    { right. split; [intros ??; lia|]. intros i (? & _). lia. }
    assert (M < dimension) as HMd by lia.
    unfold autoscale_of in Hauto.
    destruct (double_nonzero nM) eqn:Hnz.
    + apply double_nonzero_true in Hnz.
      left. exists M, nM, eM.
      destruct (Hreq M nM) as (eM' & nM' & HeM' & _ & HsM & _ & _); [done..|].
      replace eM' with eM in * by congruence.
      assert (entry (scale_matrix (to_double s0) (to_double s1) (to_double s2)) M M
              = Some (to_double (NT_div (NT_of_double nM) eM))) as HtM.
      { apply Hentry. rewrite <- HsM. apply Hauto.
        intros (_ & _ & ni & Hni & Hz). congruence. }
      repeat split; auto.
      * intros j nj Hj Hnj Hnjz.
        destruct (Hreq j nj) as (_ & nM'' & _ & _ & _ & HnM'' & Hle); [done..|].
        congruence.
      * by rewrite extent_extents.
      * intros i Hi. rewrite HtM. apply Hentry. by apply Hauto.
    + apply double_nonzero_false in Hnz.
      right. split.
      * intros j nj Hj Hnj. destruct (Qeq_dec nj 0) as [|Hnjz]; [done|].
        destruct (Hreq j nj) as (_ & nM'' & _ & _ & _ & HnM'' & Hle); [done..|].
        replace nM'' with nM in * by congruence.
        specialize (Hpos j nj Hj Hnj). lra.
      * intros i Hi. apply Hentry. by apply Hauto.
Qed.

Lemma computeResizeTransform_autosize_witness :
  diagonal_scale (scale_matrix 2 3 3) ∧
  autosize_follows_largest unit_cube 3 (mkVector3 2 3 0)%Q
    (mkVector3 false false true) (scale_matrix 2 3 3).
Proof.
  assert (∀ j nj, j < 3 → coefficients (mkVector3 2 3 0)%Q !! j = Some nj →
                  (0 <= nj)%Q) as Hpos.
  { intros [|[|[|j]]] nj _ [= <-]; by apply Qle_bool_imp_le. }
  destruct (proj2 (proj1 computeResizeTransform_autosize Gmpq_kernel unit_cube 3
                     (mkVector3 2 3 0)%Q (mkVector3 false false true) Hpos)
              (scale_matrix 2 3 3) [] eq_refl)
    as [Hdiag [(_ & _ & [=])|(_ & _ & Hfollows)]].
  by split.
Defined.

Lemma computeResizeTransform_negative_target :
  ∃ t, computeResizeTransform unit_cube 3 (mkVector3 0 (-1) 0)%Q (mkVector3 true false true)
       = Ok (t, []) ∧
       ¬ flat_axis unit_cube (mkVector3 0 (-1) 0)%Q 3 ∧
       ¬ autosize_follows_largest unit_cube 3 (mkVector3 0 (-1) 0)%Q
           (mkVector3 true false true) t.
Proof.
  eexists. split; [reflexivity|]. split.
  - intros (i & ni & ei & Hi & Hni & Hnz & Hei & Hflat).
    destruct i as [|[|[|i]]]; try lia; injection Hni as <-; injection Hei as <-;
      first [done | by destruct Hnz].
  - intros [(M & nM & eM & (HM & HnM & Hnz & _) & _ & _ & Hauto)|[Hnone _]].
    + destruct M as [|[|[|M]]]; try lia; injection HnM as <-; try by destruct Hnz.
      assert (autosized (mkVector3 0 (-1) 0)%Q (mkVector3 true false true) 3 0) as H0.
      { split; [lia|]. split; [done|]. by exists 0%Q. }
      apply Hauto in H0. discriminate H0.
    + specialize (Hnone 1 (-1)%Q ltac:(lia) eq_refl). discriminate Hnone.
Qed.

(** ** [createPolySetFromNefPolyhedron3] *)

Section nef_to_mesh.
Context `{G : GeometryUtils}.
Implicit Types (N : Nef_polyhedron_3) (ps : PolySet Vector3f)
  (verts : list Vector3f) (faces : list IndexedFace)
  (groups : list (list IndexedFace * bool)).

(** Step 1 collects the face groups of the retained half-facets. *)
Lemma index_halffacets N allVertices polygons markedPolygons :
  fold_left index_halffacet N (allVertices, polygons, markedPolygons) =
  ((retained N allVertices).1,
   polygons ++ (face_groups (retained N allVertices).2).*1,
   markedPolygons ++ (face_groups (retained N allVertices).2).*2).
Proof.
  revert allVertices polygons markedPolygons.
  induction N as [|hf N IH]; intros r polys marks; simpl.
  { by rewrite !app_nil_r. }
  destruct (facet_faces hf r) as [r1 faces] eqn:Hf.
  destruct (retained N r1) as [r2 rest] eqn:Hr.
  specialize (IH r1). rewrite Hr in IH. simpl in IH.
  case_bool_decide as Hempty; rewrite !removelast_last || idtac; rewrite IH; simpl.
  - done.
  - by rewrite <- !app_assoc.
Qed.

(** The inner loop of step 3 keeps all the triangles or stops at the
    first one out of range. *)
Lemma keep_triangles_eq {R} size markedPolygons polygonIndex m triangles
    allTriangles markedTriangles :
  markedPolygons !! polygonIndex = Some m →
  keep_triangles (R:=R) size markedPolygons polygonIndex triangles
    (allTriangles, markedTriangles) =
  if forallb (triangle_in_range size) triangles
  then Next (allTriangles ++ triangles,
             markedTriangles ++ replicate (length triangles) m)
  else Fault AssertionFailed.
Proof.
  intros Hm. revert allTriangles markedTriangles.
  induction triangles as [|t triangles IH]; intros aT mT.
  { simpl. by rewrite !app_nil_r. }
  change (keep_triangles (R:=R) size markedPolygons polygonIndex (t :: triangles) (aT, mT))
    with (acc ← (_ ← assert_ (R:=R) (triangle_in_range size t);
                 m ← checked_at markedPolygons polygonIndex;
                 Next (aT ++ [t], mT ++ [m]));
          keep_triangles size markedPolygons polygonIndex triangles acc).
  simpl forallb. destruct (triangle_in_range size t); simpl; [|done].
  unfold checked_at. rewrite Hm. simpl. rewrite IH.
  destruct (forallb _ triangles); [|done].
  by rewrite <- !app_assoc.
Qed.

Lemma marked_triangles_cons verts faces m groups :
  marked_triangles verts ((faces, m) :: groups) =
  ((λ t, (t, m)) <$> kept_triangles verts faces) ++ marked_triangles verts groups.
Proof. reflexivity. Qed.

Lemma triangulate_face_eq {R} verts markedPolygons polygonIndex m faces
    allTriangles markedTriangles :
  markedPolygons !! polygonIndex = Some m →
  triangulate_face (R:=R) verts markedPolygons faces
    (allTriangles, markedTriangles, polygonIndex) =
  if forallb (triangle_in_range (length verts)) (kept_triangles verts faces)
  then Next (allTriangles ++ kept_triangles verts faces,
             markedTriangles ++ replicate (length (kept_triangles verts faces)) m,
             S polygonIndex)
  else Fault AssertionFailed.
Proof.
  intros Hm. unfold triangulate_face, kept_triangles.
  destruct (tessellatePolygonWithHoles verts faces) as [[] triangles]; simpl.
  - by rewrite !app_nil_r.
  - rewrite (keep_triangles_eq _ _ _ m) by done.
    by destruct (forallb _ triangles).
Qed.

(** Step 3 keeps the marked triangles of all groups, or stops at the
    first triangle out of range. *)
Lemma triangulate_loop {R} verts groups done allTriangles markedTriangles :
  for_each groups.*1 (triangulate_face (R:=R) verts (done ++ groups.*2))
    (allTriangles, markedTriangles, length done) =
  if forallb (triangle_in_range (length verts)) (marked_triangles verts groups).*1
  then Next (allTriangles ++ (marked_triangles verts groups).*1,
             markedTriangles ++ (marked_triangles verts groups).*2,
             length done + length groups)
  else Fault AssertionFailed.
Proof.
  revert done allTriangles markedTriangles.
  induction groups as [|[faces m] groups IH]; intros done aT mT.
  { simpl. by rewrite !app_nil_r, Nat.add_0_r. }
  rewrite marked_triangles_cons, fmap_app, forallb_app, !fmap_cons.
  cbn [fst snd for_each].
  rewrite (triangulate_face_eq _ _ _ m) by (by rewrite list_lookup_middle).
  rewrite <- list_fmap_compose.
  replace (fst ∘ (λ t, (t, m))) with (@id IndexedTriangle) by done.
  rewrite list_fmap_id.
  destruct (forallb _ (kept_triangles verts faces)); cbn [mbind step_bind andb]; [|done].
  replace (done ++ m :: groups.*2) with ((done ++ [m]) ++ groups.*2)
    by (by rewrite <- app_assoc).
  replace (S (length done)) with (length (done ++ [m]))
    by (rewrite length_app; simpl; lia).
  rewrite IH, length_app. simpl.
  destruct (forallb _ _); [|done].
  rewrite !fmap_app, <- !list_fmap_compose, <- !app_assoc.
  replace (snd ∘ (λ t : IndexedTriangle, (t, m))) with (λ _ : IndexedTriangle, m) by done.
  rewrite (const_fmap (λ _, m) (kept_triangles verts faces) m) by done.
  do 2 f_equal. lia.
Qed.

Lemma triangulate_faces_eq {R} verts groups :
  triangulate_faces (R:=R) verts groups.*1 groups.*2 =
  if forallb (triangle_in_range (length verts)) (marked_triangles verts groups).*1
  then Next ((marked_triangles verts groups).*1, (marked_triangles verts groups).*2)
  else Fault AssertionFailed.
Proof.
  unfold triangulate_faces.
  rewrite (triangulate_loop verts groups [] [] []).
  by destruct (forallb _ _).
Qed.
End nef_to_mesh.

Section reindexer.
Context `{K : NefKernel}.
Implicit Types (r : Reindexer Vector3f) (face : IndexedFace).

(** The index [lookup] returns is in the array, which only grows. *)
Lemma lookup_bound r v :
  (lookup r v).1 < length (getArray (lookup r v).2) ∧
  length (getArray r) ≤ length (getArray (lookup r v).2).
Proof.
  unfold lookup. destruct (list_find _ _) as [[idx x]|] eqn:Hfind; simpl.
  - apply list_find_Some in Hfind as (Hidx & _). apply lookup_lt_Some in Hidx. lia.
  - rewrite length_app. simpl. lia.
Qed.

Lemma indexes_below_mono n n' face :
  n ≤ n' → indexes_below n face → indexes_below n' face.
Proof. intros Hn Hf. eapply Forall_impl; [done|]. intros i Hi. simpl in *. lia. Qed.

Lemma indexes_below_removelast n face :
  indexes_below n face → indexes_below n (removelast face).
Proof.
  intros Hf. destruct face as [|i face _] using rev_ind; [done|].
  rewrite removelast_last. by apply Forall_app in Hf as [? _].
Qed.

Lemma index_cycle_bound cycle r :
  length (getArray r) ≤ length (getArray (index_cycle cycle r).1) ∧
  indexes_below (length (getArray (index_cycle cycle r).1)) (index_cycle cycle r).2.
Proof.
  unfold index_cycle.
  assert (∀ st,
            length (getArray r) ≤ length (getArray st.1) →
            indexes_below (length (getArray st.1)) st.2 →
            length (getArray r) ≤ length (getArray (fold_left index_vertex cycle st).1) ∧
            indexes_below (length (getArray (fold_left index_vertex cycle st).1))
              (fold_left index_vertex cycle st).2) as Hfold.
  { induction cycle as [|p cycle IH]; intros [r0 face0] Hle Hbelow; simpl; [done|].
    pose proof (lookup_bound r0 (vector_convert_3f p)) as [Hidx Hgrow].
    destruct (lookup r0 (vector_convert_3f p)) as [idx r1]. simpl in *.
    apply IH; simpl; [lia|].
    destruct (_ || _).
    - apply Forall_app. split; [|by repeat constructor].
      by apply (indexes_below_mono (length (getArray r0))).
    - by apply (indexes_below_mono (length (getArray r0))). }
  specialize (Hfold (r, []) (le_n _) (Forall_nil_2 _)).
  destruct (fold_left index_vertex cycle (r, [])) as [r' face]. simpl in *.
  destruct Hfold as [Hle Hbelow]. split; [done|].
  destruct (_ && _); [by apply indexes_below_removelast|done].
Qed.

Lemma index_cycles_bound cycles r :
  length (getArray r) ≤ length (getArray (index_cycles cycles r).1) ∧
  Forall (indexes_below (length (getArray (index_cycles cycles r).1)))
    (index_cycles cycles r).2.
Proof.
  unfold index_cycles.
  assert (∀ st,
            length (getArray r) ≤ length (getArray st.1) →
            Forall (indexes_below (length (getArray st.1))) st.2 →
            length (getArray r) ≤ length (getArray (fold_left add_cycle cycles st).1) ∧
            Forall (indexes_below (length (getArray (fold_left add_cycle cycles st).1)))
              (fold_left add_cycle cycles st).2) as Hfold.
  { induction cycles as [|c cycles IH]; intros [r0 faces0] Hle Hbelow; simpl; [done|].
    pose proof (index_cycle_bound c r0) as [Hgrow Hface].
    destruct (index_cycle c r0) as [r1 face]. simpl in *.
    assert (Forall (indexes_below (length (getArray r1))) faces0) as Hold.
    { eapply Forall_impl; [done|]. intros f. by apply indexes_below_mono. }
    apply IH; simpl; [lia|].
    destruct (_ <? 3); [by rewrite removelast_last|].
    apply Forall_app. split; [done|by constructor]. }
  apply (Hfold (r, [])); [done|constructor].
Qed.

Lemma facet_faces_bound hf r :
  length (getArray r) ≤ length (getArray (facet_faces hf r).1) ∧
  Forall (indexes_below (length (getArray (facet_faces hf r).1))) (facet_faces hf r).2.
Proof.
  unfold facet_faces. destruct (negb _); [apply index_cycles_bound|].
  simpl. split; [done|constructor].
Qed.

(** The faces of the retained half-facets index into the final array. *)
Lemma retained_bound (N : Nef_polyhedron_3) r :
  length (getArray r) ≤ length (getArray (retained N r).1) ∧
  Forall (λ '(_, faces),
            Forall (indexes_below (length (getArray (retained N r).1))) faces)
    (retained N r).2.
Proof.
  revert r. induction N as [|hf N IH]; intros r; simpl; [split; [done|constructor]|].
  pose proof (facet_faces_bound hf r) as [Hgrow Hfaces].
  destruct (facet_faces hf r) as [r1 faces]. simpl in *.
  specialize (IH r1). destruct (retained N r1) as [r2 rest]. simpl in *.
  destruct IH as [Hgrow' Hrest]. split; [lia|].
  case_bool_decide; [done|]. constructor; [|done].
  eapply Forall_impl; [done|]. intros f. by apply indexes_below_mono.
Qed.

(** A retained half-facet is one of the structure, on the unmarked
    volume. *)
Lemma retained_source (N : Nef_polyhedron_3) r hf faces :
  (hf, faces) ∈ (retained N r).2 →
  hf ∈ N ∧ incident_volume_mark hf = false ∧ faces ≠ [].
Proof.
  revert r. induction N as [|hf' N IH]; intros r; simpl; [by intros ?%elem_of_nil|].
  destruct (facet_faces hf' r) as [r1 faces'] eqn:Hf.
  specialize (IH r1). destruct (retained N r1) as [r2 rest]. simpl in *.
  intros Hin.
  assert ((hf, faces) ∈ rest ∨ ((hf, faces) = (hf', faces') ∧ faces' ≠ [])) as [Hin'|[[= -> ->] Hne]].
  { case_bool_decide; [by left|]. apply elem_of_cons in Hin as [?|?]; [right|left]; done. }
  - destruct (IH Hin') as (? & ? & ?). split; [by right|done].
  - split; [by left|]. split; [|done].
    unfold facet_faces in Hf. destruct (incident_volume_mark hf'); [|done].
    simpl in Hf. by injection Hf as _ <-.
Qed.
End reindexer.

Section emit.
Context `{G : GeometryUtils}.
Implicit Types (N : Nef_polyhedron_3) (ps : PolySet Vector3f)
  (verts : list Vector3f) (tm : list (IndexedTriangle * bool)).

Lemma append_triangle (m : bool) (v0 v1 v2 : Vector3f) ps :
  append_vertex v2 (append_vertex v1 (append_vertex v0 (append_poly m ps))) =
  mkPolySet (polygons ps ++ [mkPolygon m [v0; v1; v2]])
    (getDimension ps) (convexValue ps).
Proof.
  unfold append_vertex, append_poly. simpl.
  rewrite last_snoc, removelast_last. simpl.
  rewrite last_snoc, removelast_last. simpl.
  by rewrite last_snoc, removelast_last.
Qed.

Lemma triangle_in_range_lookup verts (t : IndexedTriangle) :
  triangle_in_range (length verts) t = true →
  is_Some (verts !! Z.to_nat (v_x t)) ∧
  is_Some (verts !! Z.to_nat (v_y t)) ∧
  is_Some (verts !! Z.to_nat (v_z t)).
Proof.
  unfold triangle_in_range. rewrite !andb_true_iff.
  rewrite !Z.leb_le, !Z.ltb_lt. intros (((((? & ?) & ?) & ?) & ?) & ?).
  repeat split; apply lookup_lt_is_Some; lia.
Qed.

Lemma emit_triangle_eq {R} verts markedTriangles triangleIndex m
    (t : IndexedTriangle) (v0 v1 v2 : Vector3f) ps :
  markedTriangles !! triangleIndex = Some m →
  verts !! Z.to_nat (v_x t) = Some v0 →
  verts !! Z.to_nat (v_y t) = Some v1 →
  verts !! Z.to_nat (v_z t) = Some v2 →
  emit_triangle (R:=R) verts markedTriangles t (ps, triangleIndex) =
  Next (mkPolySet (polygons ps ++ [mkPolygon m [v0; v1; v2]])
          (getDimension ps) (convexValue ps),
        S triangleIndex).
Proof.
  intros Hm H0 H1 H2. unfold emit_triangle, checked_at.
  rewrite Hm. cbn [mbind step_bind].
  rewrite (at_Next _ _ _ H0). cbn [mbind step_bind].
  rewrite (at_Next _ _ _ H1). cbn [mbind step_bind].
  rewrite (at_Next _ _ _ H2). cbn [mbind step_bind].
  by rewrite append_triangle.
Qed.

Lemma emit_loop {R} verts tm done ps :
  forallb (triangle_in_range (length verts)) tm.*1 = true →
  ∃ out, emitted verts tm out ∧
    for_each tm.*1 (emit_triangle (R:=R) verts (done ++ tm.*2)) (ps, length done) =
    Next (mkPolySet (polygons ps ++ out) (getDimension ps) (convexValue ps),
          length done + length tm).
Proof.
  revert done ps. induction tm as [|[t m] tm IH]; intros done ps Hrange.
  { exists []. split; [constructor|]. simpl.
    rewrite app_nil_r, Nat.add_0_r. by destruct ps. }
  rewrite !fmap_cons in *. cbn [fst snd for_each forallb] in *.
  apply andb_true_iff in Hrange as [Ht Hrange].
  destruct (triangle_in_range_lookup _ _ Ht) as ([v0 H0] & [v1 H1] & [v2 H2]).
  rewrite (emit_triangle_eq _ _ _ m t v0 v1 v2) by (done || by rewrite list_lookup_middle).
  cbn [mbind step_bind].
  replace (done ++ m :: tm.*2) with ((done ++ [m]) ++ tm.*2)
    by (by rewrite <- app_assoc).
  replace (S (length done)) with (length (done ++ [m]))
    by (rewrite length_app; simpl; lia).
  destruct (IH (done ++ [m])
              (mkPolySet (polygons ps ++ [mkPolygon m [v0; v1; v2]])
                 (getDimension ps) (convexValue ps)) Hrange) as (out & Hout & ->).
  exists (mkPolygon m [v0; v1; v2] :: out). split.
  - constructor; [|done]. split; [done|]. by exists v0, v1, v2.
  - simpl. rewrite <- app_assoc, length_app. simpl. do 2 f_equal. lia.
Qed.

Lemma emit_triangles_eq {R} verts tm ps :
  forallb (triangle_in_range (length verts)) tm.*1 = true →
  ∃ out, emitted verts tm out ∧
    emit_triangles (R:=R) verts tm.*1 tm.*2 ps =
    Next (mkPolySet (polygons ps ++ out) (getDimension ps) (convexValue ps)).
Proof.
  intros Hrange. destruct (emit_loop (R:=R) verts tm [] ps Hrange) as (out & Hout & Heq).
  exists out. split; [done|]. unfold emit_triangles.
  simpl in Heq. by rewrite Heq.
Qed.

(** What a call computes. *)
Lemma createPolySetFromNefPolyhedron3_cases N ps :
  (forallb (triangle_in_range (length (all_vertices N))) (conversion_triangles N).*1 = false ∧
   createPolySetFromNefPolyhedron3 N ps = Crash AssertionFailed)
  ∨ (forallb (triangle_in_range (length (all_vertices N))) (conversion_triangles N).*1 = true ∧
     ∃ out log,
       emitted (all_vertices N) (conversion_triangles N) out ∧
       createPolySetFromNefPolyhedron3 N ps =
       Ok (false, mkPolySet (polygons ps ++ out) (getDimension ps) (convexValue ps), log)).
Proof.
  unfold createPolySetFromNefPolyhedron3.
  rewrite index_halffacets. simpl.
  fold (all_vertices N). rewrite triangulate_faces_eq. fold (conversion_triangles N).
  destruct (forallb _ _) eqn:Hrange; [|by left].
  right. split; [done|]. simpl.
  destruct (emit_triangles_eq (R:=bool * PolySet Vector3f * list log_entry)
              (all_vertices N) (conversion_triangles N) ps Hrange) as (out & Hout & ->).
  simpl. eauto.
Qed.

(** The marked triangles are the sourced triangles with the negated
    mark of their half-facet. *)
Lemma conversion_triangles_sourced N :
  conversion_triangles N =
  (λ '(hf, t), (t, negb (mark hf))) <$> sourced_triangles N.
Proof.
  unfold conversion_triangles, sourced_triangles, marked_triangles, face_groups.
  generalize (retained N (mkReindexer [])).2. intros kept.
  induction kept as [|[hf faces] kept IH]; simpl; [done|].
  rewrite fmap_app, <- IH. f_equal.
  rewrite <- list_fmap_compose. done.
Qed.

Lemma sourced_triangles_source N hf t :
  (hf, t) ∈ sourced_triangles N → hf ∈ N ∧ incident_volume_mark hf = false.
Proof.
  unfold sourced_triangles. intros Hin.
  apply list_elem_of_In, in_flat_map in Hin as ([hf' faces] & Hkept & Hin).
  apply list_elem_of_In, list_elem_of_fmap in Hin as (t' & [= -> ->] & _).
  apply list_elem_of_In in Hkept.
  by destruct (retained_source _ _ _ _ Hkept) as (? & ? & _).
Qed.

(** Under the contract of the tessellator all triangles are in range. *)
Lemma conversion_triangles_in_range N :
  tessellator_in_range →
  forallb (triangle_in_range (length (all_vertices N))) (conversion_triangles N).*1 = true.
Proof.
  intros Htess. apply forallb_forall. intros t Hin.
  apply list_elem_of_In, list_elem_of_fmap in Hin as ([t' m] & -> & Hin).
  rewrite conversion_triangles_sourced in Hin.
  apply list_elem_of_fmap in Hin as ([hf t''] & [= -> ->] & Hin).
  unfold sourced_triangles in Hin.
  apply list_elem_of_In, in_flat_map in Hin as ([hf' faces] & Hkept & Hin).
  apply list_elem_of_In, list_elem_of_fmap in Hin as (t3 & [= -> ->] & Hin).
  pose proof (retained_bound N (mkReindexer [])) as [_ Hbound].
  rewrite Forall_forall in Hbound. apply list_elem_of_In in Hkept.
  specialize (Hbound _ Hkept). simpl in Hbound.
  unfold kept_triangles in Hin.
  destruct (tessellatePolygonWithHoles (all_vertices N) faces) as [[] triangles] eqn:Ht.
  { by apply elem_of_nil in Hin. }
  specialize (Htess _ _ _ Hbound Ht). rewrite Forall_forall in Htess.
  by apply Htess.
Qed.
End emit.

Lemma marked_triangles_fst `{GeometryUtils} verts groups :
  (marked_triangles verts groups).*1 = flat_map (kept_triangles verts) groups.*1.
Proof.
  induction groups as [|[faces m] groups IH]; [done|].
  rewrite marked_triangles_cons, fmap_app, IH, <- list_fmap_compose. simpl.
  f_equal. apply list_fmap_id.
Qed.

Lemma face_groups_fst `{NefKernel} kept : (face_groups kept).*1 = kept.*2.
Proof.
  unfold face_groups. rewrite <- list_fmap_compose.
  apply list_fmap_ext. by intros ? [??].
Qed.

Lemma triangles_pass_in_range : @tessellator_in_range _ triangles_pass.
Proof.
  intros verts faces triangles Hfaces. simpl.
  destruct faces as [|[|a [|b [|c [|]]]] [|]]; try done.
  intros [= <-]. constructor; [|done].
  apply Forall_cons in Hfaces as [Hface _].
  unfold indexes_below in Hface. rewrite !Forall_cons in Hface.
  destruct Hface as (Ha & Hb & Hc & _). simpl in Ha, Hb, Hc.
  unfold triangle_in_range. simpl.
  rewrite !andb_true_iff, !Z.leb_le, !Z.ltb_lt. lia.
Qed.

(** C2 (as amended).  Every polygon [createPolySetFromNefPolyhedron3]
    appends to the mesh is a triangle tessellated from the boundary cycles
    of a half-facet of the structure that lies on the unmarked volume, and
    its mark flag is the negation of the mark bit of that half-facet: the
    mesh is the given one followed by one such polygon per sourced
    triangle, in order. *)
Theorem createPolySetFromNefPolyhedron3_marks `{GeometryUtils}
    (N : Nef_polyhedron_3) (ps ps' : PolySet Vector3f) (err : bool)
    (log : list log_entry) :
  createPolySetFromNefPolyhedron3 N ps = Ok (err, ps', log) →
  triangles_carry (λ hfaceti, negb (mark hfaceti)) N ps ps' ∧
  ∀ hfaceti t, (hfaceti, t) ∈ sourced_triangles N →
    hfaceti ∈ N ∧ incident_volume_mark hfaceti = false.
Proof.
  intros Hrun. split; [|apply sourced_triangles_source].
  destruct (createPolySetFromNefPolyhedron3_cases N ps)
    as [[_ Hcrash]|(_ & out & log' & Hout & Hok)]; [congruence|].
  rewrite Hok in Hrun. injection Hrun as _ <- _.
  exists out. split; [done|].
  unfold emitted in Hout. rewrite conversion_triangles_sourced in Hout.
  apply Forall2_fmap_l in Hout.
  eapply Forall2_impl; [done|]. by intros [hf t] p.
Qed.

Lemma createPolySetFromNefPolyhedron3_marks_witness :
  triangles_carry (λ hfaceti, negb (mark hfaceti)) triangle_square_triangle
    (new_PolySet 3 None)
    (mkPolySet
       [ mkPolygon false [point 0 0 0; point 1 0 0; point 0 1 0];
         mkPolygon false [point 0 0 0; point 0 1 0; point 0 0 1] ] 3 None).
Proof.
  eapply createPolySetFromNefPolyhedron3_marks. reflexivity.
Defined.

Lemma createPolySetFromNefPolyhedron3_mark_negated :
  ∃ err ps' log,
    createPolySetFromNefPolyhedron3 marked_triangle (new_PolySet 3 None)
    = Ok (err, ps', log) ∧
    ¬ triangles_carry mark marked_triangle (new_PolySet 3 None) ps'.
Proof.
  eexists _, _, _. split; [reflexivity|].
  intros (out & Hpolys & Hcarry). simpl in Hpolys. subst out.
  assert (sourced_triangles marked_triangle =
          [(mkHalffacet integer_points true false
              [[point 0 0 0; point 1 0 0; point 0 1 0]], mkVector3 0 1 2)%Z]) as Hsrc
    by reflexivity.
  rewrite Hsrc in Hcarry.
  apply Forall2_cons_1 in Hcarry as [[Hmark _] _]. discriminate Hmark.
Qed.

(** C5.  The flag [createPolySetFromNefPolyhedron3] returns is false,
    so it is true only if anything else failed upstream; no failure of the
    tessellator sets it.  The polygons appended are the triangles of the
    face groups in order, where a group whose tessellation fails
    contributes nothing and every other group all its triangles. *)
Theorem createPolySetFromNefPolyhedron3_drops_failed_faces `{GeometryUtils}
    (N : Nef_polyhedron_3) (ps ps' : PolySet Vector3f) (err : bool)
    (log : list log_entry) :
  createPolySetFromNefPolyhedron3 N ps = Ok (err, ps', log) →
  err = false ∧
  ∃ out, polygons ps' = polygons ps ++ out ∧
    Forall2 (is_triangle (all_vertices N))
      (flat_map (λ faces,
                   let '(failed, triangles) :=
                     tessellatePolygonWithHoles (all_vertices N) faces in
                   if failed then [] else triangles)
         (retained N (mkReindexer [])).2.*2)
      out.
Proof.
  intros Hrun.
  destruct (createPolySetFromNefPolyhedron3_cases N ps)
    as [[_ Hcrash]|(_ & out & log' & Hout & Hok)]; [congruence|].
  rewrite Hok in Hrun. injection Hrun as <- <- _.
  split; [done|]. exists out. split; [done|].
  change (Forall2 (is_triangle (all_vertices N))
            (flat_map (kept_triangles (all_vertices N)) (retained N (mkReindexer [])).2.*2) out).
  rewrite <- face_groups_fst, <- marked_triangles_fst.
  apply Forall2_fmap_l. eapply Forall2_impl; [done|]. by intros [t m] p [_ ?].
Qed.

Lemma createPolySetFromNefPolyhedron3_drops_failed_faces_witness :
  false = false ∧
  ∃ out,
    [ mkPolygon false [point 0 0 0; point 1 0 0; point 0 1 0];
      mkPolygon false [point 0 0 0; point 0 1 0; point 0 0 1] ] = [] ++ out ∧
    Forall2 (is_triangle (all_vertices triangle_square_triangle))
      (flat_map (λ faces,
                   let '(failed, triangles) :=
                     tessellatePolygonWithHoles (all_vertices triangle_square_triangle) faces in
                   if failed then [] else triangles)
         (retained triangle_square_triangle (mkReindexer [])).2.*2)
      out.
Proof.
  eapply (createPolySetFromNefPolyhedron3_drops_failed_faces
            triangle_square_triangle (new_PolySet 3 None)
            (mkPolySet _ 3 None)).
  reflexivity.
Defined.

(** C9.  For every volumetric structure, whatever the tessellator
    reports, a call of [createPolySetFromNefPolyhedron3] that returns
    returns the flag false: the flag is set to false at the start and the
    flag of the tessellator is a local of the loop body.  The call does
    return when the tessellator keeps its triangles within the vertex
    array. *)
Theorem createPolySetFromNefPolyhedron3_flag_false `{GeometryUtils}
    (N : Nef_polyhedron_3) (ps : PolySet Vector3f) :
  (∀ err ps' log,
     createPolySetFromNefPolyhedron3 N ps = Ok (err, ps', log) → err = false) ∧
  (tessellator_in_range →
   ∃ ps' log, createPolySetFromNefPolyhedron3 N ps = Ok (false, ps', log)).
Proof.
  destruct (createPolySetFromNefPolyhedron3_cases N ps)
    as [[Hrange Hcrash]|(_ & out & log' & _ & Hok)].
  - split; [intros ???; congruence|].
    intros Htess. rewrite conversion_triangles_in_range in Hrange; done.
  - rewrite Hok. split; [by intros ??? [= <- _ _]|eauto].
Qed.

Lemma createPolySetFromNefPolyhedron3_flag_false_witness :
  ∃ ps' log,
    createPolySetFromNefPolyhedron3 triangle_square_triangle (new_PolySet 3 None)
    = Ok (false, ps', log).
Proof.
  apply (proj2 (createPolySetFromNefPolyhedron3_flag_false
                  triangle_square_triangle (new_PolySet 3 None))).
  apply triangles_pass_in_range.
Defined.

(** ** [createNefPolyhedronFromPolySet] *)

Section boundary.
Context `{B : BoundaryBuilder V}.
Implicit Types (ps psq ps_tri : PolySet V) (evs : list (event V)).

Lemma builds_app evs evs' : builds (evs ++ evs') = builds evs ++ builds evs'.
Proof. apply omap_app. Qed.

(** Either [try] block calls the boundary constructor once, on its
    argument. *)
Lemma construct_exact_builds psq evs r :
  construct_exact psq = (evs, r) → builds evs = [psq].
Proof.
  unfold construct_exact, build. simpl.
  destruct (createPolyhedronFromPolySet psq) as [[err P]|e]; simpl;
    [|by intros [= <- _]].
  destruct err; simpl; [by intros [= <- _]|].
  destruct (is_closed P); simpl; [|by intros [= <- _]].
  destruct (is_valid P); simpl; [|by intros [= <- _]].
  destruct (new_Nef_polyhedron3 P); simpl; by intros [= <- _].
Qed.

Lemma construct_alternate_builds ps_tri N evs r :
  construct_alternate ps_tri N = (evs, r) → builds evs = [ps_tri].
Proof.
  unfold construct_alternate, build. simpl.
  destruct (createPolyhedronFromPolySet ps_tri) as [[err P]|e]; simpl;
    [|by intros [= <- _]].
  destruct err; simpl; [by intros [= <- _]|].
  destruct (new_Nef_polyhedron3 P); simpl; by intros [= <- _].
Qed.

Lemma construct_alternate_no_abort ps_tri N evs f :
  construct_alternate ps_tri N ≠ (evs, Abort f).
Proof.
  unfold construct_alternate, build. simpl.
  destruct (createPolyhedronFromPolySet ps_tri) as [[err P]|e]; simpl; [|done].
  destruct err; simpl; [done|].
  destruct (new_Nef_polyhedron3 P); simpl; done.
Qed.

(** The first [try] block ends with the exception of a failed
    construction, after the one call of the boundary constructor. *)
Lemma construct_exact_fails psq e :
  construction_fails psq e →
  construct_exact psq = ([Built psq], Throw e).
Proof.
  unfold construct_exact, build. simpl.
  intros [->|(P & -> & Hclosed & Hvalid & Hnef)]; simpl; [done|].
  by rewrite Hclosed, Hvalid, Hnef.
Qed.

(** The second [try] block by what it builds. *)
Lemma construct_alternate_retried ps_tri :
  construct_alternate ps_tri None =
  ([Built ps_tri],
   match retried ps_tri with
   | Value N => Normal N
   | Raise e => Throw e
   end).
Proof.
  unfold construct_alternate, retried, build. simpl.
  destruct (createPolyhedronFromPolySet ps_tri) as [[[] P]|e]; simpl; [done| |done].
  by destruct (new_Nef_polyhedron3 P).
Qed.

(** The function past the convexity test. *)
Lemma createNefPolyhedronFromPolySet_nonconvex ps psq points3d :
  isEmpty ps = false → getDimension ps = 3 →
  quantizeVertices ps = (psq, points3d) →
  is_convex (tessellate_faces psq (new_PolySet 3 (convexValue psq))) = false →
  createNefPolyhedronFromPolySet ps =
  finish (construct_boundary psq
            (tessellate_faces psq (new_PolySet 3 (convexValue psq)))).
Proof.
  intros Hne Hdim Hq Hconv. unfold createNefPolyhedronFromPolySet.
  rewrite Hne, Hdim, Hq, Hconv. simpl.
  by destruct (construct_boundary _ _) as [evs []].
Qed.
End boundary.

(** C6.  For the empty mesh [createNefPolyhedronFromPolySet] returns
    the empty volumetric structure; it logs nothing and calls nothing. *)
Theorem createNefPolyhedronFromPolySet_empty `{BoundaryBuilder V} (ps : PolySet V) :
  isEmpty ps = true →
  createNefPolyhedronFromPolySet ps = ([], Ok (mkNef None)).
Proof. intros Hempty. unfold createNefPolyhedronFromPolySet. by rewrite Hempty. Qed.

Lemma createNefPolyhedronFromPolySet_empty_witness :
  createNefPolyhedronFromPolySet (new_PolySet 3 None : PolySet nat)
  = ([], Ok (mkNef None)).
Proof. apply createNefPolyhedronFromPolySet_empty. reflexivity. Defined.

(** C4 (as amended).  In [createNefPolyhedronFromPolySet], on a mesh
    that is not empty, has dimension 3 and is not convex, let the first
    boundary construction, on the quantized faces, fail with a
    [CGAL::Assertion_exception] of message [what].  When [what] is that of
    the planarity assertion, the notice is logged and construction is
    retried exactly once, on the fully tessellated copy: the result is the
    structure this attempt builds, the empty geometry when the attempt
    reports an error by its flag, and the empty geometry with the failure
    reported when the attempt fails with a [CGAL::Assertion_exception]; an
    exception of another class leaves the function.  For any other [what]
    the failure is reported, nothing is retried and the result is the
    empty geometry.  So no [CGAL::Assertion_exception] of boundary
    construction leaves the function. *)
Theorem createNefPolyhedronFromPolySet_retry `{BoundaryBuilder V}
    (ps psq : PolySet V) (points3d : list V) (what : string) :
  isEmpty ps = false → getDimension ps = 3 →
  quantizeVertices ps = (psq, points3d) →
  is_convex (tessellate_faces psq (new_PolySet 3 (convexValue psq))) = false →
  construction_fails psq (Assertion_exception what) →
  let ps_tri := tessellate_faces psq (new_PolySet 3 (convexValue psq)) in
  createNefPolyhedronFromPolySet ps =
  if is_plane_error what then
    match retried ps_tri with
    | Value N =>
        ([Built psq; Logged nonplanar_notice; Built ps_tri], Ok (mkNef N))
    | Raise (Assertion_exception what') =>
        ([Built psq; Logged nonplanar_notice; Built ps_tri;
          Logged (alternate_failed what')], Ok (mkNef None))
    | Raise e =>
        ([Built psq; Logged nonplanar_notice; Built ps_tri],
         Crash (Uncaught (exception_what e)))
    end
  else ([Built psq; Logged (construct_failed what)], Ok (mkNef None)).
Proof.
  intros Hne Hdim Hq Hconv Hfails ps_tri.
  rewrite (createNefPolyhedronFromPolySet_nonconvex ps psq points3d) by done.
  fold ps_tri. unfold construct_boundary.
  rewrite (construct_exact_fails _ _ Hfails). simpl.
  unfold on_construct_error. destruct (is_plane_error what); simpl; [|done].
  rewrite construct_alternate_retried. simpl.
  by destruct (retried ps_tri) as [N|[]].
Qed.

Lemma createNefPolyhedronFromPolySet_retry_witness :
  let ps_tri :=
    mkPolySet [ mkPolygon false [0; 1; 2]; mkPolygon false [0; 2; 3];
                mkPolygon false [3; 2; 1]; mkPolygon false [3; 1; 0] ] 3 None in
  construction_fails two_squares (Assertion_exception planarity_message) ∧
  createNefPolyhedronFromPolySet two_squares =
  ([Built two_squares; Logged nonplanar_notice; Built ps_tri],
   Ok (mkNef (Some ps_tri))).
Proof.
  intros ps_tri.
  assert (construction_fails two_squares (Assertion_exception planarity_message))
    as Hfails.
  { right. exists two_squares. repeat split. }
  split; [exact Hfails|].
  exact (createNefPolyhedronFromPolySet_retry two_squares two_squares [3; 2; 1; 0]
           planarity_message eq_refl eq_refl eq_refl eq_refl Hfails).
Defined.

(** A precondition that fails inside the boundary constructor is an
    internal failure other than the planarity failure; it is not
    reported, and it leaves the function. *)
Lemma createNefPolyhedronFromPolySet_precondition_escapes :
  let B := rejecting (Precondition_exception precondition_message) in
  @construction_fails nat B two_squares (Precondition_exception precondition_message) ∧
  is_plane_error precondition_message = false ∧
  @createNefPolyhedronFromPolySet nat B two_squares
  = ([Built two_squares], Crash (Uncaught precondition_message)) ∧
  ¬ @failure_reported nat B two_squares.
Proof.
  intros B. split; [by left|]. split; [reflexivity|]. split; [reflexivity|].
  intros (trace & l & Hrun & _). discriminate Hrun.
Qed.

(** ** [is_approximately_convex] *)

Section searches.
Context `{K : Kernel}.
Implicit Types (keys : list Edge) (e key k : Edge).

Lemma equivalent_sym e e' : equivalent e e' = equivalent e' e.
Proof. unfold equivalent. apply andb_comm. Qed.

Lemma first_equivalent_Some keys k i :
  first_equivalent keys k = Some i →
  ∃ key, keys !! i = Some key ∧ equivalent key k = true.
Proof.
  revert i. induction keys as [|key keys IH]; intros i; simpl; [done|].
  destruct (equivalent key k) eqn:Hkey; [intros [= <-]; by exists key|].
  destruct (first_equivalent keys k) as [i'|]; [|done].
  intros [= <-]. by apply IH.
Qed.

Lemma first_equivalent_None keys k :
  first_equivalent keys k = None ↔ ∀ key, key ∈ keys → equivalent key k = false.
Proof.
  induction keys as [|key keys IH]; simpl.
  - split; [by intros _ ? ?%elem_of_nil|done].
  - destruct (equivalent key k) eqn:Hkey.
    + split; [done|]. intros Hall. rewrite Hall in Hkey; [done|by left].
    + destruct (first_equivalent keys k) as [i'|]; simpl.
      * split; [done|]. intros Hall.
        assert (Some i' = None) as [=]. apply IH.
        intros key' Hin. apply Hall. by right.
      * split; [|done]. intros _ key' [->|Hin]%elem_of_cons; [done|].
        by apply IH.
Qed.

(** The keys of a part of the keys are ordered as well. *)
Lemma strict_weak_ordering_subseteq keys keys' :
  (∀ k, k ∈ keys' → k ∈ keys) →
  strict_weak_ordering keys → strict_weak_ordering keys'.
Proof.
  intros Hsub (Hirr & Htrans & Heqv). split; [|split].
  - intros a Ha. apply Hirr. by apply Hsub.
  - intros a b c Ha Hb Hc. apply Htrans; by apply Hsub.
  - intros a b c Ha Hb Hc. apply Heqv; by apply Hsub.
Qed.
End searches.

(** What holds of every map, whatever its searches end on. *)
Section edge_map_any.
Context `{M : std_map}.
Implicit Types (m : Edge_to_facet_map) (e key k : Edge).

Lemma map_find_elem m e g : map_find m e = Some g → ∃ key, (key, g) ∈ m.
Proof.
  unfold map_find. destruct (node find_search m.*1 e) as [i|]; [|done]. simpl.
  destruct (m !! i) as [[key g']|] eqn:Hi; [|done]. intros [= <-].
  exists key. by eapply list_elem_of_lookup_2.
Qed.

Lemma elem_of_alter_value m i (v : nat) key g :
  (key, g) ∈ alter (λ kv : Edge * nat, (kv.1, v)) i m →
  (key, g) ∈ m ∨ (g = v ∧ ∃ g', (key, g') ∈ m).
Proof.
  intros [j Hj]%list_elem_of_lookup_1.
  rewrite list_lookup_alter in Hj.
  destruct (decide (i = j)) as [->|Hne].
  - destruct (m !! j) as [[key' g']|] eqn:Hm; [|done].
    simpl in Hj. injection Hj as <- <-. right. split; [done|]. exists g'.
    by eapply list_elem_of_lookup_2.
  - left. by eapply list_elem_of_lookup_2.
Qed.

Lemma map_assign_values n m k v :
  values_below n m → v < n → values_below n (map_assign m k v).
Proof.
  intros Hm Hv key g. unfold map_assign.
  destruct (node subscript_search m.*1 k) as [i|].
  - intros [Hin|[-> _]]%elem_of_alter_value; [by eapply Hm|done].
  - intros [Hin|[= -> ->]%list_elem_of_singleton]%elem_of_app; [by eapply Hm|done].
Qed.

Lemma map_subscript_values n m k g m' :
  0 < n → values_below n m → map_subscript m k = (g, m') →
  g < n ∧ values_below n m'.
Proof.
  intros Hn Hm. unfold map_subscript.
  destruct (node subscript_search m.*1 k) as [i|].
  - intros [= <- <-]. split; [|done].
    destruct (m !! i) as [[key g]|] eqn:Hi; simpl; [|done].
    eapply Hm. by eapply list_elem_of_lookup_2.
  - intros [= <- <-]. split; [done|].
    intros key g [Hin|[= -> ->]%list_elem_of_singleton]%elem_of_app;
      [by eapply Hm|done].
Qed.

(** For a comparator that orders the keys at hand, the map is the one
    that tries its entries one after the other. *)
Lemma map_find_ordered m k :
  strict_weak_ordering (k :: m.*1) → map_find m k = map_find (H0:=linear_map) m k.
Proof. intros Hord. unfold map_find. by rewrite (node_ordered find_search). Qed.

Lemma map_count_ordered m k :
  strict_weak_ordering (k :: m.*1) → map_count m k = map_count (H0:=linear_map) m k.
Proof. intros Hord. unfold map_count. by rewrite (node_ordered count_search). Qed.

Lemma map_assign_ordered m k v :
  strict_weak_ordering (k :: m.*1) →
  map_assign m k v = map_assign (H0:=linear_map) m k v.
Proof. intros Hord. unfold map_assign. by rewrite (node_ordered subscript_search). Qed.

Lemma map_subscript_ordered m k :
  strict_weak_ordering (k :: m.*1) →
  map_subscript m k = map_subscript (H0:=linear_map) m k.
Proof.
  intros Hord. unfold map_subscript. by rewrite (node_ordered subscript_search).
Qed.
End edge_map_any.

(** The map that tries its entries one after the other. *)
Section edge_map.
Context `{K : Kernel}.
Implicit Types (m : Edge_to_facet_map) (e key : Edge).

Lemma map_find_cases m e :
  (first_equivalent m.*1 e = None ∧ map_find m e = None) ∨
  (∃ i key g, first_equivalent m.*1 e = Some i ∧ m !! i = Some (key, g) ∧
              equivalent key e = true ∧ map_find m e = Some g).
Proof.
  unfold map_find.
  change (node find_search m.*1 e) with (first_equivalent m.*1 e).
  destruct (first_equivalent m.*1 e) as [i|] eqn:Hfirst;
    [right|left; split; reflexivity].
  destruct (first_equivalent_Some _ _ _ Hfirst) as (key & Hi & Hkey).
  rewrite list_lookup_fmap in Hi.
  destruct (m !! i) as [[key' g]|] eqn:Hm; [|done].
  injection Hi as ->. exists i, key, g. simpl. by rewrite Hm.
Qed.

Lemma map_find_None m e :
  map_find m e = None ↔ ∀ key g, (key, g) ∈ m → equivalent key e = false.
Proof.
  destruct (map_find_cases m e) as [[Hfirst ->]|(i & key & g & _ & Hi & Hkey & ->)].
  - split; [|done]. intros _ key g Hin.
    rewrite first_equivalent_None in Hfirst. apply Hfirst.
    apply list_elem_of_fmap. by exists (key, g).
  - split; [done|]. intros Hall.
    rewrite (Hall key g) in Hkey; [done|by eapply list_elem_of_lookup_2].
Qed.

Lemma map_find_Some m e g :
  map_find m e = Some g → ∃ key, (key, g) ∈ m ∧ equivalent key e = true.
Proof.
  destruct (map_find_cases m e) as [[_ ->]|(i & key & g' & _ & Hi & Hkey & ->)];
    [done|].
  intros [= <-]. exists key. split; [by eapply list_elem_of_lookup_2|done].
Qed.

Lemma map_find_is_Some m e key g :
  (key, g) ∈ m → equivalent key e = true → is_Some (map_find m e).
Proof.
  intros Hin Heq. destruct (map_find m e) eqn:Hf; [eauto|].
  rewrite map_find_None in Hf. rewrite (Hf _ _ Hin) in Heq. done.
Qed.

Lemma map_count_0 m e : (map_count m e =? 0) = true ↔ map_find m e = None.
Proof.
  unfold map_count.
  change (node count_search m.*1 e) with (first_equivalent m.*1 e).
  by destruct (map_find_cases m e) as [[-> ->]|(i & key & g & -> & _ & _ & ->)].
Qed.

Lemma map_assign_fresh m e i : map_find m e = None → map_assign m e i = m ++ [(e, i)].
Proof.
  unfold map_assign.
  change (node subscript_search m.*1 e) with (first_equivalent m.*1 e).
  by destruct (map_find_cases m e) as [[-> ->]|(? & key & g & -> & _ & _ & ->)].
Qed.

Lemma map_subscript_found m e g : map_find m e = Some g → map_subscript m e = (g, m).
Proof.
  unfold map_subscript.
  change (node subscript_search m.*1 e) with (first_equivalent m.*1 e).
  destruct (map_find_cases m e) as [[-> ->]|(? & key & g' & -> & Hi & _ & ->)];
    [done|].
  intros [= <-]. by rewrite Hi.
Qed.
End edge_map.

Section first_loop.
Context `{K : Kernel} (ps : PolySet Vector3d).
Implicit Types (m : Edge_to_facet_map) (e key : Edge).

Lemma face_edge_Some i j e :
  face_edge ps i j = Some e →
  ∃ poly, polygons ps !! i = Some poly ∧ j < length (vertices poly) ∧
          vertices poly !! j = Some e.1 ∧
          vertices poly !! ((j + 1) mod length (vertices poly)) = Some e.2.
Proof.
  unfold face_edge. destruct (polygons ps !! i) as [poly|]; [|done]. simpl.
  destruct (vertices poly !! j) as [pj|] eqn:Hj; [|done]. simpl.
  destruct (vertices poly !! ((j + 1) mod length (vertices poly))) as [pj1|] eqn:Hj1;
    [|done]. simpl.
  intros [= Heq]. subst e. exists poly. apply lookup_lt_Some in Hj as ?. done.
Qed.

Lemma face_edge_eq i j poly pj pj1 :
  polygons ps !! i = Some poly → vertices poly !! j = Some pj →
  vertices poly !! ((j + 1) mod length (vertices poly)) = Some pj1 →
  face_edge ps i j = Some (pj, pj1).
Proof. unfold face_edge. intros -> Hj Hj1. simpl. rewrite Hj. simpl. by rewrite Hj1. Qed.

Lemma registered_edge_Some i j e :
  registered_edge ps i j = Some e →
  ∃ poly, polygons ps !! i = Some poly ∧ 3 ≤ length (vertices poly) ∧
          j < length (vertices poly) ∧ face_edge ps i j = Some e.
Proof.
  unfold registered_edge. destruct (polygons ps !! i) as [poly|] eqn:Hi; [|done].
  cbn [mbind option_bind]. destruct (3 <=? length (vertices poly)) eqn:HN; [|done].
  intros He. exists poly. apply Nat.leb_le in HN.
  destruct (face_edge_Some _ _ _ He) as (poly' & Hi' & ? & _).
  replace poly' with poly in * by congruence. repeat split; auto.
Qed.

Lemma registered_edge_eq i j poly :
  polygons ps !! i = Some poly → 3 ≤ length (vertices poly) →
  registered_edge ps i j = face_edge ps i j.
Proof.
  intros Hi HN. unfold registered_edge. rewrite Hi. cbn [mbind option_bind].
  by replace (3 <=? length (vertices poly)) with true
    by (symmetry; apply Nat.leb_le; lia).
Qed.

(** On a mesh of proper faces every edge is registered. *)
Lemma registered_edge_proper i j :
  proper_faces ps → registered_edge ps i j = face_edge ps i j.
Proof.
  intros Hproper. destruct (polygons ps !! i) as [poly|] eqn:Hi.
  - apply (registered_edge_eq _ _ poly); [done|].
    unfold proper_faces in Hproper. rewrite Forall_forall in Hproper.
    apply Hproper. by apply list_elem_of_lookup_2 in Hi.
  - unfold registered_edge, face_edge. by rewrite Hi.
Qed.

Lemma edges_upto_nil : edges_upto ps 0 0 [].
Proof.
  repeat split.
  - by intros ?? ?%elem_of_nil.
  - intros ??? [?|[_ ?]]; lia.
  - intros ?????? [?|[_ ?]]; lia.
Qed.

(** Once the registered edges of face [i] are in, the next face starts. *)
Lemma edges_upto_next_face i j m :
  (∀ j' e, registered_edge ps i j' = Some e → j' < j) →
  edges_upto ps i j m → edges_upto ps (S i) 0 m.
Proof.
  intros Hall (E1 & E2 & A).
  assert (∀ g j' e, registered_edge ps g j' = Some e →
            done_before (S i) 0 g j' → done_before i j g j') as Hdone.
  { intros g j' e He [?|[_ ?]]; [|lia].
    destruct (decide (g = i)) as [->|]; [|left; lia].
    right. split; [done|]. by eapply Hall. }
  repeat split.
  - intros key g Hin. destruct (E1 key g Hin) as (j' & [?|[-> ?]] & He);
      exists j'; (split; [left; lia|done]).
  - intros g j' e Hd He. eapply E2; [|done]. by eapply Hdone.
  - intros g j1 g' j2 e e' Hd1 Hd2 He He' Hne.
    eapply (A g j1 g' j2); eauto.
Qed.

Lemma edges_upto_step i j m e :
  registered_edge ps i j = Some e → map_find m e = None →
  edges_upto ps i j m → edges_upto ps i (S j) (m ++ [(e, i)]).
Proof.
  intros He Hfresh (E1 & E2 & A). rewrite map_find_None in Hfresh.
  assert (∀ g j', done_before i (S j) g j' ↔
                  done_before i j g j' ∨ (g = i ∧ j' = j)) as Hdone.
  { intros g j'. unfold done_before. lia. }
  repeat split.
  - intros key g [Hin|[= -> ->]%list_elem_of_singleton]%elem_of_app.
    + destruct (E1 key g Hin) as (j' & Hd & Hk). exists j'.
      split; [apply Hdone; by left|done].
    + exists j. split; [apply Hdone; by right|done].
  - intros g j' e' [Hd|[-> ->]]%Hdone He'; apply elem_of_app.
    + left. by eapply E2.
    + right. apply list_elem_of_singleton. congruence.
  - intros g j1 g' j2 e1 e2 [Hd1|[-> ->]]%Hdone [Hd2|[-> ->]]%Hdone He1 He2 Hne.
    + by eapply (A g j1 g' j2).
    + replace e2 with e by congruence. eapply Hfresh, E2; done.
    + replace e1 with e by congruence. rewrite equivalent_sym.
      eapply Hfresh, E2; done.
    + done.
Qed.

Lemma edges_upto_owner m key g :
  edges_upto ps (length (polygons ps)) 0 m → (key, g) ∈ m →
  g < length (polygons ps) ∧ ∃ j, face_edge ps g j = Some key.
Proof.
  intros (E1 & _) Hin. destruct (E1 _ _ Hin) as (j & [?|[_ ?]] & He); [|lia].
  split; [done|]. apply registered_edge_Some in He as (_ & _ & _ & _ & He). eauto.
Qed.

(** The first loop either returns false or leaves the map of all
    registered edges and the planes of all faces. *)
Lemma facet_edges_and_planes_cases :
  (∃ m, facet_edges_and_planes ps = Next (m, facet_plane <$> polygons ps) ∧
        edges_upto ps (length (polygons ps)) 0 m)
  ∨ facet_edges_and_planes ps = Return false.
Proof.
  unfold facet_edges_and_planes.
  match goal with |- context [for_each _ ?b ?s] =>
    destruct (for_each_seq_cases
      (λ k st, edges_upto ps k 0 st.1 ∧ st.2 = facet_plane <$> take k (polygons ps))
      (λ r : bool, r = false) (λ _, False) (length (polygons ps)) b s)
      as [([m planes] & -> & Hm & Hplanes)|[(r & -> & ->)|(f & _ & [])]]
  end.
  - split; [apply edges_upto_nil|done].
  - intros k [m planes] Hk [Hm Hplanes]. simpl in Hm, Hplanes.
    destruct (lookup_lt_is_Some_2 (polygons ps) k Hk) as [poly Hpoly].
    rewrite (at_Next _ _ _ Hpoly). cbn [mbind step_bind].
    assert (planes ++ [facet_plane poly]
            = facet_plane <$> take (S k) (polygons ps)) as Hplanes'.
    { by rewrite Hplanes, (take_S_r _ _ poly), fmap_app. }
    destruct (3 <=? length (vertices poly)) eqn:HN.
    2:{ cbn [mbind step_bind]. left. eexists. split; [done|]. simpl. split.
        - apply (edges_upto_next_face k 0); [|done].
          intros j' e. unfold registered_edge. rewrite Hpoly.
          cbn [mbind option_bind]. by rewrite HN.
        - rewrite <- Hplanes'. unfold facet_plane. by rewrite HN. }
    apply Nat.leb_le in HN.
    match goal with |- context [for_each _ ?b ?s] =>
      destruct (for_each_seq_cases
        (λ j st, edges_upto ps k j st.1 ∧
                 st.2 = vector_convert <$> take j (vertices poly))
        (λ r : bool, r = false) (λ _, False) (length (vertices poly)) b s)
        as [([m' v] & -> & Hm' & Hv)|[(r & -> & ->)|(f & _ & [])]]
    end.
    + simpl. by split.
    + intros j [m1 v1] Hj [Hm1 Hv1]. simpl in Hm1, Hv1.
      destruct (lookup_lt_is_Some_2 (vertices poly) j Hj) as [pj Hpj].
      destruct (lookup_lt_is_Some_2 (vertices poly)
                  ((j + 1) mod length (vertices poly))) as [pj1 Hpj1].
      { apply Nat.mod_upper_bound. lia. }
      rewrite (at_Next _ _ _ Hpj). cbn [mbind step_bind].
      rewrite (at_Next _ _ _ Hpj1). cbn [mbind step_bind].
      pose proof (face_edge_eq _ _ _ _ _ Hpoly Hpj Hpj1) as He.
      rewrite <- (registered_edge_eq _ _ poly) in He by done.
      match goal with |- context [negb ?c] => destruct c eqn:Hcount end; simpl.
      * apply map_count_0 in Hcount. rewrite map_assign_fresh by done.
        left. eexists. split; [done|]. simpl. split.
        -- by apply edges_upto_step.
        -- rewrite Hv1. by rewrite (take_S_r _ _ pj), fmap_app.
      * right; left. eauto.
    + simpl in Hm', Hv. cbn [mbind step_bind].
      rewrite firstn_all in Hv. subst v.
      destruct (vertices poly) as [|p0 rest] eqn:Hvs; [simpl in HN; lia|].
      rewrite <- Hvs in *.
      assert (at_ (R:=bool) (vector_convert <$> vertices poly) 0
              = Next (vector_convert p0)) as ->.
      { apply at_Next. by rewrite Hvs. }
      cbn [mbind step_bind].
      left. eexists. split; [done|]. simpl. split.
      -- apply (edges_upto_next_face k (length (vertices poly))); [|done].
         by intros j' e (poly' & Hp' & _ & ? & _)%registered_edge_Some;
           replace poly' with poly in * by congruence.
      -- rewrite <- Hplanes'. f_equal. f_equal. unfold facet_plane.
         replace (3 <=? length (vertices poly)) with true
           by (symmetry; apply Nat.leb_le; lia).
         by rewrite Hvs.
    + right; left. eauto.
  - left. exists m. simpl in *. rewrite firstn_all in Hplanes. by subst.
  - by right.
Qed.
End first_loop.

Section second_loop.
Context `{K : Kernel} (ps : PolySet Vector3d).
Implicit Types (m : Edge_to_facet_map) (e key : Edge).

Lemma check_neighbours_cases angle_threshold m :
  edges_upto ps (length (polygons ps)) 0 m →
  (check_neighbours ps angle_threshold (facet_plane <$> polygons ps) m = Next m ∧
   neighbours_ok ps angle_threshold m (length (polygons ps)) 0)
  ∨ check_neighbours ps angle_threshold (facet_plane <$> polygons ps) m
    = Return false.
Proof.
  intros Hm. unfold check_neighbours.
  match goal with |- context [for_each _ ?b ?s] =>
    destruct (for_each_seq_cases
      (λ k st, st = m ∧ neighbours_ok ps angle_threshold m k 0)
      (λ r : bool, r = false) (λ _, False) (length (polygons ps)) b s)
      as [(? & -> & -> & Hok)|[(r & -> & ->)|(f & _ & [])]]
  end.
  - split; [done|]. intros F j' e polyF [?|[_ ?]]; lia.
  - intros k ? Hk [-> Hok].
    destruct (lookup_lt_is_Some_2 (polygons ps) k Hk) as [poly Hpoly].
    rewrite (at_Next _ _ _ Hpoly). cbn [mbind step_bind].
    assert (∀ j, (∀ j' e, registered_edge ps k j' = Some e → j' < j) →
              neighbours_ok ps angle_threshold m k j →
              neighbours_ok ps angle_threshold m (S k) 0) as Hface.
    { intros j Hall Hokj F j' e polyF Hd HeF HF.
      apply (Hokj F j' e polyF); [|done..].
      destruct Hd as [?|[_ ?]]; [|lia].
      destruct (decide (F = k)) as [->|]; [|left; lia].
      right. split; [done|]. by eapply Hall. }
    destruct (length (vertices poly) <? 3) eqn:HN.
    { left. eexists. split; [done|]. split; [done|].
      apply (Hface 0); [|done]. apply Nat.ltb_lt in HN.
      intros j' e (poly' & Hp' & ? & _)%registered_edge_Some.
      replace poly' with poly in * by congruence. lia. }
    apply Nat.ltb_ge in HN.
    match goal with |- context [for_each _ ?b ?s] =>
      destruct (for_each_seq_cases
        (λ j st, st = m ∧ neighbours_ok ps angle_threshold m k j)
        (λ r : bool, r = false) (λ _, False) (length (vertices poly)) b s)
        as [(? & -> & -> & Hok')|[(r & -> & ->)|(f & _ & [])]]
    end.
    + done.
    + intros j ? Hj [-> Hokj].
      assert (∀ x, x mod length (vertices poly) < length (vertices poly)) as Hmod.
      { intros x. apply Nat.mod_upper_bound. lia. }
      destruct (lookup_lt_is_Some_2 (vertices poly) j Hj) as [pj Hpj].
      destruct (lookup_lt_is_Some_2 (vertices poly) _ (Hmod (j + 1))) as [pj1 Hpj1].
      destruct (lookup_lt_is_Some_2 (vertices poly) _ (Hmod (j + 2))) as [pj2 Hpj2].
      rewrite (at_Next _ _ _ Hpj1). cbn [mbind step_bind].
      rewrite (at_Next _ _ _ Hpj). cbn [mbind step_bind].
      pose proof (face_edge_eq _ _ _ _ _ _ Hpoly Hpj Hpj1) as He.
      rewrite <- (registered_edge_eq _ _ _ poly) in He by done.
      destruct (map_find m (pj1, pj)) as [G|] eqn:Hfind.
      2:{ right; left. rewrite (proj2 (map_count_0 _ _) Hfind). eauto. }
      replace (map_count m (pj1, pj) =? 0) with false
        by (symmetry; apply not_true_is_false; rewrite map_count_0; congruence).
      rewrite (map_subscript_found _ _ _ Hfind).
      rewrite (at_Next _ _ _ Hpj2). cbn [mbind step_bind].
      destruct (map_find_Some _ _ _ Hfind) as (key & Hin & Hkey).
      destruct (edges_upto_owner _ _ _ _ Hm Hin) as [HG _].
      destruct (lookup_lt_is_Some_2 (polygons ps) G HG) as [polyG HpolyG].
      assert (∀ g poly', polygons ps !! g = Some poly' →
                at_ (R:=bool) (facet_plane <$> polygons ps) g
                = Next (facet_plane poly')) as Hplane.
      { intros g poly' Hg. apply at_Next. by rewrite list_lookup_fmap, Hg. }
      rewrite (Hplane _ _ HpolyG). cbn [mbind step_bind].
      assert (∀ ok : Prop, ok →
                (∀ p, vertices poly !! ((j + 2) mod length (vertices poly)) = Some p →
                      has_on_positive_side (facet_plane polyG) (vector_convert p) = true →
                      FT_lt (cos_angle (orthogonal_vector (facet_plane polyG))
                                       (orthogonal_vector (facet_plane poly)))
                            angle_threshold = false) →
                neighbours_ok ps angle_threshold m k (S j)) as Hnext.
      { intros _ _ Hangle F j' e polyF Hd HeF HF.
        assert (done_before k j F j' ∨ (F = k ∧ j' = j)) as [Hd'|[-> ->]]
          by (unfold done_before in *; lia).
        - by apply (Hokj F j' e polyF).
        - replace polyF with poly in * by congruence.
          replace e with (pj, pj1) in * by congruence.
          exists G, polyG. done. }
      destruct (has_on_positive_side (facet_plane polyG) (vector_convert pj2)) eqn:Hside.
      * rewrite (Hplane _ _ Hpoly). cbn [mbind step_bind].
        destruct (FT_lt _ angle_threshold) eqn:Hlt.
        -- right; left. eauto.
        -- left. eexists. split; [done|]. split; [done|].
           apply (Hnext True I). by intros p Hp _.
      * left. eexists. split; [done|]. split; [done|].
        apply (Hnext True I). intros p Hp Hside'.
        replace p with pj2 in * by congruence. congruence.
    + left. eexists. split; [done|]. split; [done|].
      apply (Hface (length (vertices poly))); [|done].
      intros j' e (poly' & Hp' & _ & ? & _)%registered_edge_Some.
      by replace poly' with poly in * by congruence.
    + right; left. eauto.
  - by left.
  - by right.
Qed.
End second_loop.

Section traversal.
Context `{K : Kernel} (ps : PolySet Vector3d).
Implicit Types (m : Edge_to_facet_map) (e key : Edge)
  (explored : gset nat) (queue : list nat).

Lemma reached_size explored :
  (∀ g, g ∈ explored → reached ps g) → size explored ≤ length (polygons ps).
Proof.
  intros Hreached.
  rewrite <- (size_set_seq (C:=gset nat) 0 (length (polygons ps))).
  apply subseteq_size. intros g Hg. apply elem_of_set_seq.
  destruct (Hreached g Hg). lia.
Qed.

Lemma explore_facets_cases m fuel explored queue :
  edges_upto ps (length (polygons ps)) 0 m →
  (∀ g, g ∈ explored → reached ps g) →
  (∀ f, f ∈ queue → f ∈ explored) →
  length queue + length (polygons ps) - size explored < fuel →
  (∃ explored', explore_facets fuel ps m explored queue = Next explored' ∧
                ∀ g, g ∈ explored' → reached ps g)
  ∨ explore_facets fuel ps m explored queue = Return false.
Proof.
  intros Hm. revert explored queue.
  induction fuel as [|fuel IH]; intros explored queue Hreached Hqueue Hfuel; [lia|].
  destruct queue as [|f rest]; simpl; [left; eauto|].
  pose proof (reached_size _ Hreached) as Hsize.
  destruct (Hreached f) as [Hf Hrf]; [apply Hqueue; by left|].
  destruct (lookup_lt_is_Some_2 (polygons ps) f Hf) as [poly Hpoly].
  rewrite (at_Next _ _ _ Hpoly). cbn [mbind step_bind].
  match goal with |- context [for_each _ ?b ?s] =>
    destruct (for_each_seq_cases
      (λ (_ : nat) (st : gset nat * list nat),
         (∀ g, g ∈ st.1 → reached ps g) ∧ (∀ f', f' ∈ st.2 → f' ∈ st.1) ∧
         length st.2 + size explored = length rest + size st.1)
      (λ r : bool, r = false) (λ _, False) (length (vertices poly)) b s)
      as [([ex q] & -> & Hr & Hq & Hcount)|[(r & -> & ->)|(f0 & _ & [])]]
  end.
  - simpl. split; [done|]. split; [|done]. intros f' Hf'. apply Hqueue. by right.
  - intros i [ex q] Hi (Hr & Hq & Hcount). simpl in Hr, Hq, Hcount.
    destruct (lookup_lt_is_Some_2 (vertices poly) i Hi) as [pi Hpi].
    destruct (lookup_lt_is_Some_2 (vertices poly)
                ((i + 1) mod length (vertices poly))) as [pj Hpj].
    { apply Nat.mod_upper_bound. lia. }
    rewrite (at_Next _ _ _ Hpj). cbn [mbind step_bind].
    rewrite (at_Next _ _ _ Hpi). cbn [mbind step_bind].
    destruct (map_find m (pj, pi)) as [g|] eqn:Hfind; [|right; left; eauto].
    destruct (map_find_Some _ _ _ Hfind) as (key & Hin & Hkey).
    destruct (edges_upto_owner _ _ _ _ Hm Hin) as [Hg [j' Hj']].
    assert (reached ps g) as Hrg.
    { split; [done|]. eapply rtc_r; [done|].
      exists i, (pi, pj), j', key. split; [|done].
      by apply (face_edge_eq _ _ _ poly). }
    left. case_bool_decide as Hseen; (eexists; split; [done|]); simpl.
    + done.
    + split; [|split].
      * intros g' [Hg'%elem_of_singleton|?]%elem_of_union; [by subst|by apply Hr].
      * intros f' [?|Hf'%list_elem_of_singleton]%elem_of_app;
          apply elem_of_union; [right; by apply Hq|left; by apply elem_of_singleton].
      * rewrite length_app, size_union, size_singleton by set_solver. simpl. lia.
  - simpl in Hr, Hq, Hcount. cbn [mbind step_bind].
    apply IH; [done..|].
    pose proof (reached_size _ Hr). simpl in Hfuel. lia.
  - by right.
Qed.
End traversal.

Section conditions.
Context `{K : Kernel} (ps : PolySet Vector3d).
Hypothesis Hproper : proper_faces ps.
Hypothesis Hord : strict_weak_ordering (mesh_keys ps).

Lemma mesh_keys_elem i poly a b :
  polygons ps !! i = Some poly → a ∈ vertices poly → b ∈ vertices poly →
  (a, b) ∈ mesh_keys ps.
Proof.
  intros Hi Ha Hb. unfold mesh_keys.
  apply list_elem_of_bind. exists poly. split; [|by eapply list_elem_of_lookup_2].
  apply list_elem_of_bind. exists a. split; [|done].
  apply list_elem_of_bind. exists b. split; [|done].
  by apply list_elem_of_singleton.
Qed.

Lemma face_edge_keys i j e :
  face_edge ps i j = Some e → e ∈ mesh_keys ps ∧ reverse e ∈ mesh_keys ps.
Proof.
  intros (poly & Hi & _ & H1 & H2)%face_edge_Some.
  apply list_elem_of_lookup_2 in H1, H2. destruct e as [a b].
  split; by eapply mesh_keys_elem.
Qed.

Lemma equivalent_trans a b c :
  a ∈ mesh_keys ps → b ∈ mesh_keys ps → c ∈ mesh_keys ps →
  equivalent a b = true → equivalent b c = true → equivalent a c = true.
Proof.
  intros Ha Hb Hc. destruct Hord as (_ & _ & Heqv). by apply Heqv.
Qed.

(** From the states the loops leave behind to the conditions. *)
Lemma conditions_of_loops m (explored : gset nat) :
  edges_upto ps (length (polygons ps)) 0 m →
  neighbours_ok ps (cos_degrees FT_point_one) m (length (polygons ps)) 0 →
  (∀ g, g ∈ explored → reached ps g) →
  size explored = length (polygons ps) →
  convexity_conditions not_below_threshold ps.
Proof.
  intros Hm Hok Hreached Hsize.
  assert (∀ g j e, face_edge ps g j = Some e →
            done_before (length (polygons ps)) 0 g j ∧
            registered_edge ps g j = Some e) as Hdone.
  { intros g j e He. rewrite registered_edge_proper by done. split; [|done].
    apply face_edge_Some in He as (poly & Hg & _). left. by eapply lookup_lt_Some. }
  pose proof Hm as (E1 & E2 & A).
  assert (manifold_edges ps) as Hmanifold.
  { intros i j i' j' e e' [??]%Hdone [??]%Hdone Hne. by eapply (A i j i' j'). }
  split; [done|]. split; [|split].
  - intros i j e He.
    destruct (face_edge_Some _ _ _ _ He) as (poly & Hi & _).
    apply Hdone in He as [Hd He].
    destruct (Hok i j e poly) as (G & polyG & Hfind & _); [done..|].
    destruct (map_find_Some _ _ _ Hfind) as (key & Hin & Hkey).
    destruct (edges_upto_owner _ _ _ _ Hm Hin) as [_ [j' Hj']].
    by exists G, j', key.
  - intros F j e G j' e' polyF polyG p He He' Hrev HF HG Hp Hside.
    destruct (Hdone _ _ _ He) as [Hd Hr].
    destruct (Hok F j e polyF) as (G0 & polyG0 & Hfind & HG0 & Hangle); [done..|].
    assert (G0 = G) as ->.
    { destruct (map_find_Some _ _ _ Hfind) as (key & Hin & Hkey).
      destruct (edges_upto_owner _ _ _ _ Hm Hin) as [_ [j0 Hj0]].
      destruct (decide (G0 = G)) as [|Hne]; [done|].
      assert (equivalent key e' = false) as Hdiff.
      { eapply (Hmanifold G0 j0 G j'); [done..|]. congruence. }
      destruct (face_edge_keys _ _ _ He) as [_ Hrk].
      destruct (face_edge_keys _ _ _ He') as [He'k _].
      destruct (face_edge_keys _ _ _ Hj0) as [Hkk _].
      rewrite (equivalent_trans key (reverse e) e') in Hdiff; try done.
      by rewrite equivalent_sym. }
    replace polyG0 with polyG in * by congruence.
    exact (Hangle p Hp Hside).
  - intros i Hi. apply Hreached.
    assert (explored = set_seq 0 (length (polygons ps))) as ->.
    { apply set_subseteq_size_eq.
      - intros g Hg. apply elem_of_set_seq. destruct (Hreached g Hg). lia.
      - rewrite size_set_seq. lia. }
    apply elem_of_set_seq. lia.
Qed.
End conditions.

(** With the map that tries its entries one after the other, the
    function returns on every mesh with a face, and on a mesh of proper
    faces whose keys the comparator orders it returns true only under the
    conditions. *)
Lemma is_approximately_convex_returns `{Kernel} (ps : PolySet Vector3d) :
  polygons ps ≠ [] →
  ∃ b, is_approximately_convex ps = Ok b ∧
       (b = true → proper_faces ps → strict_weak_ordering (mesh_keys ps) →
        convexity_conditions not_below_threshold ps).
Proof.
  intros Hne. unfold is_approximately_convex.
  destruct (facet_edges_and_planes_cases ps) as [(m & Hfirst & Hm)|Hfirst];
    rewrite Hfirst; [|by exists false]; cbn [mbind step_bind].
  destruct (check_neighbours_cases ps (cos_degrees FT_point_one) m Hm)
    as [[Hsecond Hok]|Hsecond]; rewrite Hsecond; [|by exists false];
    cbn [mbind step_bind].
  assert (0 < length (polygons ps)) as Hlen.
  { destruct (polygons ps); [done|simpl; lia]. }
  destruct (explore_facets_cases ps m (S (length (polygons ps))) {[0]} [0] Hm)
    as [(explored & Hthird & Hreached)|Hthird];
    [| | |rewrite Hthird; cbn [mbind step_bind run]|rewrite Hthird; by exists false].
  - intros g Hg%elem_of_singleton. subst g. split; [done|apply rtc_refl].
  - intros f Hf%list_elem_of_singleton. subst f. by apply elem_of_singleton.
  - rewrite size_singleton. simpl. lia.
  - eexists. split; [done|]. intros Hsize%bool_decide_eq_true Hproper Hord.
    by eapply conditions_of_loops.
Qed.

(** The conditions hold of a mesh without faces. *)
Lemma convexity_conditions_empty `{Kernel} (accepted : FT → Prop)
    (ps : PolySet Vector3d) :
  polygons ps = [] → convexity_conditions accepted ps.
Proof.
  intros Hempty.
  assert (∀ i j, face_edge ps i j = None) as Hnone.
  { intros i j. unfold face_edge. by rewrite Hempty. }
  repeat split.
  - intros i j ?? e ?. by rewrite Hnone.
  - intros i j e. by rewrite Hnone.
  - intros F j e ???????. by rewrite Hnone.
  - intros i. rewrite Hempty. simpl. lia.
Qed.

Lemma tessellated_proper {V} (ps : PolySet V) : tessellated ps → proper_faces ps.
Proof.
  intros Htess. eapply Forall_impl; [exact Htess|]. intros poly Hpoly.
  simpl in *. lia.
Qed.

(** The tetrahedron is accepted. *)
Example is_approximately_convex_tetrahedron :
  is_approximately_convex tetrahedron = Ok true.
Proof. vm_compute. reflexivity. Qed.

(** Without the tessellation the conclusion is lost: a face of two
    vertices registers no edge, so the edge it shares with a triangle is
    not seen to repeat. *)
Example is_approximately_convex_digon :
  is_approximately_convex tetrahedron_behind_digon = Ok true ∧
  ¬ convexity_conditions not_below_threshold tetrahedron_behind_digon.
Proof.
  split; [vm_compute; reflexivity|].
  intros [Hmanifold _].
  specialize (Hmanifold 0 0 1 0 _ _ eq_refl eq_refl).
  assert ((0, 0) ≠ (1, 0)) as Hne by (intros [=]).
  apply Hmanifold in Hne. vm_compute in Hne. discriminate Hne.
Qed.

(** C10.  [is_approximately_convex] needs a mesh with a face: on a mesh
    without polygons the traversal takes face 0 from the queue and reads
    [ps.polygons[0]] out of bounds. *)
Theorem is_approximately_convex_empty `{std_map} (ps : PolySet Vector3d) :
  polygons ps = [] → is_approximately_convex ps = Crash OutOfBounds.
Proof.
  destruct ps as [polys dim convex]. simpl. intros ->. reflexivity.
Qed.

Lemma is_approximately_convex_empty_witness :
  is_approximately_convex (float_mesh []) = Crash OutOfBounds.
Proof. apply is_approximately_convex_empty. reflexivity. Defined.

(** ** [is_approximately_convex] with any map *)

(** Whatever entries the searches of the map end on, the faces it files
    edges under exist, and so do the planes the function reads. *)
Section any_map.
Context `{M : std_map} (ps : PolySet Vector3d).
Implicit Types (m : Edge_to_facet_map) (e key : Edge)
  (explored : gset nat) (queue : list nat).

Lemma facet_edges_and_planes_returns :
  (∃ m, facet_edges_and_planes ps = Next (m, facet_plane <$> polygons ps) ∧
        values_below (length (polygons ps)) m)
  ∨ facet_edges_and_planes ps = Return false.
Proof.
  unfold facet_edges_and_planes.
  match goal with |- context [for_each _ ?b ?s] =>
    destruct (for_each_seq_cases
      (λ k st, values_below (length (polygons ps)) st.1 ∧
               st.2 = facet_plane <$> take k (polygons ps))
      (λ r : bool, r = false) (λ _, False) (length (polygons ps)) b s)
      as [([m planes] & -> & Hm & Hplanes)|[(r & -> & ->)|(f & _ & [])]]
  end.
  - split; [by intros ?? ?%elem_of_nil|done].
  - intros k [m planes] Hk [Hm Hplanes]. simpl in Hm, Hplanes.
    destruct (lookup_lt_is_Some_2 (polygons ps) k Hk) as [poly Hpoly].
    rewrite (at_Next _ _ _ Hpoly). cbn [mbind step_bind].
    assert (planes ++ [facet_plane poly]
            = facet_plane <$> take (S k) (polygons ps)) as Hplanes'.
    { by rewrite Hplanes, (take_S_r _ _ poly), fmap_app. }
    destruct (3 <=? length (vertices poly)) eqn:HN.
    2:{ cbn [mbind step_bind]. left. eexists. split; [done|]. simpl.
        split; [done|]. rewrite <- Hplanes'. unfold facet_plane. by rewrite HN. }
    apply Nat.leb_le in HN.
    match goal with |- context [for_each _ ?b ?s] =>
      destruct (for_each_seq_cases
        (λ j st, values_below (length (polygons ps)) st.1 ∧
                 st.2 = vector_convert <$> take j (vertices poly))
        (λ r : bool, r = false) (λ _, False) (length (vertices poly)) b s)
        as [([m' v] & -> & Hm' & Hv)|[(r & -> & ->)|(f & _ & [])]]
    end.
    + simpl. by split.
    + intros j [m1 v1] Hj [Hm1 Hv1]. simpl in Hm1, Hv1.
      destruct (lookup_lt_is_Some_2 (vertices poly) j Hj) as [pj Hpj].
      destruct (lookup_lt_is_Some_2 (vertices poly)
                  ((j + 1) mod length (vertices poly))) as [pj1 Hpj1].
      { apply Nat.mod_upper_bound. lia. }
      rewrite (at_Next _ _ _ Hpj). cbn [mbind step_bind].
      rewrite (at_Next _ _ _ Hpj1). cbn [mbind step_bind].
      match goal with |- context [negb ?c] => destruct c end; simpl.
      * left. eexists. split; [done|]. simpl. split.
        -- by apply map_assign_values.
        -- rewrite Hv1. by rewrite (take_S_r _ _ pj), fmap_app.
      * right; left. eauto.
    + simpl in Hm', Hv. cbn [mbind step_bind].
      rewrite firstn_all in Hv. subst v.
      destruct (vertices poly) as [|p0 rest] eqn:Hvs; [simpl in HN; lia|].
      rewrite <- Hvs in *.
      assert (at_ (R:=bool) (vector_convert <$> vertices poly) 0
              = Next (vector_convert p0)) as ->.
      { apply at_Next. by rewrite Hvs. }
      cbn [mbind step_bind].
      left. eexists. split; [done|]. simpl. split; [done|].
      rewrite <- Hplanes'. f_equal. f_equal. unfold facet_plane.
      replace (3 <=? length (vertices poly)) with true
        by (symmetry; apply Nat.leb_le; lia).
      by rewrite Hvs.
    + right; left. eauto.
  - left. exists m. simpl in *. rewrite firstn_all in Hplanes. by subst.
  - by right.
Qed.

Lemma check_neighbours_returns angle_threshold m :
  values_below (length (polygons ps)) m →
  (∃ m', check_neighbours ps angle_threshold (facet_plane <$> polygons ps) m
         = Next m' ∧ values_below (length (polygons ps)) m')
  ∨ check_neighbours ps angle_threshold (facet_plane <$> polygons ps) m
    = Return false.
Proof.
  intros Hm. unfold check_neighbours.
  match goal with |- context [for_each _ ?b ?s] =>
    destruct (for_each_seq_cases
      (λ (_ : nat) st, values_below (length (polygons ps)) st)
      (λ r : bool, r = false) (λ _, False) (length (polygons ps)) b s)
      as [(m' & -> & Hm')|[(r & -> & ->)|(f & _ & [])]]
  end.
  - done.
  - intros k m0 Hk Hm0.
    destruct (lookup_lt_is_Some_2 (polygons ps) k Hk) as [poly Hpoly].
    rewrite (at_Next _ _ _ Hpoly). cbn [mbind step_bind].
    destruct (length (vertices poly) <? 3) eqn:HN; [left; eauto|].
    apply Nat.ltb_ge in HN.
    match goal with |- context [for_each _ ?b ?s] =>
      destruct (for_each_seq_cases
        (λ (_ : nat) st, values_below (length (polygons ps)) st)
        (λ r : bool, r = false) (λ _, False) (length (vertices poly)) b s)
        as [(m' & -> & Hm')|[(r & -> & ->)|(f & _ & [])]]
    end.
    + done.
    + intros j m1 Hj Hm1.
      assert (∀ x, x mod length (vertices poly) < length (vertices poly)) as Hmod.
      { intros x. apply Nat.mod_upper_bound. lia. }
      destruct (lookup_lt_is_Some_2 (vertices poly) j Hj) as [pj Hpj].
      destruct (lookup_lt_is_Some_2 (vertices poly) _ (Hmod (j + 1))) as [pj1 Hpj1].
      destruct (lookup_lt_is_Some_2 (vertices poly) _ (Hmod (j + 2))) as [pj2 Hpj2].
      rewrite (at_Next _ _ _ Hpj1). cbn [mbind step_bind].
      rewrite (at_Next _ _ _ Hpj). cbn [mbind step_bind].
      destruct (map_count m1 (pj1, pj) =? 0); [right; left; eauto|].
      destruct (map_subscript m1 (pj1, pj)) as [G m2] eqn:Hsub.
      assert (0 < length (polygons ps)) as Hpos by lia.
      destruct (map_subscript_values _ _ _ _ _ Hpos Hm1 Hsub) as [HG Hm2].
      rewrite (at_Next _ _ _ Hpj2). cbn [mbind step_bind].
      destruct (lookup_lt_is_Some_2 (polygons ps) G HG) as [polyG HpolyG].
      assert (∀ g poly', polygons ps !! g = Some poly' →
                at_ (R:=bool) (facet_plane <$> polygons ps) g
                = Next (facet_plane poly')) as Hplane.
      { intros g poly' Hg. apply at_Next. by rewrite list_lookup_fmap, Hg. }
      rewrite (Hplane _ _ HpolyG). cbn [mbind step_bind].
      destruct (has_on_positive_side (facet_plane polyG) (vector_convert pj2));
        [|left; eauto].
      rewrite (Hplane _ _ Hpoly). cbn [mbind step_bind].
      destruct (FT_lt _ angle_threshold); [right; left; eauto|left; eauto].
    + left. eauto.
    + right; left. eauto.
  - left. eauto.
  - by right.
Qed.

Lemma explore_facets_returns m fuel explored queue :
  values_below (length (polygons ps)) m →
  (∀ g, g ∈ explored → g < length (polygons ps)) →
  (∀ f, f ∈ queue → f ∈ explored) →
  length queue + length (polygons ps) - size explored < fuel →
  (∃ explored', explore_facets fuel ps m explored queue = Next explored')
  ∨ explore_facets fuel ps m explored queue = Return false.
Proof.
  intros Hm.
  assert (∀ ex : gset nat, (∀ g, g ∈ ex → g < length (polygons ps)) →
            size ex ≤ length (polygons ps)) as Hbound.
  { intros ex Hex.
    rewrite <- (size_set_seq (C:=gset nat) 0 (length (polygons ps))).
    apply subseteq_size. intros g Hg. apply elem_of_set_seq.
    specialize (Hex g Hg). lia. }
  revert explored queue.
  induction fuel as [|fuel IH]; intros explored queue Hexplored Hqueue Hfuel; [lia|].
  destruct queue as [|f rest]; simpl; [left; eauto|].
  pose proof (Hbound _ Hexplored) as Hsize.
  assert (f < length (polygons ps)) as Hf by (apply Hexplored, Hqueue; by left).
  destruct (lookup_lt_is_Some_2 (polygons ps) f Hf) as [poly Hpoly].
  rewrite (at_Next _ _ _ Hpoly). cbn [mbind step_bind].
  match goal with |- context [for_each _ ?b ?s] =>
    destruct (for_each_seq_cases
      (λ (_ : nat) (st : gset nat * list nat),
         (∀ g, g ∈ st.1 → g < length (polygons ps)) ∧
         (∀ f', f' ∈ st.2 → f' ∈ st.1) ∧
         length st.2 + size explored = length rest + size st.1)
      (λ r : bool, r = false) (λ _, False) (length (vertices poly)) b s)
      as [([ex q] & -> & Hr & Hq & Hcount)|[(r & -> & ->)|(f0 & _ & [])]]
  end.
  - simpl. split; [done|]. split; [|done]. intros f' Hf'. apply Hqueue. by right.
  - intros i [ex q] Hi (Hr & Hq & Hcount). simpl in Hr, Hq, Hcount.
    destruct (lookup_lt_is_Some_2 (vertices poly) i Hi) as [pi Hpi].
    destruct (lookup_lt_is_Some_2 (vertices poly)
                ((i + 1) mod length (vertices poly))) as [pj Hpj].
    { apply Nat.mod_upper_bound. lia. }
    rewrite (at_Next _ _ _ Hpj). cbn [mbind step_bind].
    rewrite (at_Next _ _ _ Hpi). cbn [mbind step_bind].
    destruct (map_find m (pj, pi)) as [g|] eqn:Hfind; [|right; left; eauto].
    destruct (map_find_elem _ _ _ Hfind) as (key & Hin).
    pose proof (Hm _ _ Hin) as Hg.
    left. case_bool_decide as Hseen; (eexists; split; [done|]); simpl.
    + done.
    + split; [|split].
      * intros g' [Hg'%elem_of_singleton|?]%elem_of_union; [by subst|by apply Hr].
      * intros f' [?|Hf'%list_elem_of_singleton]%elem_of_app;
          apply elem_of_union; [right; by apply Hq|left; by apply elem_of_singleton].
      * rewrite length_app, size_union, size_singleton by set_solver. simpl. lia.
  - simpl in Hr, Hq, Hcount. cbn [mbind step_bind].
    destruct (IH ex q Hr Hq) as [(explored' & ->)| ->]; [|left; eauto|by right].
    pose proof (Hbound _ Hr). simpl in Hfuel. lia.
  - by right.
Qed.

(** On every mesh with a face the function returns. *)
Lemma is_approximately_convex_returns_any :
  polygons ps ≠ [] → ∃ b, is_approximately_convex ps = Ok b.
Proof.
  intros Hne. unfold is_approximately_convex.
  destruct facet_edges_and_planes_returns as [(m & -> & Hm)| ->];
    [|by exists false]; cbn [mbind step_bind].
  destruct (check_neighbours_returns (cos_degrees FT_point_one) m Hm)
    as [(m' & -> & Hm')| ->]; [|by exists false]; cbn [mbind step_bind].
  assert (0 < length (polygons ps)) as Hlen.
  { destruct (polygons ps); [done|simpl; lia]. }
  destruct (explore_facets_returns m' (S (length (polygons ps))) {[0]} [0] Hm')
    as [(explored & ->)| ->]; [| | |by eexists|by exists false].
  - by intros g ->%elem_of_singleton.
  - intros f Hf%list_elem_of_singleton. subst f. by apply elem_of_singleton.
  - rewrite size_singleton. simpl. lia.
Qed.
End any_map.

(** ** [is_approximately_convex] on keys the comparator orders *)

(** Two loops whose bodies agree on the states that satisfy [I], which
    the body keeps, agree. *)
Lemma for_each_ext_inv {R A S} (I : S → Prop) (l : list A)
    (f g : A → S → step R S) (s : S) :
  I s →
  (∀ a s, a ∈ l → I s → f a s = g a s ∧ ∀ s', g a s = Next s' → I s') →
  for_each l f s = for_each l g s ∧ ∀ s', for_each l g s = Next s' → I s'.
Proof.
  revert s. induction l as [|a l IH]; intros s Hs Hbody; simpl.
  - split; [done|]. by intros s' [= <-].
  - destruct (Hbody a s ltac:(by left) Hs) as [-> Hkeep].
    destruct (g a s) as [s1| |]; simpl; [|done..].
    apply IH; [by apply Hkeep|]. intros b s0 Hb. apply Hbody. by right.
Qed.

Section ordered_keys.
Context `{K : Kernel} {M : std_map} (ps : PolySet Vector3d).
Hypothesis Hord : strict_weak_ordering (mesh_keys ps).
Implicit Types (m : Edge_to_facet_map) (e key k : Edge).

Lemma keys_within_ordered m k :
  keys_within ps m → k ∈ mesh_keys ps → strict_weak_ordering (k :: m.*1).
Proof.
  intros Hm Hk. eapply strict_weak_ordering_subseteq; [|exact Hord].
  intros k' [->|Hin]%elem_of_cons; [done|].
  apply list_elem_of_fmap in Hin as ([key g] & -> & Hin). by eapply Hm.
Qed.

Lemma map_assign_keys m k v :
  keys_within ps m → k ∈ mesh_keys ps →
  keys_within ps (map_assign (H0:=linear_map) m k v).
Proof.
  intros Hm Hk key g. unfold map_assign.
  destruct (node subscript_search m.*1 k) as [i|].
  - intros [Hin|[_ [g' Hin]]]%elem_of_alter_value; by eapply Hm.
  - intros [Hin|[= -> ->]%list_elem_of_singleton]%elem_of_app; [by eapply Hm|done].
Qed.

Lemma map_subscript_keys m k :
  keys_within ps m → k ∈ mesh_keys ps →
  keys_within ps (map_subscript (H0:=linear_map) m k).2.
Proof.
  intros Hm Hk key g. unfold map_subscript.
  destruct (node subscript_search m.*1 k) as [i|]; simpl; [by apply Hm|].
  intros [Hin|[= -> ->]%list_elem_of_singleton]%elem_of_app; [by eapply Hm|done].
Qed.

Lemma face_keys i poly j j' pj pj' :
  polygons ps !! i = Some poly →
  vertices poly !! j = Some pj → vertices poly !! j' = Some pj' →
  (pj, pj') ∈ mesh_keys ps.
Proof.
  intros Hpoly Hj Hj'. eapply mesh_keys_elem; [done|..];
    by eapply list_elem_of_lookup_2.
Qed.

Lemma facet_edges_and_planes_linear :
  facet_edges_and_planes ps = facet_edges_and_planes (H0:=linear_map) ps ∧
  ∀ st, facet_edges_and_planes (H0:=linear_map) ps = Next st → keys_within ps st.1.
Proof.
  unfold facet_edges_and_planes.
  apply (for_each_ext_inv (λ st, keys_within ps st.1)).
  { by intros ?? ?%elem_of_nil. }
  intros i [m planes] Hi%elem_of_seq Hm. simpl in Hm.
  destruct (lookup_lt_is_Some_2 (polygons ps) i ltac:(lia)) as [poly Hpoly].
  rewrite !(at_Next _ _ _ Hpoly). cbn [mbind step_bind].
  destruct (3 <=? length (vertices poly)) eqn:HN.
  2:{ cbn [mbind step_bind]. split; [done|]. by intros st [= <-]. }
  apply Nat.leb_le in HN.
  match goal with |- (for_each ?l ?f ?s ≫= _) ≫= _ = (for_each _ ?g _ ≫= _) ≫= _ ∧ _ =>
    destruct (for_each_ext_inv (λ st, keys_within ps st.1) l f g s) as [-> Hinner]
  end.
  { done. }
  { intros j [m1 v1] Hj%elem_of_seq Hm1. simpl in Hm1.
    destruct (lookup_lt_is_Some_2 (vertices poly) j ltac:(lia)) as [pj Hpj].
    destruct (lookup_lt_is_Some_2 (vertices poly)
                ((j + 1) mod length (vertices poly))) as [pj1 Hpj1].
    { apply Nat.mod_upper_bound. lia. }
    rewrite !(at_Next _ _ _ Hpj). cbn [mbind step_bind].
    rewrite !(at_Next _ _ _ Hpj1). cbn [mbind step_bind].
    pose proof (face_keys _ _ _ _ _ _ Hpoly Hpj Hpj1) as Hkey.
    pose proof (keys_within_ordered _ _ Hm1 Hkey) as Hord1.
    rewrite (map_count_ordered _ _ Hord1), (map_assign_ordered _ _ _ Hord1).
    split; [done|].
    destruct (negb _); [done|]. intros st [= <-]. simpl.
    by apply map_assign_keys. }
  split; [done|].
  match goal with |- context [for_each ?l ?g ?s] =>
    destruct (for_each l g s) as [[m' v]| |] eqn:Hrun; [|done..]
  end.
  cbn [mbind step_bind]. intros st.
  destruct (at_ _ 0); cbn [mbind step_bind]; [|done..].
  intros [= <-]. simpl. by apply (Hinner (m', v)).
Qed.

Lemma check_neighbours_linear angle_threshold facet_planes m :
  keys_within ps m →
  check_neighbours ps angle_threshold facet_planes m =
  check_neighbours (H0:=linear_map) ps angle_threshold facet_planes m ∧
  ∀ m', check_neighbours (H0:=linear_map) ps angle_threshold facet_planes m
        = Next m' → keys_within ps m'.
Proof.
  intros Hm. unfold check_neighbours.
  apply (for_each_ext_inv (keys_within ps)); [done|].
  intros i m0 Hi%elem_of_seq Hm0.
  destruct (lookup_lt_is_Some_2 (polygons ps) i ltac:(lia)) as [poly Hpoly].
  rewrite !(at_Next _ _ _ Hpoly). cbn [mbind step_bind].
  destruct (length (vertices poly) <? 3) eqn:HN.
  { split; [done|]. by intros ? [= <-]. }
  apply Nat.ltb_ge in HN.
  apply (for_each_ext_inv (keys_within ps)); [done|].
  intros j m1 Hj%elem_of_seq Hm1.
  assert (∀ x, x mod length (vertices poly) < length (vertices poly)) as Hmod.
  { intros x. apply Nat.mod_upper_bound. lia. }
  destruct (lookup_lt_is_Some_2 (vertices poly) j ltac:(lia)) as [pj Hpj].
  destruct (lookup_lt_is_Some_2 (vertices poly) _ (Hmod (j + 1))) as [pj1 Hpj1].
  rewrite !(at_Next _ _ _ Hpj1). cbn [mbind step_bind].
  rewrite !(at_Next _ _ _ Hpj). cbn [mbind step_bind].
  pose proof (face_keys _ _ _ _ _ _ Hpoly Hpj1 Hpj) as Hkey.
  pose proof (keys_within_ordered _ _ Hm1 Hkey) as Hord1.
  rewrite (map_count_ordered _ _ Hord1), (map_subscript_ordered _ _ Hord1).
  split; [done|].
  destruct (map_count _ _ =? 0); [done|].
  pose proof (map_subscript_keys _ _ Hm1 Hkey) as Hkeys.
  destruct (map_subscript _ _) as [G m2]. simpl in Hkeys.
  destruct (at_ (vertices poly) _); cbn [mbind step_bind]; [|done..].
  destruct (at_ facet_planes G); cbn [mbind step_bind]; [|done..].
  destruct (has_on_positive_side _ _); [|by intros ? [= <-]].
  destruct (at_ facet_planes i); cbn [mbind step_bind]; [|done..].
  destruct (FT_lt _ _); [done|]. by intros ? [= <-].
Qed.

Lemma explore_facets_linear fuel m explored queue :
  keys_within ps m →
  explore_facets fuel ps m explored queue =
  explore_facets (H0:=linear_map) fuel ps m explored queue.
Proof.
  intros Hm. revert explored queue.
  induction fuel as [|fuel IH]; intros explored queue; simpl; [done|].
  destruct queue as [|f rest]; [done|].
  destruct (polygons ps !! f) as [poly|] eqn:Hpoly;
    [|by unfold at_; rewrite Hpoly].
  rewrite !(at_Next _ _ _ Hpoly). cbn [mbind step_bind].
  match goal with |- for_each ?l ?f ?s ≫= _ = for_each _ ?g _ ≫= _ =>
    destruct (for_each_ext_inv (λ _, True) l f g s) as [-> _]
  end; [done| |].
  { intros i [ex q] Hi%elem_of_seq _. split; [|done].
    assert (length (vertices poly) ≠ 0) as Hlen by lia.
    destruct (lookup_lt_is_Some_2 (vertices poly) i ltac:(lia)) as [pi Hpi].
    destruct (lookup_lt_is_Some_2 (vertices poly)
                ((i + 1) mod length (vertices poly))) as [pj Hpj].
    { by apply Nat.mod_upper_bound. }
    rewrite !(at_Next _ _ _ Hpj). cbn [mbind step_bind].
    rewrite !(at_Next _ _ _ Hpi). cbn [mbind step_bind].
    pose proof (face_keys _ _ _ _ _ _ Hpoly Hpj Hpi) as Hkey.
    by rewrite (map_find_ordered _ _ (keys_within_ordered _ _ Hm Hkey)). }
  match goal with |- ?x ≫= _ = _ => destruct x as [[ex q]| |] end;
    cbn [mbind step_bind]; [|done..].
  apply IH.
Qed.

(** For a comparator that orders the pairs of vertices of the faces,
    the result does not depend on the searches of the map. *)
Lemma is_approximately_convex_linear :
  is_approximately_convex ps = is_approximately_convex (H0:=linear_map) ps.
Proof.
  unfold is_approximately_convex.
  destruct facet_edges_and_planes_linear as [-> Hkeys].
  destruct (facet_edges_and_planes (H0:=linear_map) ps) as [[m planes]| |];
    cbn [mbind step_bind]; [|done..].
  specialize (Hkeys _ eq_refl). simpl in Hkeys.
  destruct (check_neighbours_linear (cos_degrees FT_point_one) planes m Hkeys)
    as [-> Hkeys'].
  destruct (check_neighbours (H0:=linear_map) _ _ _ _) as [m'| |];
    cbn [mbind step_bind]; [|done..].
  by rewrite (explore_facets_linear _ _ _ _ (Hkeys' _ eq_refl)).
Qed.
End ordered_keys.

(** ** [computeResizeTransform]: the axes one by one *)

Section resize_axes.
Context `{K : ExactKernel}.
Implicit Types (bb : Iso_cuboid_3) (newsize : Vector3 double)
  (autosize : Vector3 bool).

(** A run that logs nothing has gone through all three loops. *)
Lemma computeResizeTransform_silent bb dimension newsize autosize t :
  computeResizeTransform bb dimension newsize autosize = Ok (t, []) →
  ∃ scale M s0 s1 s2,
    dimension ≤ 3 ∧
    explicit_inv bb newsize dimension (scale, M) ∧
    (∀ j, ¬ autosized newsize autosize dimension j →
          [s0; s1; s2] !! j = scale !! j) ∧
    t = scale_matrix (to_double s0) (to_double s1) (to_double s2).
Proof.
  intros Hrun.
  destruct (computeResizeTransform_cases bb dimension newsize autosize)
    as [[_ Heq]|[_ [(f & Heq & _)|Hnormal]]]; [congruence..|].
  destruct Hnormal as (scale & M & nM & eM & scale' & Hdim & Hinv & _ & _
                        & _ & Hauto & s0 & s1 & s2 & -> & Heq).
  exists scale, M, s0, s1, s2. split; [done|]. split; [done|].
  split; [intros j Hj; by apply Hauto|congruence].
Qed.

Lemma entry_scale_matrix_to_double (s0 s1 s2 : NT) i s :
  [s0; s1; s2] !! i = Some s →
  entry (scale_matrix (to_double s0) (to_double s1) (to_double s2)) i i
  = Some (to_double s).
Proof.
  intros Hs. apply entry_scale_matrix.
  destruct i as [|[|[|i]]]; by simplify_eq/=.
Qed.

(** The run with no active axis. *)
Lemma computeResizeTransform_no_axis bb newsize autosize :
  computeResizeTransform bb 0 newsize autosize =
  if double_nonzero (v_x newsize) &&
     NT_eqb (NT_sub (v_x (cuboid_max bb)) (v_x (cuboid_min bb))) (NT_of_double 0%Q)
  then Crash DivisionByZero
  else Ok (scale_matrix (to_double (NT_of_double 1%Q)) (to_double (NT_of_double 1%Q))
             (to_double (NT_of_double 1%Q)), []).
Proof.
  unfold computeResizeTransform, double_nonzero. rewrite resize_init_eq.
  unfold resize_explicit, resize_autoscale, resize_auto, divide. cbn.
  by destruct (negb _), (NT_eqb _ _).
Qed.
End resize_axes.

(** X1.  When [computeResizeTransform] returns without the warning, every
    active axis with a non-zero target size has an extent that is not
    zero, and its place on the diagonal holds the target size divided by
    the extent, computed in the exact number type and narrowed to a
    double at the end. *)
Theorem computeResizeTransform_explicit `{ExactKernel}
    (bb : Iso_cuboid_3) (dimension : nat) (newsize : Vector3 double)
    (autosize : Vector3 bool) (t : Transform3d) (i : nat) (ni : double) (ei : NT) :
  computeResizeTransform bb dimension newsize autosize = Ok (t, []) →
  i < dimension →
  coefficients newsize !! i = Some ni → ¬ (ni == 0)%Q →
  extent bb i = Some ei →
  NT_eqb ei (NT_of_double 0%Q) = false ∧
  entry t i i = Some (to_double (NT_div (NT_of_double ni) ei)).
Proof.
  intros (scale & M & s0 & s1 & s2 & Hdim & Hinv & Hkeep & ->)%computeResizeTransform_silent
    Hi Hni Hnz Hei.
  destruct Hinv as (_ & _ & _ & Hreq & _). simpl in Hreq.
  destruct (Hreq i ni) as (ei' & _ & Hei' & Hflat & Hsi & _); [done..|].
  rewrite extent_extents in Hei. replace ei' with ei in * by congruence.
  split; [done|]. apply entry_scale_matrix_to_double.
  rewrite <- Hsi. apply Hkeep. intros (_ & _ & ni' & Hni' & Hz). congruence.
Qed.

Lemma computeResizeTransform_explicit_witness :
  NT_eqb (1 - 0)%Q (NT_of_double 0%Q) = false ∧
  entry (scale_matrix 2 3 1) 1 1 = Some (to_double (NT_div (NT_of_double 3%Q) (1 - 0)%Q)).
Proof.
  apply (computeResizeTransform_explicit unit_cube 3 (mkVector3 2 3 0)%Q
           (mkVector3 false false false) (scale_matrix 2 3 1) 1 3%Q (1 - 0)%Q);
    [reflexivity | lia | reflexivity | by intros ?%Qeq_eq_bool | reflexivity].
Defined.

(** X2.  When [computeResizeTransform] returns without the warning, an
    axis that is not active, and an active axis without a target size that
    is not flagged autosize, keep the scale factor one. *)
Theorem computeResizeTransform_keeps_axis `{ExactKernel}
    (bb : Iso_cuboid_3) (dimension : nat) (newsize : Vector3 double)
    (autosize : Vector3 bool) (t : Transform3d) (i : nat) :
  computeResizeTransform bb dimension newsize autosize = Ok (t, []) →
  i < 3 →
  dimension ≤ i ∨
  (∃ ni, coefficients newsize !! i = Some ni ∧ (ni == 0)%Q ∧
         coefficients autosize !! i = Some false) →
  entry t i i = Some (to_double (NT_of_double 1%Q)).
Proof.
  intros (scale & M & s0 & s1 & s2 & Hdim & Hinv & Hkeep & ->)%computeResizeTransform_silent
    Hi Hcase.
  destruct Hinv as (_ & _ & _ & _ & Hone). simpl in Hone.
  apply entry_scale_matrix_to_double. rewrite Hkeep.
  - apply Hone; [done|]. destruct Hcase as [?|(ni & ? & ? & _)]; eauto.
  - intros (Hlt & Hflag & _). destruct Hcase as [?|(_ & _ & _ & ?)]; [lia|congruence].
Qed.

Lemma computeResizeTransform_keeps_axis_witness :
  entry (scale_matrix 2 1 1) 1 1 = Some (to_double (NT_of_double 1%Q)) ∧
  entry (scale_matrix 2 1 1) 2 2 = Some (to_double (NT_of_double 1%Q)).
Proof.
  split.
  - apply (computeResizeTransform_keeps_axis unit_cube 2 (mkVector3 2 0 7)%Q
             (mkVector3 true false true) (scale_matrix 2 1 1) 1);
      [reflexivity | lia |].
    right. exists 0%Q. by repeat split.
  - apply (computeResizeTransform_keeps_axis unit_cube 2 (mkVector3 2 0 7)%Q
             (mkVector3 true false true) (scale_matrix 2 1 1) 2);
      [reflexivity | lia |].
    left. lia.
Defined.

(** X3.  For every dimension from 1 to 3 [computeResizeTransform] returns,
    whatever the box, the target sizes and the flags: no division by zero
    and no access out of bounds. *)
Theorem computeResizeTransform_returns `{ExactKernel}
    (bb : Iso_cuboid_3) (dimension : nat) (newsize : Vector3 double)
    (autosize : Vector3 bool) :
  0 < dimension ≤ 3 →
  ∃ t log, computeResizeTransform bb dimension newsize autosize = Ok (t, log).
Proof.
  intros Hdim.
  destruct (computeResizeTransform_cases bb dimension newsize autosize)
    as [[_ ->]|[_ [(f & _ & Hd)|Hnormal]]]; [eauto| by destruct Hd |].
  destruct Hnormal as (? & ? & ? & ? & ? & _ & _ & _ & _ & _ & _ & ? & ? & ? & _ & ->).
  eauto.
Qed.

Lemma computeResizeTransform_returns_witness :
  ∃ t log, computeResizeTransform flat_cube 2 (mkVector3 0 (-3) 1)%Q
             (mkVector3 true true true) = Ok (t, log).
Proof. apply computeResizeTransform_returns. lia. Defined.

(** X4.  With a dimension above 3 the second loop reads [newsize[3]]:
    unless a flat axis among the first three ends the call before, it
    runs out of the bounds of the vector. *)
Theorem computeResizeTransform_dimension_beyond `{ExactKernel}
    (bb : Iso_cuboid_3) (dimension : nat) (newsize : Vector3 double)
    (autosize : Vector3 bool) :
  3 < dimension → ¬ flat_axis bb newsize 3 →
  computeResizeTransform bb dimension newsize autosize = Crash OutOfBounds.
Proof.
  intros Hdim Hnoflat. unfold computeResizeTransform.
  rewrite resize_init_eq. cbn [mbind step_bind].
  rewrite resize_explicit_beyond by done.
  destruct (resize_explicit_cases bb 3 newsize ltac:(lia)) as [(st & -> & _)|[_ Hflat]];
    [reflexivity|done].
Qed.

Lemma computeResizeTransform_dimension_beyond_witness :
  computeResizeTransform unit_cube 4 (mkVector3 2 2 2)%Q (mkVector3 false false false)
  = Crash OutOfBounds.
Proof.
  apply computeResizeTransform_dimension_beyond; [lia|].
  intros (i & ni & ei & Hi & Hni & Hnz & Hei & Hflat).
  destruct i as [|[|[|i]]]; try lia; injection Hei as <-; discriminate Hflat.
Defined.

(** X5.  When no axis has a target size, [computeResizeTransform] logs
    nothing and scales every axis by one, for every dimension up to 3 and
    whatever the autosize flags. *)
Theorem computeResizeTransform_nothing_requested `{ExactKernel}
    (bb : Iso_cuboid_3) (dimension : nat) (newsize : Vector3 double)
    (autosize : Vector3 bool) :
  dimension ≤ 3 →
  (v_x newsize == 0)%Q → (v_y newsize == 0)%Q → (v_z newsize == 0)%Q →
  let one := to_double (NT_of_double 1%Q) in
  computeResizeTransform bb dimension newsize autosize
  = Ok (scale_matrix one one one, []).
Proof.
  intros Hdim Hx Hy Hz one.
  assert (∀ j nj, coefficients newsize !! j = Some nj → (nj == 0)%Q) as Hzero.
  { intros [|[|[|j]]] nj [= <-]; done. }
  destruct (computeResizeTransform_cases bb dimension newsize autosize)
    as [[Hflat _]|[_ [(f & Hcrash & Hd)|Hnormal]]].
  - destruct Hflat as (i & ni & _ & _ & Hni & Hnz & _). destruct Hnz. eauto.
  - destruct (decide (dimension = 0)) as [->|]; [|lia].
    rewrite computeResizeTransform_no_axis in Hcrash.
    apply double_nonzero_false in Hx. by rewrite Hx in Hcrash.
  - destruct Hnormal as (scale & M & nM & eM & scale' & _ & Hinv & HnM & _
                          & _ & Hauto & s0 & s1 & s2 & -> & ->).
    destruct Hinv as (_ & _ & _ & _ & Hone). simpl in Hone.
    assert (autoscale_of nM eM = NT_of_double 1%Q) as Hscale.
    { unfold autoscale_of. apply Hzero in HnM.
      apply double_nonzero_false in HnM. by rewrite HnM. }
    assert (∀ j, j < 3 → [s0; s1; s2] !! j = Some (NT_of_double 1%Q)) as Hall.
    { intros j Hj.
      destruct (decide (j < dimension ∧ coefficients autosize !! j = Some true))
        as [[??]|Hno].
      - rewrite <- Hscale. apply Hauto. split; [done|]. split; [done|].
        destruct (coefficients_lookup newsize j Hj) as [nj Hnj]. eauto.
      - rewrite (proj2 (Hauto j)); [|intros (? & ? & _); by destruct Hno].
        apply Hone; [done|].
        destruct (coefficients_lookup newsize j Hj) as [nj Hnj]. eauto. }
    pose proof (Hall 0 ltac:(lia)) as [= ->].
    pose proof (Hall 1 ltac:(lia)) as [= ->].
    pose proof (Hall 2 ltac:(lia)) as [= ->].
    done.
Qed.

Lemma computeResizeTransform_nothing_requested_witness :
  computeResizeTransform unit_cube 3 (mkVector3 0 0 0)%Q (mkVector3 true false true)
  = Ok (Identity, []).
Proof.
  apply (computeResizeTransform_nothing_requested unit_cube 3 (mkVector3 0 0 0)%Q);
    [lia | reflexivity..].
Defined.

(** X6.  With dimension 0 no axis is scaled, but the autoscale factor is
    still computed from axis 0: when that axis has a target size and the
    box is flat on it, the exact division is by zero. *)
Theorem computeResizeTransform_dimension_0 `{ExactKernel}
    (bb : Iso_cuboid_3) (newsize : Vector3 double) (autosize : Vector3 bool) :
  let one := to_double (NT_of_double 1%Q) in
  let flat := NT_eqb (NT_sub (v_x (cuboid_max bb)) (v_x (cuboid_min bb)))
                (NT_of_double 0%Q) in
  computeResizeTransform bb 0 newsize autosize =
  if double_nonzero (v_x newsize) && flat
  then Crash DivisionByZero
  else Ok (scale_matrix one one one, []).
Proof.
  apply computeResizeTransform_no_axis.
Qed.

(** ** [createNefPolyhedronFromPolySet]: the other paths *)

Section boundary_paths.
Context `{B : BoundaryBuilder V}.
Implicit Types (ps psq ps_tri : PolySet V) (evs : list (event V)).

Lemma construct_exact_no_abort psq evs f :
  construct_exact psq ≠ (evs, Abort f).
Proof.
  unfold construct_exact, build. simpl.
  destruct (createPolyhedronFromPolySet psq) as [[err P]|e]; simpl; [|done].
  destruct err; simpl; [done|].
  destruct (is_closed P); simpl; [|done].
  destruct (is_valid P); simpl; [|done].
  destruct (new_Nef_polyhedron3 P); simpl; done.
Qed.

Lemma construct_exact_throws psq evs e :
  construct_exact psq = (evs, Throw e) → construction_fails psq e.
Proof.
  unfold construct_exact, build, construction_fails. simpl.
  destruct (createPolyhedronFromPolySet psq) as [[err P]|e']; simpl;
    [|intros [= _ ->]; by left].
  destruct err; simpl; [done|].
  destruct (is_closed P) eqn:Hclosed; simpl; [|done].
  destruct (is_valid P) eqn:Hvalid; simpl; [|done].
  destruct (new_Nef_polyhedron3 P) eqn:Hnef; simpl; [done|].
  intros [= _ ->]. right. by exists P.
Qed.

Lemma construct_exact_normal psq evs N plane_error :
  construct_exact psq = (evs, Normal (N, plane_error)) → plane_error = false.
Proof.
  unfold construct_exact, build. simpl.
  destruct (createPolyhedronFromPolySet psq) as [[err P]|e]; simpl; [|done].
  destruct err; simpl; [by intros [= _ _ <-]|].
  destruct (is_closed P); simpl; [|by intros [= _ _ <-]].
  destruct (is_valid P); simpl; [|by intros [= _ _ <-]].
  destruct (new_Nef_polyhedron3 P); simpl; [by intros [= _ _ <-]|done].
Qed.

(** The second attempt is made after the notice, and only then; the
    part of the function behind the convexity test does not stop on an
    assertion of the program, and an exception leaves it only when it is
    not of the class the handlers catch. *)
Lemma construct_boundary_cases psq ps_tri :
  ∃ evs r,
    construct_boundary psq ps_tri = (evs, r) ∧
    (builds evs = [psq] ∨
     (builds evs = [psq; ps_tri] ∧ Logged nonplanar_notice ∈ evs ∧
      ∃ rest, evs = [Built psq; Logged nonplanar_notice; Built ps_tri] ++ rest)) ∧
    match r with
    | Normal _ => True
    | Throw e =>
        (∀ what, e ≠ Assertion_exception what) ∧
        (construction_fails psq e ∨
         ∃ what, construction_fails psq (Assertion_exception what) ∧
                 is_plane_error what = true ∧ retried ps_tri = Raise e)
    | Abort _ => False
    end.
Proof.
  unfold construct_boundary.
  destruct (construct_exact psq) as [evs r] eqn:Hexact.
  pose proof (construct_exact_builds _ _ _ Hexact) as Hb.
  destruct r as [[N plane_error]|e|f]; simpl.
  - rewrite (construct_exact_normal _ _ _ _ Hexact). simpl.
    eexists _, _. split; [done|]. split; [|done]. left. by rewrite !app_nil_r.
  - apply construct_exact_throws in Hexact as Hfails.
    assert (evs = [Built psq]) as ->.
    { rewrite (construct_exact_fails _ _ Hfails) in Hexact. congruence. }
    destruct e as [what| | | |];
      try (eexists _, _; split; [done|]; split; [by left|]; split; [done|by left]).
    unfold on_construct_error. destruct (is_plane_error what) eqn:Hplane; simpl.
    + rewrite construct_alternate_retried. simpl.
      destruct (retried ps_tri) as [N'|e'] eqn:Hretry; simpl.
      * eexists _, _. split; [done|]. split; [|done]. right.
        split; [done|]. split; [set_solver|]. by exists [].
      * destruct e' as [what'| | | |]; simpl;
          (eexists _, _; split; [done|]; split;
           [right; split; [done|]; split; [set_solver|]; by eexists|]);
          first [done | split; [done|]; right; by exists what].
    + eexists _, _. split; [done|]. split; [|done]. by left.
  - by destruct (construct_exact_no_abort psq evs f).
Qed.

(** The function before the convexity test. *)
Lemma createNefPolyhedronFromPolySet_convex_eq ps psq points3d :
  isEmpty ps = false → getDimension ps = 3 →
  quantizeVertices ps = (psq, points3d) →
  is_convex (tessellate_faces psq (new_PolySet 3 (convexValue psq))) = true →
  createNefPolyhedronFromPolySet ps =
  ([], if length points3d <=? 3 then Ok (mkNef None)
       else match convex_hull_3 points3d with
            | Value r_exact =>
                match new_Nef_polyhedron3 r_exact with
                | Value N => Ok (mkNef (Some N))
                | Raise e => Crash (Uncaught (exception_what e))
                end
            | Raise e => Crash (Uncaught (exception_what e))
            end).
Proof.
  intros Hne Hdim Hq Hconv. unfold createNefPolyhedronFromPolySet.
  rewrite Hne, Hdim, Hq, Hconv. simpl.
  destruct (length points3d <=? 3); [done|].
  destruct (convex_hull_3 points3d) as [r|e]; simpl; [|done].
  by destruct (new_Nef_polyhedron3 r) as [N|e].
Qed.

Lemma createNefPolyhedronFromPolySet_dimension_eq ps :
  isEmpty ps = false → getDimension ps ≠ 3 →
  createNefPolyhedronFromPolySet ps = ([], Crash AssertionFailed).
Proof.
  intros Hne Hdim. unfold createNefPolyhedronFromPolySet.
  rewrite Hne. unfold assert_effect. by rewrite bool_decide_eq_false_2.
Qed.
End boundary_paths.

(** X7.  Over all inputs, [createNefPolyhedronFromPolySet] calls the
    boundary constructor [createPolyhedronFromPolySet] at most twice:
    first on the quantized copy of the mesh and then, after it has logged
    the notice of the non-planar faces, on the tessellated copy; the trace
    then starts with the first call, the notice and the second call, in
    this order.  An empty mesh, a mesh of another dimension and a convex
    mesh never reach it. *)
Theorem createNefPolyhedronFromPolySet_builds `{BoundaryBuilder V} (ps : PolySet V) :
  let psq := (quantizeVertices ps).1 in
  let ps_tri := tessellate_faces psq (new_PolySet 3 (convexValue psq)) in
  let trace := (createNefPolyhedronFromPolySet ps).1 in
  (builds trace = [] ∨ builds trace = [psq] ∨
   (builds trace = [psq; ps_tri] ∧ Logged nonplanar_notice ∈ trace ∧
    ∃ rest, trace = [Built psq; Logged nonplanar_notice; Built ps_tri] ++ rest)) ∧
  (isEmpty ps = true ∨ getDimension ps ≠ 3 ∨ is_convex ps_tri = true → trace = []).
Proof.
  intros psq ps_tri trace. subst psq ps_tri trace.
  destruct (isEmpty ps) eqn:Hne.
  { rewrite createNefPolyhedronFromPolySet_empty by done. simpl. eauto. }
  destruct (decide (getDimension ps = 3)) as [Hdim|Hdim].
  2:{ rewrite createNefPolyhedronFromPolySet_dimension_eq by done. simpl. eauto. }
  destruct (quantizeVertices ps) as [psq points3d] eqn:Hq. simpl.
  destruct (is_convex (tessellate_faces psq (new_PolySet 3 (convexValue psq)))) eqn:Hconv.
  { rewrite (createNefPolyhedronFromPolySet_convex_eq ps psq points3d) by done.
    simpl. eauto. }
  rewrite (createNefPolyhedronFromPolySet_nonconvex ps psq points3d) by done.
  destruct (construct_boundary_cases psq
              (tessellate_faces psq (new_PolySet 3 (convexValue psq))))
    as (evs & r & -> & Hb & _).
  assert (∀ r', (finish (evs, r') : list (event V) * outcome CGAL_Nef_polyhedron).1
                = evs) as -> by (by intros []).
  split; [tauto|]. intros [?|[?|?]]; done.
Qed.

(** X8.  [createNefPolyhedronFromPolySet] fails by the assertion on the
    dimension, on a mesh that is not empty and not of dimension 3, or by
    an exception that leaves it.  On a convex mesh with more than three
    points that is any exception of the convex hull or of the volumetric
    structure built from it, where no handler is in place.  Behind the
    convexity test it is an exception of a class other than
    [CGAL::Assertion_exception], thrown by the first boundary construction
    or, after the planarity failure, by the second one: an exception of
    the class the handlers name never leaves the function. *)
Theorem createNefPolyhedronFromPolySet_crashes `{BoundaryBuilder V}
    (ps : PolySet V) (f : fault) :
  (createNefPolyhedronFromPolySet ps).2 = Crash f →
  let psq := (quantizeVertices ps).1 in
  let points3d := (quantizeVertices ps).2 in
  let ps_tri := tessellate_faces psq (new_PolySet 3 (convexValue psq)) in
  isEmpty ps = false ∧
  ((f = AssertionFailed ∧ getDimension ps ≠ 3) ∨
   (∃ e, f = Uncaught (exception_what e) ∧ getDimension ps = 3 ∧
         ((is_convex ps_tri = true ∧ 3 < length points3d ∧ hull_fails points3d e) ∨
          (is_convex ps_tri = false ∧
           (∀ what, e ≠ Assertion_exception what) ∧
           (construction_fails psq e ∨
            ∃ what, construction_fails psq (Assertion_exception what) ∧
                    is_plane_error what = true ∧ retried ps_tri = Raise e))))).
Proof.
  intros Hcrash psq points3d ps_tri. subst psq points3d ps_tri.
  destruct (isEmpty ps) eqn:Hne.
  { by rewrite createNefPolyhedronFromPolySet_empty in Hcrash. }
  split; [done|].
  destruct (decide (getDimension ps = 3)) as [Hdim|Hdim].
  2:{ rewrite createNefPolyhedronFromPolySet_dimension_eq in Hcrash by done.
      left. by simplify_eq/=. }
  right. destruct (quantizeVertices ps) as [psq points3d] eqn:Hq. simpl.
  destruct (is_convex (tessellate_faces psq (new_PolySet 3 (convexValue psq)))) eqn:Hconv.
  - rewrite (createNefPolyhedronFromPolySet_convex_eq ps psq points3d) in Hcrash by done.
    simpl in Hcrash. destruct (length points3d <=? 3) eqn:Hlen; [done|].
    apply Nat.leb_gt in Hlen.
    destruct (convex_hull_3 points3d) as [r|e] eqn:Hhull.
    + destruct (new_Nef_polyhedron3 r) as [N|e] eqn:Hnef; [done|].
      exists e. injection Hcrash as <-. split; [done|]. split; [done|]. left.
      split; [done|]. split; [done|]. right. by exists r.
    + exists e. injection Hcrash as <-. split; [done|]. split; [done|]. left.
      split; [done|]. split; [done|]. by left.
  - rewrite (createNefPolyhedronFromPolySet_nonconvex ps psq points3d) in Hcrash by done.
    destruct (construct_boundary_cases psq
                (tessellate_faces psq (new_PolySet 3 (convexValue psq))))
      as (evs & r & Heq & _ & Hr).
    rewrite Heq in Hcrash. destruct r as [N|e|f']; simpl in Hcrash; [done| |done].
    injection Hcrash as <-. exists e. split; [done|]. split; [done|]. right.
    by split.
Qed.

Lemma createNefPolyhedronFromPolySet_crashes_witness :
  let B := rejecting (Precondition_exception precondition_message) in
  let psq := (@quantizeVertices nat B two_squares).1 in
  let points3d := (@quantizeVertices nat B two_squares).2 in
  let ps_tri := @tessellate_faces nat B psq (new_PolySet 3 (convexValue psq)) in
  (@createNefPolyhedronFromPolySet nat B two_squares).2
  = Crash (Uncaught precondition_message) ∧
  isEmpty two_squares = false ∧
  ((Uncaught precondition_message = AssertionFailed ∧ getDimension two_squares ≠ 3) ∨
   (∃ e, Uncaught precondition_message = Uncaught (exception_what e) ∧
         getDimension two_squares = 3 ∧
         ((@is_convex nat B ps_tri = true ∧ 3 < length points3d ∧
           @hull_fails nat B points3d e) ∨
          (@is_convex nat B ps_tri = false ∧
           (∀ what, e ≠ Assertion_exception what) ∧
           (@construction_fails nat B psq e ∨
            ∃ what, @construction_fails nat B psq (Assertion_exception what) ∧
                    is_plane_error what = true ∧ @retried nat B ps_tri = Raise e))))).
Proof.
  intros B psq points3d ps_tri. split; [reflexivity|].
  apply (@createNefPolyhedronFromPolySet_crashes nat B two_squares
           (Uncaught precondition_message)).
  reflexivity.
Defined.

(** X9.  On a convex mesh [createNefPolyhedronFromPolySet] logs nothing
    and does not call the boundary constructor; when the quantized mesh
    has three points or fewer the result is the empty geometry, and
    otherwise it is the structure built from the convex hull of the
    points, or the failure of that construction, which is not caught. *)
Theorem createNefPolyhedronFromPolySet_convex `{BoundaryBuilder V}
    (ps psq : PolySet V) (points3d : list V) :
  isEmpty ps = false → getDimension ps = 3 →
  quantizeVertices ps = (psq, points3d) →
  is_convex (tessellate_faces psq (new_PolySet 3 (convexValue psq))) = true →
  (createNefPolyhedronFromPolySet ps).1 = [] ∧
  (length points3d ≤ 3 → (createNefPolyhedronFromPolySet ps).2 = Ok (mkNef None)) ∧
  (3 < length points3d →
   (∀ r N, convex_hull_3 points3d = Value r → new_Nef_polyhedron3 r = Value N →
           (createNefPolyhedronFromPolySet ps).2 = Ok (mkNef (Some N))) ∧
   (∀ what, convex_hull_3 points3d = Raise (Assertion_exception what) →
            (createNefPolyhedronFromPolySet ps).2 = Crash (Uncaught what))).
Proof.
  intros Hne Hdim Hq Hconv.
  rewrite (createNefPolyhedronFromPolySet_convex_eq ps psq points3d) by done.
  simpl. split; [done|]. split.
  - intros Hlen%Nat.leb_le. by rewrite Hlen.
  - intros Hlen%Nat.leb_gt. rewrite Hlen. split.
    + by intros r N -> ->.
    + by intros what ->.
Qed.

Lemma createNefPolyhedronFromPolySet_convex_witness :
  let B := scripted false true true (Raise (Assertion_exception "hull")) in
  (@createNefPolyhedronFromPolySet nat B convex_patch).1 = [] ∧
  (length [0; 1; 3; 2; 4] ≤ 3 →
   (@createNefPolyhedronFromPolySet nat B convex_patch).2 = Ok (mkNef None)) ∧
  (3 < length [0; 1; 3; 2; 4] →
   (∀ r N, @convex_hull_3 nat B [0; 1; 3; 2; 4] = Value r →
           @new_Nef_polyhedron3 nat B r = Value N →
           (@createNefPolyhedronFromPolySet nat B convex_patch).2 = Ok (mkNef (Some N))) ∧
   (∀ what, @convex_hull_3 nat B [0; 1; 3; 2; 4] = Raise (Assertion_exception what) →
            (@createNefPolyhedronFromPolySet nat B convex_patch).2
            = Crash (Uncaught what))).
Proof.
  intros B.
  apply (@createNefPolyhedronFromPolySet_convex nat B convex_patch convex_patch);
    vm_compute; reflexivity.
Defined.

(** X10.  When [createPolyhedronFromPolySet] reports an error by its flag
    on the quantized mesh of a mesh that is not convex,
    [createNefPolyhedronFromPolySet] returns the empty geometry without
    logging anything and without a second attempt. *)
Theorem createNefPolyhedronFromPolySet_build_error `{BoundaryBuilder V}
    (ps psq : PolySet V) (points3d : list V) (P : CGAL_Polyhedron) :
  isEmpty ps = false → getDimension ps = 3 →
  quantizeVertices ps = (psq, points3d) →
  is_convex (tessellate_faces psq (new_PolySet 3 (convexValue psq))) = false →
  createPolyhedronFromPolySet psq = Value (true, P) →
  createNefPolyhedronFromPolySet ps = ([Built psq], Ok (mkNef None)).
Proof.
  intros Hne Hdim Hq Hconv Herr.
  rewrite (createNefPolyhedronFromPolySet_nonconvex ps psq points3d) by done.
  unfold construct_boundary, construct_exact, build. simpl. by rewrite Herr.
Qed.

Lemma createNefPolyhedronFromPolySet_build_error_witness :
  @createNefPolyhedronFromPolySet nat (scripted true true true (Value two_squares))
    two_squares
  = ([Built two_squares], Ok (mkNef None)).
Proof.
  apply (@createNefPolyhedronFromPolySet_build_error nat
           (scripted true true true (Value two_squares))
           two_squares two_squares [3; 2; 1; 0] two_squares);
    vm_compute; reflexivity.
Defined.

(** X11.  When the polyhedron built from the quantized mesh of a mesh
    that is not convex is not closed, or is closed but not valid,
    [createNefPolyhedronFromPolySet] logs the matching error, that of the
    open mesh first, and returns the empty geometry; the volumetric
    structure is not constructed and there is no second attempt. *)
Theorem createNefPolyhedronFromPolySet_rejects `{BoundaryBuilder V}
    (ps psq : PolySet V) (points3d : list V) (P : CGAL_Polyhedron) :
  isEmpty ps = false → getDimension ps = 3 →
  quantizeVertices ps = (psq, points3d) →
  is_convex (tessellate_faces psq (new_PolySet 3 (convexValue psq))) = false →
  createPolyhedronFromPolySet psq = Value (false, P) →
  is_closed P && is_valid P = false →
  createNefPolyhedronFromPolySet ps =
  ([Built psq; Logged (if is_closed P then mesh_invalid else mesh_not_closed)],
   Ok (mkNef None)).
Proof.
  intros Hne Hdim Hq Hconv Herr Hbad.
  rewrite (createNefPolyhedronFromPolySet_nonconvex ps psq points3d) by done.
  unfold construct_boundary, construct_exact, build. simpl. rewrite Herr. simpl.
  destruct (is_closed P); simpl; [|done].
  simpl in Hbad. by rewrite Hbad.
Qed.

Lemma createNefPolyhedronFromPolySet_rejects_witness :
  @createNefPolyhedronFromPolySet nat (scripted false false false (Value two_squares))
    two_squares
  = ([Built two_squares; Logged mesh_not_closed], Ok (mkNef None)).
Proof.
  apply (@createNefPolyhedronFromPolySet_rejects nat
           (scripted false false false (Value two_squares))
           two_squares two_squares [3; 2; 1; 0] two_squares);
    vm_compute; reflexivity.
Defined.

(** ** [createPolySetFromNefPolyhedron3]: the indexed mesh *)

Lemma adjacent_distinct_nil : adjacent_distinct [].
Proof. by intros i a b ?. Qed.

Lemma adjacent_distinct_snoc face x :
  adjacent_distinct face → last face ≠ Some x → adjacent_distinct (face ++ [x]).
Proof.
  intros Hface Hlast i a b Ha Hb.
  destruct (decide (S i < length face)) as [Hlt|Hge].
  - rewrite lookup_app_l in Ha, Hb by lia. by eapply Hface.
  - pose proof (lookup_lt_Some _ _ _ Hb) as Hlen. rewrite length_app in Hlen. simpl in Hlen.
    assert (S i = length face) as Hi by lia.
    rewrite lookup_app_l in Ha by lia.
    rewrite lookup_app_r, Hi, Nat.sub_diag in Hb by lia. injection Hb as <-.
    intros ->. apply Hlast. rewrite last_lookup.
    by replace (pred (length face)) with i by lia.
Qed.

Lemma adjacent_distinct_removelast face :
  adjacent_distinct face → adjacent_distinct (removelast face).
Proof.
  destruct face as [|x face _] using rev_ind; [done|].
  rewrite removelast_last. intros Hface i a b Ha Hb.
  apply (Hface i a b); by apply lookup_app_l_Some.
Qed.

Lemma cyclically_distinct_open face :
  adjacent_distinct face → head face ≠ last face → cyclically_distinct face.
Proof.
  intros Hface Hends i a b Ha Hb.
  pose proof (lookup_lt_Some _ _ _ Ha) as Hi.
  destruct (decide (S i < length face)) as [Hlt|Hge].
  - rewrite Nat.mod_small in Hb by done. by eapply Hface.
  - assert (S i = length face) as Hlen by lia.
    rewrite Hlen, Nat.Div0.mod_same in Hb.
    intros ->. apply Hends. rewrite head_lookup, last_lookup, Hb.
    by replace (pred (length face)) with i by lia.
Qed.

Lemma cyclically_distinct_closed face :
  adjacent_distinct face → 2 ≤ length (removelast face) → head face = last face →
  cyclically_distinct (removelast face).
Proof.
  destruct face as [|x face _] using rev_ind; [simpl; lia|].
  rewrite removelast_last. intros Hface Hlen Hends.
  apply cyclically_distinct_open.
  { intros i a b Ha Hb. apply (Hface i a b); by apply lookup_app_l_Some. }
  rewrite last_snoc in Hends.
  destruct face as [|y face]; [simpl in Hlen; lia|]. simpl in Hends.
  injection Hends as ->. simpl. intros Hlast. symmetry in Hlast.
  rewrite last_lookup in Hlast.
 
  apply (Hface (pred (length (x :: face))) x x); [by apply lookup_app_l_Some| |done].
  rewrite lookup_app_r by (simpl; lia).
  replace (S (pred (length (x :: face))) - length (x :: face)) with 0 by (simpl; lia).
  done.
Qed.

Section indexed.
Context `{K : NefKernel}.
Implicit Types (r : Reindexer Vector3f) (face : IndexedFace)
  (points : list Point_3) (N : Nef_polyhedron_3).

Lemma lookup_array_of points r (p : Point_3) :
  p ∈ points → array_of points r →
  array_of points (lookup r (vector_convert_3f p)).2.
Proof.
  intros Hp [Hnodup Hfrom]. unfold lookup.
  destruct (list_find _ _) as [[idx x]|] eqn:Hfind; simpl; [done|].
  apply list_find_None in Hfind. split.
  - apply NoDup_app. split; [done|]. split; [|apply NoDup_singleton].
    intros x Hx ->%list_elem_of_singleton.
    by apply (proj1 (Forall_forall _ _) Hfind _ Hx).
  - intros v [Hv| ->%list_elem_of_singleton]%elem_of_app; eauto.
Qed.

Lemma index_vertex_eq (st : Reindexer Vector3f * IndexedFace) (p : Point_3) :
  index_vertex st p =
  ((lookup st.1 (vector_convert_3f p)).2,
   if bool_decide (st.2 = []) ||
      negb (bool_decide (Some (lookup st.1 (vector_convert_3f p)).1 = last st.2))
   then st.2 ++ [(lookup st.1 (vector_convert_3f p)).1] else st.2).
Proof. destruct st as [r face]. simpl. by destruct (lookup r _). Qed.

(** The loop over the points of a cycle. *)
Lemma index_vertices points cycle (st : Reindexer Vector3f * IndexedFace) :
  (∀ p, p ∈ cycle → p ∈ points) →
  array_of points st.1 → adjacent_distinct st.2 →
  array_of points (fold_left index_vertex cycle st).1 ∧
  adjacent_distinct (fold_left index_vertex cycle st).2 ∧
  length (fold_left index_vertex cycle st).2 ≤ length st.2 + length cycle.
Proof.
  revert st. induction cycle as [|p cycle IH]; intros st Hin Harr Hface; simpl.
  { split; [done|]. split; [done|lia]. }
  destruct (IH (index_vertex st p)) as (? & ? & Hlen).
  - intros q Hq. apply Hin. by right.
  - rewrite index_vertex_eq. simpl. apply lookup_array_of; [|done].
    apply Hin. by left.
  - rewrite index_vertex_eq. simpl.
    destruct (bool_decide (st.2 = [])) eqn:Hempty; simpl.
    { apply bool_decide_eq_true in Hempty. rewrite Hempty. simpl.
      intros [|i] a b Ha Hb; simplify_eq/=. }
    destruct (bool_decide (Some _ = last _)) eqn:Hlast; simpl; [done|].
    apply bool_decide_eq_false in Hlast.
    apply adjacent_distinct_snoc; [done|]. congruence.
  - split; [done|]. split; [done|].
    assert (length (index_vertex st p).2 ≤ S (length st.2)) as Hstep.
    { rewrite index_vertex_eq. simpl.
      destruct (_ || _); [rewrite length_app; simpl|]; lia. }
    simpl. lia.
Qed.

Lemma index_cycle_loop points cycle r :
  (∀ p, p ∈ cycle → p ∈ points) → array_of points r →
  array_of points (index_cycle cycle r).1 ∧
  (2 ≤ length (index_cycle cycle r).2 → cyclically_distinct (index_cycle cycle r).2) ∧
  length (index_cycle cycle r).2 ≤ length cycle.
Proof.
  intros Hin Harr. unfold index_cycle.
  destruct (index_vertices points cycle (r, []) Hin Harr adjacent_distinct_nil)
    as (Harr' & Hface & Hlen).
  destruct (fold_left index_vertex cycle (r, [])) as [r' face]. simpl in *.
  split; [done|].
  destruct (bool_decide (face = [])) eqn:Hne; simpl.
  { apply bool_decide_eq_true in Hne. subst face. simpl. split; lia. }
  destruct (bool_decide (head face = last face)) eqn:Hends.
  - apply bool_decide_eq_true in Hends.
    split; [intros ?; by apply cyclically_distinct_closed|].
    destruct face using rev_ind; [simpl; lia|].
    rewrite removelast_last. rewrite length_app in Hlen. simpl in Hlen. lia.
  - apply bool_decide_eq_false in Hends.
    split; [intros _; by apply cyclically_distinct_open|lia].
Qed.

Lemma index_cycles_loops points cycles r :
  (∀ cycle p, cycle ∈ cycles → p ∈ cycle → p ∈ points) → array_of points r →
  array_of points (index_cycles cycles r).1 ∧
  Forall (λ face, 3 ≤ length face ∧ cyclically_distinct face) (index_cycles cycles r).2 ∧
  (Forall (λ cycle, length cycle < 3) cycles → (index_cycles cycles r).2 = []).
Proof.
  unfold index_cycles.
  assert (∀ st : Reindexer Vector3f * list IndexedFace,
            (∀ cycle p, cycle ∈ cycles → p ∈ cycle → p ∈ points) →
            array_of points st.1 →
            Forall (λ face, 3 ≤ length face ∧ cyclically_distinct face) st.2 →
            array_of points (fold_left add_cycle cycles st).1 ∧
            Forall (λ face, 3 ≤ length face ∧ cyclically_distinct face)
              (fold_left add_cycle cycles st).2 ∧
            (Forall (λ cycle, length cycle < 3) cycles →
             (fold_left add_cycle cycles st).2 = st.2)) as Hfold.
  { induction cycles as [|cycle cycles IH]; intros [r0 faces] Hin Harr Hfaces; simpl.
    { done. }
    destruct (index_cycle_loop points cycle r0) as (Harr' & Hloop & Hlen);
      [intros p Hp; apply (Hin cycle); [by left|done] | done |].
    destruct (index_cycle cycle r0) as [r1 face]. simpl in *.
    destruct (IH (r1, if length face <? 3 then removelast (faces ++ [face])
                      else faces ++ [face])) as (? & ? & Hshort).
    - intros c p Hc. apply Hin. by right.
    - done.
    - simpl. destruct (length face <? 3) eqn:Hl.
      + by rewrite removelast_last.
      + apply Nat.ltb_ge in Hl. apply Forall_app. split; [done|].
        constructor; [|done]. split; [done|]. apply Hloop. lia.
    - split; [done|]. split; [done|].
      intros Hall. apply Forall_cons in Hall as [Hc Hall].
      rewrite (Hshort Hall). simpl.
      assert ((length face <? 3) = true) as -> by (apply Nat.ltb_lt; lia).
      by rewrite removelast_last. }
  intros Hin Harr. by apply (Hfold (r, [])).
Qed.

Lemma facet_faces_loops points (hf : Halffacet) r :
  (incident_volume_mark hf = false →
   ∀ cycle p, cycle ∈ facet_cycles hf → p ∈ cycle → p ∈ points) →
  array_of points r →
  array_of points (facet_faces hf r).1 ∧
  Forall (λ face, 3 ≤ length face ∧ cyclically_distinct face) (facet_faces hf r).2 ∧
  (skipped hf → (facet_faces hf r).2 = []).
Proof.
  intros Hin Harr. unfold facet_faces, skipped.
  destruct (incident_volume_mark hf); simpl; [split; [done|]; split; [constructor|done]|].
  destruct (index_cycles_loops points (facet_cycles hf) r) as (? & ? & Hshort);
    [by apply Hin|done|].
  split; [done|]. split; [done|]. intros [?|?]; [done|by apply Hshort].
Qed.

Lemma boundary_points_elem N (hf : Halffacet) cycle (p : Point_3) :
  hf ∈ N → incident_volume_mark hf = false →
  cycle ∈ facet_cycles hf → p ∈ cycle → p ∈ boundary_points N.
Proof.
  intros Hhf Hmark Hc Hp. unfold boundary_points.
  apply list_elem_of_bind. exists hf. split; [|done].
  rewrite Hmark. apply list_elem_of_In, in_concat. exists cycle.
  by rewrite <- !list_elem_of_In.
Qed.

Lemma retained_loops points N r :
  (∀ (hf : Halffacet) cycle p,
     hf ∈ N → incident_volume_mark hf = false →
     cycle ∈ facet_cycles hf → p ∈ cycle → p ∈ points) →
  array_of points r →
  array_of points (retained N r).1 ∧
  Forall (λ '(_, faces),
            Forall (λ face, 3 ≤ length face ∧ cyclically_distinct face) faces)
    (retained N r).2 ∧
  (Forall skipped N → (retained N r).2 = []).
Proof.
  revert r. induction N as [|hf N IH]; intros r Hin Harr; simpl; [done|].
  destruct (facet_faces_loops points hf r) as (Harr' & Hfaces & Hskip); [|done|].
  { intros Hmark cycle p Hc Hp. apply (Hin hf cycle); [by left|done..]. }
  destruct (facet_faces hf r) as [r1 faces]. simpl in *.
  destruct (IH r1) as (? & ? & Hskips); [|done|].
  { intros hf' cycle p Hhf'. apply Hin. by right. }
  destruct (retained N r1) as [r2 rest]. simpl in *.
  split; [done|]. split.
  - case_bool_decide; [done|]. by constructor.
  - intros Hall. apply Forall_cons in Hall as [Hhf Hall].
    rewrite (Hskips Hall), (Hskip Hhf). done.
Qed.

Lemma retained_boundary N :
  array_of (boundary_points N) (retained N (mkReindexer [])).1 ∧
  Forall (λ '(_, faces),
            Forall (λ face, 3 ≤ length face ∧ cyclically_distinct face) faces)
    (retained N (mkReindexer [])).2.
Proof.
  destruct (retained_loops (boundary_points N) N (mkReindexer [])) as (? & ? & _);
    [|split; [apply NoDup_nil_2|by intros v ?%elem_of_nil]|done].
  intros hf cycle p. apply boundary_points_elem.
Qed.

Lemma retained_skipped N :
  Forall skipped N → (retained N (mkReindexer [])).2 = [].
Proof.
  destruct (retained_loops (boundary_points N) N (mkReindexer [])) as (_ & _ & ?);
    [|split; [apply NoDup_nil_2|by intros v ?%elem_of_nil]|done].
  intros hf cycle p. apply boundary_points_elem.
Qed.

Lemma array_of_nil points : array_of points (mkReindexer []).
Proof. split; [apply NoDup_nil_2|]. by intros v ?%elem_of_nil. Qed.

(** The state after step 1, by the retained half-facets. *)
Lemma indexed_mesh_eq N :
  indexed_mesh N =
  ((retained N (mkReindexer [])).1,
   (retained N (mkReindexer [])).2.*2,
   (λ '(hf, _), negb (mark hf)) <$> (retained N (mkReindexer [])).2).
Proof.
  unfold indexed_mesh. rewrite index_halffacets. simpl.
  rewrite face_groups_fst. f_equal. unfold face_groups.
  rewrite <- list_fmap_compose. apply list_fmap_ext. by intros _ [hf faces] _.
Qed.
End indexed.

(** X12.  After step 1 of [createPolySetFromNefPolyhedron3] the vertex
    array holds no vertex twice; there is one mark per face group and no
    group is empty; and every face of every group, which is what the
    tessellator is given, has at least three indices, all of them within
    the vertex array, and no index is followed by itself around the loop.
    So no face has two equal vertices in a row. *)
Theorem indexed_mesh_faces `{NefKernel} (N : Nef_polyhedron_3) :
  let '(allVertices, polygons, markedPolygons) := indexed_mesh N in
  NoDup (getArray allVertices) ∧
  length markedPolygons = length polygons ∧
  Forall (λ faces, faces ≠ [] ∧
                   Forall (proper_loop (length (getArray allVertices))) faces)
    polygons.
Proof.
  rewrite indexed_mesh_eq.
  destruct (retained_boundary N) as ([Hnodup _] & Hloops).
  pose proof (retained_bound N (mkReindexer [])) as [_ Hbound].
  split; [done|]. split; [by rewrite !length_fmap|].
  apply Forall_fmap, Forall_forall. intros [hf faces] Hin. simpl.
  split; [by apply retained_source in Hin as (_ & _ & ?)|].
  rewrite Forall_forall in Hloops, Hbound.
  specialize (Hloops _ Hin). specialize (Hbound _ Hin). simpl in *.
  rewrite Forall_forall in Hloops, Hbound. apply Forall_forall.
  intros face Hface. destruct (Hloops _ Hface). split; [done|]. split; [|done].
  by apply Hbound.
Qed.

(** X13.  Every vertex of every polygon [createPolySetFromNefPolyhedron3]
    appends is the narrowing of a point on a boundary cycle of a
    half-facet of the structure that lies on an unmarked volume: the
    conversion invents no vertex. *)
Theorem createPolySetFromNefPolyhedron3_vertices `{GeometryUtils}
    (N : Nef_polyhedron_3) (ps ps' : PolySet Vector3f) (err : bool)
    (log : list log_entry) (poly : Polygon Vector3f) (v : Vector3f) :
  createPolySetFromNefPolyhedron3 N ps = Ok (err, ps', log) →
  poly ∈ drop (length (polygons ps)) (polygons ps') → v ∈ vertices poly →
  ∃ p, p ∈ boundary_points N ∧ v = vector_convert_3f p.
Proof.
  intros Hrun Hpoly Hv.
  destruct (createPolySetFromNefPolyhedron3_cases N ps)
    as [[_ Hcrash]|(_ & out & log' & Hout & Heq)]; [congruence|].
  rewrite Heq in Hrun. injection Hrun as _ <- _. simpl in Hpoly.
  rewrite drop_app_length in Hpoly.
  destruct (retained_boundary N) as ([_ Hfrom] & _).
  apply Hfrom. fold (all_vertices N).
  unfold emitted in Hout.
  apply list_elem_of_lookup in Hpoly as [k Hk].
  destruct (Forall2_lookup_r _ _ _ _ _ Hout Hk) as ([t m] & _ & _ & v0 & v1 & v2 & Hv0 & Hv1 & Hv2 & Hvs).
  rewrite Hvs in Hv.
  apply elem_of_cons in Hv as [->|Hv]; [by eapply list_elem_of_lookup_2|].
  apply elem_of_cons in Hv as [->|Hv]; [by eapply list_elem_of_lookup_2|].
  apply list_elem_of_singleton in Hv as ->. by eapply list_elem_of_lookup_2.
Qed.

Lemma createPolySetFromNefPolyhedron3_vertices_witness :
  ∃ p, p ∈ boundary_points triangle_square_triangle ∧
       point 1 0 0 = vector_convert_3f p.
Proof.
  eapply (createPolySetFromNefPolyhedron3_vertices triangle_square_triangle
            (new_PolySet 3 None) _ _ _
            (mkPolygon false [point 0 0 0; point 1 0 0; point 0 1 0]) (point 1 0 0)).
  - vm_compute. reflexivity.
  - simpl. left.
  - simpl. right. left.
Defined.

(** ** [createPolySetFromNefPolyhedron3]: failure and composition *)

Lemma forallb_false {A} (f : A → bool) (l : list A) :
  forallb f l = false → ∃ x, x ∈ l ∧ f x = false.
Proof.
  induction l as [|x l IH]; simpl; [done|].
  destruct (f x) eqn:Hx; simpl.
  - intros (y & ? & ?)%IH. exists y. split; [by right|done].
  - intros _. exists x. split; [by left|done].
Qed.

Section conversion.
Context `{G : GeometryUtils}.
Implicit Types (N : Nef_polyhedron_3) (ps : PolySet Vector3f).

Lemma emitted_unique verts tm out out' :
  emitted verts tm out → emitted verts tm out' → out = out'.
Proof.
  unfold emitted. intros Hout. revert out'.
  induction Hout as [|[t m] p tm out [Hm Hp] _ IH]; intros out' Hout'.
  { by apply Forall2_nil_inv_l in Hout'. }
  apply Forall2_cons_inv_l in Hout' as (p' & out'' & [Hm' Hp'] & Hrest & ->).
  f_equal; [|by apply IH].
  destruct Hp as (v0 & v1 & v2 & H0 & H1 & H2 & Hv).
  destruct Hp' as (v0' & v1' & v2' & H0' & H1' & H2' & Hv').
  destruct p, p'. simpl in *. congruence.
Qed.

(** The run into a mesh is the run into an empty mesh, with the
    polygons of the mesh in front. *)
Lemma createPolySetFromNefPolyhedron3_into N ps dim convex :
  createPolySetFromNefPolyhedron3 N ps =
  match createPolySetFromNefPolyhedron3 N (new_PolySet dim convex) with
  | Ok (err, fresh, log) =>
      Ok (err, mkPolySet (polygons ps ++ polygons fresh)
                 (getDimension ps) (convexValue ps), log)
  | Crash f => Crash f
  end.
Proof.
  unfold createPolySetFromNefPolyhedron3.
  rewrite index_halffacets. simpl.
  fold (all_vertices N). rewrite !triangulate_faces_eq. fold (conversion_triangles N).
  destruct (forallb _ _) eqn:Hrange; [|done]. simpl.
  destruct (emit_triangles_eq (R:=bool * PolySet Vector3f * list log_entry)
              (all_vertices N) (conversion_triangles N) ps Hrange) as (out & Hout & ->).
  destruct (emit_triangles_eq (R:=bool * PolySet Vector3f * list log_entry)
              (all_vertices N) (conversion_triangles N) (new_PolySet dim convex) Hrange)
    as (out' & Hout' & ->).
  simpl. by rewrite (emitted_unique _ _ _ _ Hout Hout').
Qed.

Lemma conversion_triangles_elem N t :
  t ∈ (conversion_triangles N).*1 →
  ∃ faces, faces ∈ (indexed_mesh N).1.2 ∧
           t ∈ kept_triangles (getArray (indexed_mesh N).1.1) faces.
Proof.
  rewrite indexed_mesh_eq. simpl. fold (all_vertices N).
  unfold conversion_triangles. rewrite marked_triangles_fst, face_groups_fst.
  intros Ht. apply list_elem_of_In, in_flat_map in Ht as (faces & Hf & Ht).
  exists faces. by rewrite !list_elem_of_In.
Qed.
End conversion.

(** X14.  [createPolySetFromNefPolyhedron3] fails in one way only: the
    assertion on a triangle the tessellator returned, without an error,
    with an index outside the vertex array.  The checked accesses
    [markedPolygons.at] and [markedTriangles.at] never throw and no vertex
    is read out of bounds. *)
Theorem createPolySetFromNefPolyhedron3_fails `{GeometryUtils}
    (N : Nef_polyhedron_3) (ps : PolySet Vector3f) (f : fault) :
  createPolySetFromNefPolyhedron3 N ps = Crash f →
  f = AssertionFailed ∧
  ∃ faces triangles t,
    faces ∈ (indexed_mesh N).1.2 ∧
    tessellatePolygonWithHoles (getArray (indexed_mesh N).1.1) faces
    = (false, triangles) ∧
    t ∈ triangles ∧
    triangle_in_range (length (getArray (indexed_mesh N).1.1)) t = false.
Proof.
  intros Hcrash.
  destruct (createPolySetFromNefPolyhedron3_cases N ps)
    as [[Hrange Heq]|(_ & out & log & _ & Heq)]; [|congruence].
  split; [congruence|].
  apply forallb_false in Hrange as (t & Ht & Hbad).
  apply conversion_triangles_elem in Ht as (faces & Hfaces & Ht).
  unfold kept_triangles in Ht.
  destruct (tessellatePolygonWithHoles _ faces) as [[] triangles] eqn:Htess;
    [by apply elem_of_nil in Ht|].
  exists faces, triangles, t. split; [done|]. split; [done|]. split; [done|].
  rewrite indexed_mesh_eq. done.
Qed.

Lemma createPolySetFromNefPolyhedron3_fails_witness :
  AssertionFailed = AssertionFailed ∧
  ∃ faces triangles t,
    faces ∈ (indexed_mesh marked_triangle).1.2 ∧
    @tessellatePolygonWithHoles _ careless
      (getArray (indexed_mesh marked_triangle).1.1) faces = (false, triangles) ∧
    t ∈ triangles ∧
    triangle_in_range (length (getArray (indexed_mesh marked_triangle).1.1)) t = false.
Proof.
  apply (@createPolySetFromNefPolyhedron3_fails _ careless marked_triangle
           (new_PolySet 3 None) AssertionFailed).
  reflexivity.
Defined.

(** X15.  A structure all of whose half-facets lie on marked volumes or
    have no boundary cycle of three points gives no polygon:
    [createPolySetFromNefPolyhedron3] returns the mesh it was given, with
    the flag false.  This holds of the structure without half-facets. *)
Theorem createPolySetFromNefPolyhedron3_skipped `{GeometryUtils}
    (N : Nef_polyhedron_3) (ps : PolySet Vector3f) :
  Forall skipped N →
  ∃ log, createPolySetFromNefPolyhedron3 N ps = Ok (false, ps, log).
Proof.
  intros Hskipped%retained_skipped.
  destruct (createPolySetFromNefPolyhedron3_cases N ps)
    as [[Hrange _]|(_ & out & log & Hout & ->)].
  { unfold conversion_triangles in Hrange. by rewrite Hskipped in Hrange. }
  unfold conversion_triangles in Hout. rewrite Hskipped in Hout.
  apply Forall2_nil_inv_l in Hout as ->. exists log.
  destruct ps. simpl. by rewrite app_nil_r.
Qed.

Lemma createPolySetFromNefPolyhedron3_skipped_witness :
  ∃ log,
    createPolySetFromNefPolyhedron3
      [ mkHalffacet integer_points true true
          [[point 0 0 0; point 1 0 0; point 0 1 0]];
        mkHalffacet integer_points true false
          [[point 0 0 0; point 1 0 0]; [point 2 2 2]] ]
      (new_PolySet 3 None)
    = Ok (false, new_PolySet 3 None, log).
Proof.
  apply createPolySetFromNefPolyhedron3_skipped.
  repeat constructor; simpl; lia.
Defined.

(** X16.  The polygons [createPolySetFromNefPolyhedron3] appends do not
    depend on the mesh it appends them to: a run into a mesh gives that
    mesh, with its dimension and convexity hint, followed by the polygons
    of a run into a new mesh, with the same flag and the same log; and it
    fails when that run fails. *)
Theorem createPolySetFromNefPolyhedron3_appends `{GeometryUtils}
    (N : Nef_polyhedron_3) (ps : PolySet Vector3f) :
  createPolySetFromNefPolyhedron3 N ps =
  match createPolySetFromNefPolyhedron3 N (new_PolySet 3 None) with
  | Ok (err, fresh, log) =>
      Ok (err, mkPolySet (polygons ps ++ polygons fresh)
                 (getDimension ps) (convexValue ps), log)
  | Crash f => Crash f
  end.
Proof. apply createPolySetFromNefPolyhedron3_into. Qed.

(** ** The comparator of the edge map *)

Section weak_orders.
Context {T : Type} (good : T → Prop) (lt eqv : T → T → bool).
Hypothesis Horder : weak_order good lt eqv.

Lemma weak_order_cases a b :
  good a → good b →
  (lt a b = true ∧ eqv a b = false ∧ lt b a = false ∧ eqv b a = false) ∨
  (lt a b = false ∧ eqv a b = true ∧ lt b a = false ∧ eqv b a = true) ∨
  (lt a b = false ∧ eqv a b = false ∧ lt b a = true ∧ eqv b a = false).
Proof.
  intros Ha Hb. destruct Horder as (Htri & _ & _).
  pose proof (Htri a b Ha Hb) as H1. pose proof (Htri b a Hb Ha) as H2.
  destruct (lt a b), (eqv a b), (lt b a), (eqv b a); simpl in *; try done; tauto.
Qed.

Lemma weak_order_irrefl a : good a → lt a a = false.
Proof. intros Ha. destruct (weak_order_cases a a Ha Ha); intuition congruence. Qed.

Lemma weak_order_lt_eqv a b c :
  good a → good b → good c →
  lt a b = true → eqv b c = true → lt a c = true.
Proof.
  intros Ha Hb Hc Hab Hbc. destruct Horder as (_ & Heqv & Hlt).
  destruct (weak_order_cases a c Ha Hc) as [(?&_)|[(_&Hac&_)|(_&_&Hca&_)]]; [done|..].
  - destruct (weak_order_cases b c Hb Hc) as [?|[(_&_&_&Hcb)|?]]; [intuition congruence| |intuition congruence].
    pose proof (Heqv a c b Ha Hc Hb Hac Hcb).
    destruct (weak_order_cases a b Ha Hb); intuition congruence.
  - pose proof (Hlt c a b Hc Ha Hb Hca Hab).
    destruct (weak_order_cases b c Hb Hc); intuition congruence.
Qed.

Lemma weak_order_eqv_lt a b c :
  good a → good b → good c →
  eqv a b = true → lt b c = true → lt a c = true.
Proof.
  intros Ha Hb Hc Hab Hbc. destruct Horder as (_ & Heqv & Hlt).
  destruct (weak_order_cases a c Ha Hc) as [(?&_)|[(_&Hac&_)|(_&_&Hca&_)]]; [done|..].
  - destruct (weak_order_cases a b Ha Hb) as [?|[(_&_&_&Hba)|?]]; [intuition congruence| |intuition congruence].
    pose proof (Heqv b a c Hb Ha Hc Hba Hac).
    destruct (weak_order_cases b c Hb Hc); intuition congruence.
  - pose proof (Hlt b c a Hb Hc Ha Hbc Hca).
    destruct (weak_order_cases a b Ha Hb); intuition congruence.
Qed.
End weak_orders.

(** The lexicographic order of two weak orders is one. *)
Lemma weak_order_lex {T U} (good1 : T → Prop) (lt1 eqv1 : T → T → bool)
    (good2 : U → Prop) (lt2 eqv2 : U → U → bool) :
  weak_order good1 lt1 eqv1 → weak_order good2 lt2 eqv2 →
  weak_order (λ a, good1 a.1 ∧ good2 a.2) (lex_lt lt1 eqv1 lt2) (lex_eqv eqv1 eqv2).
Proof.
  intros H1 H2. unfold lex_lt, lex_eqv. split; [|split].
  - intros [a1 a2] [b1 b2] [Ha1 Ha2] [Hb1 Hb2]. simpl in *.
    destruct (weak_order_cases _ _ _ H1 a1 b1 Ha1 Hb1)
      as [(E1&E2&E3&E4)|[(E1&E2&E3&E4)|(E1&E2&E3&E4)]];
      destruct (weak_order_cases _ _ _ H2 a2 b2 Ha2 Hb2)
        as [(F1&F2&F3&F4)|[(F1&F2&F3&F4)|(F1&F2&F3&F4)]];
      by rewrite ?E1, ?E2, ?E3, ?E4, ?F1, ?F2, ?F3, ?F4.
  - intros [a1 a2] [b1 b2] [c1 c2] [Ha1 Ha2] [Hb1 Hb2] [Hc1 Hc2]. simpl.
    intros [? ?]%andb_true_iff [? ?]%andb_true_iff. apply andb_true_iff.
    destruct H1 as (_ & Heqv1 & _), H2 as (_ & Heqv2 & _). split; eauto.
  - intros [a1 a2] [b1 b2] [c1 c2] [Ha1 Ha2] [Hb1 Hb2] [Hc1 Hc2]. simpl.
    intros [Hab|[Hab Hab2]%andb_true_iff]%orb_true_iff
           [Hbc|[Hbc Hbc2]%andb_true_iff]%orb_true_iff;
      apply orb_true_iff.
    + left. destruct H1 as (_ & _ & Hlt). eauto.
    + left. by eapply (weak_order_lt_eqv _ _ _ H1 a1 b1 c1).
    + left. by eapply (weak_order_eqv_lt _ _ _ H1 a1 b1 c1).
    + right. apply andb_true_iff. split.
      * destruct H1 as (_ & Heqv & _). eauto.
      * destruct H2 as (_ & _ & Hlt). eauto.
Qed.

Section comparator.
Context `{K : Kernel} (l : list FT).
Hypothesis Hordered : totally_ordered l = true.

Lemma FT_weak_order : weak_order (λ x, x ∈ l) FT_lt FT_eq.
Proof.
  unfold totally_ordered in Hordered. rewrite forallb_forall in Hordered.
  assert (∀ a b, a ∈ l → b ∈ l →
            one_of (FT_lt a b) (FT_eq a b) (FT_lt b a) = true ∧
            ∀ c, c ∈ l →
              implb (FT_eq a b && FT_eq b c) (FT_eq a c) = true ∧
              implb (FT_lt a b && FT_lt b c) (FT_lt a c) = true) as Hall.
  { intros a b Ha%list_elem_of_In Hb%list_elem_of_In.
    specialize (Hordered a Ha). rewrite forallb_forall in Hordered.
    specialize (Hordered b Hb). apply andb_true_iff in Hordered as [Htri Hc].
    split; [done|]. intros c Hc'%list_elem_of_In.
    rewrite forallb_forall in Hc. specialize (Hc c Hc').
    by apply andb_true_iff in Hc. }
  split; [|split].
  - intros a b Ha Hb. by apply Hall.
  - intros a b c Ha Hb Hc Hab Hbc.
    destruct (Hall a b Ha Hb) as [_ Hc']. destruct (Hc' c Hc) as [Heq _].
    by rewrite Hab, Hbc in Heq.
  - intros a b c Ha Hb Hc Hab Hbc.
    destruct (Hall a b Ha Hb) as [_ Hc']. destruct (Hc' c Hc) as [_ Hlt].
    by rewrite Hab, Hbc in Hlt.
Qed.

(** [operator<] on vectors is the lexicographic order of the
    coordinates. *)
Lemma Vector3d_lt_lex (a b : Vector3d) :
  Vector3d_lt a b =
  lex_lt FT_lt FT_eq (lex_lt FT_lt FT_eq FT_lt)
    (v_x a, (v_y a, v_z a)) (v_x b, (v_y b, v_z b)).
Proof.
  unfold Vector3d_lt, lex_lt. simpl.
  by destruct (FT_lt (v_x a) (v_x b)), (FT_eq (v_x a) (v_x b)),
    (FT_lt (v_y a) (v_y b)), (FT_eq (v_y a) (v_y b)),
    (FT_lt (v_z a) (v_z b)), (FT_eq (v_z a) (v_z b)).
Qed.

Lemma Vector3d_eqv_lex (a b : Vector3d) :
  Vector3d_eqv a b =
  lex_eqv FT_eq (lex_eqv FT_eq FT_eq)
    (v_x a, (v_y a, v_z a)) (v_x b, (v_y b, v_z b)).
Proof. unfold Vector3d_eqv, lex_eqv. simpl. by rewrite andb_assoc. Qed.

Lemma Vector3d_weak_order :
  weak_order (vector_within l) Vector3d_lt Vector3d_eqv.
Proof.
  pose proof (weak_order_lex _ _ _ _ _ _ FT_weak_order
                (weak_order_lex _ _ _ _ _ _ FT_weak_order FT_weak_order))
    as (Htri & Heqv & Hlt).
  split; [|split].
  - intros a b (?&?&?) (?&?&?). rewrite !Vector3d_lt_lex, Vector3d_eqv_lex.
    by apply Htri.
  - intros a b c (?&?&?) (?&?&?) (?&?&?). rewrite !Vector3d_eqv_lex.
    by apply Heqv.
  - intros a b c (?&?&?) (?&?&?) (?&?&?). rewrite !Vector3d_lt_lex.
    by apply Hlt.
Qed.

(** On such edges [VecPairCompare] is the lexicographic order of the
    two vertices, and the keys the map identifies are the edges that
    agree in every coordinate. *)
Lemma VecPairCompare_lex (a b : Edge) :
  edge_within l a → edge_within l b →
  VecPairCompare a b = lex_lt Vector3d_lt Vector3d_eqv Vector3d_lt a b.
Proof.
  intros [Ha1 Ha2] [Hb1 Hb2]. unfold VecPairCompare, lex_lt.
  destruct (weak_order_cases _ _ _ Vector3d_weak_order a.1 b.1 Ha1 Hb1)
    as [(->&->&->&_)|[(->&->&->&_)|(->&->&->&_)]]; done.
Qed.

Lemma edge_weak_order :
  weak_order (edge_within l)
    (lex_lt Vector3d_lt Vector3d_eqv Vector3d_lt)
    (lex_eqv Vector3d_eqv Vector3d_eqv).
Proof. apply weak_order_lex; apply Vector3d_weak_order. Qed.

Lemma equivalent_lex (a b : Edge) :
  edge_within l a → edge_within l b →
  equivalent a b = lex_eqv Vector3d_eqv Vector3d_eqv a b.
Proof.
  intros Ha Hb. unfold equivalent. rewrite !VecPairCompare_lex by done.
  destruct (weak_order_cases _ _ _ edge_weak_order a b Ha Hb)
    as [(->&->&->&_)|[(->&->&->&_)|(->&->&->&_)]]; done.
Qed.

Lemma equivalent_transitive (a b c : Edge) :
  edge_within l a → edge_within l b → edge_within l c →
  equivalent a b = true → equivalent b c = true → equivalent a c = true.
Proof.
  intros Ha Hb Hc. rewrite !equivalent_lex by done.
  destruct edge_weak_order as (_ & Heqv & _). by apply Heqv.
Qed.
End comparator.

Lemma mesh_keys_within `{Kernel} (ps : PolySet Vector3d) (e : Edge) :
  e ∈ mesh_keys ps → edge_within (mesh_coordinates ps) e.
Proof.
  unfold mesh_keys. intros (poly & He & Hpoly)%list_elem_of_bind.
  apply list_elem_of_bind in He as (a & He & Ha).
  apply list_elem_of_bind in He as (b & He & Hb).
  apply list_elem_of_singleton in He as ->.
  assert (∀ v, v ∈ vertices poly → vector_within (mesh_coordinates ps) v) as Hv.
  { intros v Hv.
    assert (∀ x, x ∈ coefficients v → x ∈ mesh_coordinates ps) as Hx.
    { intros x Hx. unfold mesh_coordinates.
      apply list_elem_of_bind. exists poly. split; [|done].
      apply list_elem_of_bind. exists v. done. }
    unfold coefficients in Hx. repeat split; apply Hx; set_solver. }
  split; by apply Hv.
Qed.

(** On edges whose coordinates are totally ordered [VecPairCompare] is a
    strict weak ordering. *)
Lemma VecPairCompare_ordered `{Kernel} (l : list FT) (a b c : Edge) :
  totally_ordered l = true →
  edge_within l a → edge_within l b → edge_within l c →
  VecPairCompare a a = false ∧
  (VecPairCompare a b = true → VecPairCompare b c = true →
   VecPairCompare a c = true) ∧
  (equivalent a b = true → equivalent b c = true → equivalent a c = true) ∧
  equivalent a b = Vector3d_eqv a.1 b.1 && Vector3d_eqv a.2 b.2.
Proof.
  intros Hordered Ha Hb Hc.
  pose proof (edge_weak_order l Hordered) as Horder.
  split; [|split; [|split]].
  - rewrite (VecPairCompare_lex l) by done. by eapply weak_order_irrefl.
  - rewrite !(VecPairCompare_lex l) by done.
    destruct Horder as (_ & _ & Hlt). by apply Hlt.
  - by apply (equivalent_transitive l).
  - by rewrite (equivalent_lex l).
Qed.

(** The comparator orders the pairs of vertices of a mesh whose
    coordinates are totally ordered. *)
Lemma mesh_keys_ordered `{Kernel} (ps : PolySet Vector3d) :
  totally_ordered (mesh_coordinates ps) = true →
  strict_weak_ordering (mesh_keys ps).
Proof.
  intros Hordered. split; [|split].
  - intros a Ha%mesh_keys_within.
    by destruct (VecPairCompare_ordered _ a a a Hordered Ha Ha Ha) as (? & _).
  - intros a b c Ha%mesh_keys_within Hb%mesh_keys_within Hc%mesh_keys_within.
    by destruct (VecPairCompare_ordered _ a b c Hordered Ha Hb Hc) as (_ & ? & _).
  - intros a b c Ha%mesh_keys_within Hb%mesh_keys_within Hc%mesh_keys_within.
    by destruct (VecPairCompare_ordered _ a b c Hordered Ha Hb Hc) as (_ & _ & ? & _).
Qed.

(** The check on a mesh of faces with three vertices or more whose keys
    the comparator orders, with any map. *)
Lemma is_approximately_convex_ordered `{M : std_map} (ps : PolySet Vector3d) :
  proper_faces ps → strict_weak_ordering (mesh_keys ps) →
  (is_approximately_convex ps = Ok true →
   convexity_conditions not_below_threshold ps) ∧
  (¬ convexity_conditions not_below_threshold ps →
   is_approximately_convex ps = Ok false).
Proof.
  intros Hproper Hord. rewrite (is_approximately_convex_linear ps Hord).
  destruct (decide (polygons ps = [])) as [Hempty|Hne].
  { pose proof (convexity_conditions_empty not_below_threshold ps Hempty).
    split; [done|done]. }
  destruct (is_approximately_convex_returns ps Hne) as (b & -> & Hb).
  split.
  - intros [= ->]. by apply Hb.
  - intros Hnot. destruct b; [|done]. destruct Hnot. by apply Hb.
Qed.

(** The pyramid is accepted. *)
Example is_approximately_convex_pyramid :
  is_approximately_convex pyramid = Ok true.
Proof. vm_compute. reflexivity. Qed.

(** X19.  On every mesh with a face [is_approximately_convex] returns a
    boolean: no face, vertex or plane is read out of bounds, whatever the
    faces are and whatever entries the searches of the map end on, and the
    traversal ends. *)
Theorem is_approximately_convex_total `{std_map} (ps : PolySet Vector3d) :
  polygons ps ≠ [] → ∃ b, is_approximately_convex ps = Ok b.
Proof.
  intros Hne. destruct (is_approximately_convex_returns_any ps Hne) as [b Hb].
  by exists b.
Qed.

Lemma is_approximately_convex_total_witness :
  ∃ b, is_approximately_convex tetrahedron_behind_digon = Ok b.
Proof. apply is_approximately_convex_total. done. Defined.

(** ** NaN among the coordinates *)

Lemma ltb_nan_l (x y : float) : PrimFloat.is_nan x = true → (x <? y)%float = false.
Proof.
  intros Hnan. rewrite FloatAxioms.ltb_spec. unfold Prim2SF at 1. by rewrite Hnan.
Qed.

Lemma ltb_nan_r (x y : float) : PrimFloat.is_nan x = true → (y <? x)%float = false.
Proof.
  intros Hnan. rewrite FloatAxioms.ltb_spec. unfold Prim2SF at 2. rewrite Hnan.
  unfold SFltb. by destruct (Prim2SF y).
Qed.

Lemma eqb_nan_l (x y : float) : PrimFloat.is_nan x = true → (x =? y)%float = false.
Proof.
  intros Hnan. rewrite FloatAxioms.eqb_spec. unfold Prim2SF at 1. by rewrite Hnan.
Qed.

Lemma eqb_nan_r (x y : float) : PrimFloat.is_nan x = true → (y =? x)%float = false.
Proof.
  intros Hnan. rewrite FloatAxioms.eqb_spec. unfold Prim2SF at 2. rewrite Hnan.
  unfold SFeqb. by destruct (Prim2SF y).
Qed.

(** A vector whose first coordinate is NaN is neither before nor after
    any vector. *)
Lemma Vector3d_lt_nan (a b : Vector3 float) :
  PrimFloat.is_nan (v_x a) = true →
  Vector3d_lt a b = false ∧ Vector3d_lt b a = false.
Proof.
  intros Hnan. unfold Vector3d_lt. simpl.
  by rewrite ltb_nan_l, eqb_nan_l, ltb_nan_r, eqb_nan_r.
Qed.

(** X20.  With the kernel of doubles, the three edges of a triangle one
    of whose vertices has NaN for its x coordinate, and whose other two
    vertices [operator<] puts in an order, are keys that [VecPairCompare]
    does not order: the edge that leaves the vertex and the edge that
    ends in it are equivalent, and the third edge lies between them.  A
    mesh with such a triangle does not meet what [std::map] requires of
    its comparator. *)
Theorem VecPairCompare_nan (p q r : Vector3 float) :
  PrimFloat.is_nan (v_x p) = true →
  Vector3d_lt q r = true ∨ Vector3d_lt r q = true →
  equivalent (p, q) (r, p) = true ∧
  (VecPairCompare (p, q) (q, r) && VecPairCompare (q, r) (r, p)
   || VecPairCompare (r, p) (q, r) && VecPairCompare (q, r) (p, q)) = true ∧
  ¬ @strict_weak_ordering Simple_cartesian_double [(p, q); (q, r); (r, p)].
Proof.
  intros Hnan Hqr.
  destruct (Vector3d_lt_nan p q Hnan) as [Hpq Hqp].
  destruct (Vector3d_lt_nan p r Hnan) as [Hpr Hrp].
  assert (equivalent (p, q) (r, p) = true) as Heqv.
  { unfold equivalent, VecPairCompare. simpl. by rewrite Hpr, Hrp, Hpq, Hqp. }
  assert (VecPairCompare (p, q) (r, p) = false ∧
          VecPairCompare (r, p) (p, q) = false) as [Hlt Hgt].
  { unfold equivalent in Heqv.
    by apply andb_true_iff in Heqv as [H1%negb_true_iff H2%negb_true_iff]. }
  split; [done|].
  assert ((VecPairCompare (p, q) (q, r) = true ∧ VecPairCompare (q, r) (r, p) = true) ∨
          (VecPairCompare (r, p) (q, r) = true ∧ VecPairCompare (q, r) (p, q) = true))
    as Hchain.
  { unfold VecPairCompare. simpl. rewrite Hpq, Hqp, Hpr, Hrp. simpl.
    destruct Hqr as [-> | ->]; simpl; [left|right]; by rewrite ?orb_true_r. }
  split.
  { destruct Hchain as [[-> ->]|[-> ->]]; simpl; by rewrite ?orb_true_r. }
  intros (_ & Htrans & _).
  destruct Hchain as [[H1 H2]|[H1 H2]].
  - rewrite (Htrans (p, q) (q, r) (r, p)) in Hlt; [done|by repeat constructor..|done|done].
  - rewrite (Htrans (r, p) (q, r) (p, q)) in Hgt; [done|by repeat constructor..|done|done].
Qed.

Lemma VecPairCompare_nan_witness :
  let p := (mkVector3 nan 0 0)%float in
  let q := (mkVector3 1 0 0)%float in
  let r := (mkVector3 0 1 0)%float in
  equivalent (p, q) (r, p) = true ∧
  (VecPairCompare (p, q) (q, r) && VecPairCompare (q, r) (r, p)
   || VecPairCompare (r, p) (q, r) && VecPairCompare (q, r) (p, q)) = true ∧
  ¬ @strict_weak_ordering Simple_cartesian_double [(p, q); (q, r); (r, p)].
Proof.
  intros p q r. apply (VecPairCompare_nan p q r); [reflexivity|].
  right. reflexivity.
Defined.

(** ** The order of the doubles *)

Lemma Prim2SF_not_nan (x : float) :
  PrimFloat.is_nan x = false → Prim2SF x ≠ S754_nan.
Proof.
  intros Hnan. unfold Prim2SF. rewrite Hnan.
  destruct (is_zero x); [done|]. destruct (is_infinity x); [done|].
  destruct (Z.frexp x) as [r exp].
  destruct (shr_fexp _ _ _ _ _) as [shr e'].
  by destruct (shr_m shr).
Qed.

(** [SFcompare] compares the keys. *)
Lemma SFcompare_key (f1 f2 : spec_float) :
  f1 ≠ S754_nan → f2 ≠ S754_nan →
  SFcompare f1 f2 = Some (lex3_compare (spec_float_key f1) (spec_float_key f2)).
Proof.
  intros H1 H2. unfold lex3_compare.
  destruct f1 as [s1|s1| |s1 m1 e1], f2 as [s2|s2| |s2 m2 e2]; try done; simpl.
  - by destruct s2.
  - by destruct s2.
  - by destruct s1.
  - by destruct s1, s2.
  - by destruct s1, s2.
  - by destruct s1.
  - by destruct s1, s2.
  - destruct s1, s2; simpl; try done.
    rewrite Z.compare_opp, (Z.compare_antisym e1 e2).
    change (PosDef.Pos.compare_cont Eq m1 m2) with (m1 ?= m2)%positive.
    by destruct (e1 ?= e2)%Z.
Qed.

Lemma lex3_compare_Lt a b :
  lex3_compare a b = Lt ↔
  (a.1.1 < b.1.1 ∨
   (a.1.1 = b.1.1 ∧ (a.1.2 < b.1.2 ∨ (a.1.2 = b.1.2 ∧ a.2 < b.2))))%Z.
Proof.
  unfold lex3_compare.
  destruct (Z.compare_spec a.1.1 b.1.1), (Z.compare_spec a.1.2 b.1.2),
    (Z.compare_spec a.2 b.2); split; try done; lia.
Qed.

Lemma lex3_compare_Eq a b :
  lex3_compare a b = Eq ↔ (a.1.1 = b.1.1 ∧ a.1.2 = b.1.2 ∧ a.2 = b.2)%Z.
Proof.
  unfold lex3_compare.
  destruct (Z.compare_spec a.1.1 b.1.1), (Z.compare_spec a.1.2 b.1.2),
    (Z.compare_spec a.2 b.2); split; try done; lia.
Qed.

Lemma ltb_key (x y : float) :
  PrimFloat.is_nan x = false → PrimFloat.is_nan y = false →
  (x <? y)%float = true ↔
  lex3_compare (spec_float_key (Prim2SF x)) (spec_float_key (Prim2SF y)) = Lt.
Proof.
  intros Hx%Prim2SF_not_nan Hy%Prim2SF_not_nan.
  rewrite FloatAxioms.ltb_spec. unfold SFltb. rewrite SFcompare_key by done.
  by destruct (lex3_compare _ _).
Qed.

Lemma eqb_key (x y : float) :
  PrimFloat.is_nan x = false → PrimFloat.is_nan y = false →
  (x =? y)%float = true ↔
  lex3_compare (spec_float_key (Prim2SF x)) (spec_float_key (Prim2SF y)) = Eq.
Proof.
  intros Hx%Prim2SF_not_nan Hy%Prim2SF_not_nan.
  rewrite FloatAxioms.eqb_spec. unfold SFeqb. rewrite SFcompare_key by done.
  by destruct (lex3_compare _ _).
Qed.

Lemma leb_key (x y : float) :
  PrimFloat.is_nan x = false → PrimFloat.is_nan y = false →
  (x <=? y)%float = true ↔
  lex3_compare (spec_float_key (Prim2SF x)) (spec_float_key (Prim2SF y)) ≠ Gt.
Proof.
  intros Hx%Prim2SF_not_nan Hy%Prim2SF_not_nan.
  rewrite FloatAxioms.leb_spec. unfold SFleb. rewrite SFcompare_key by done.
  by destruct (lex3_compare _ _).
Qed.

Lemma lex3_compare_antisym a b : lex3_compare b a = CompOpp (lex3_compare a b).
Proof.
  unfold lex3_compare.
  rewrite (Z.compare_antisym a.1.1 b.1.1), (Z.compare_antisym a.1.2 b.1.2),
    (Z.compare_antisym a.2 b.2).
  by destruct (a.1.1 ?= b.1.1)%Z, (a.1.2 ?= b.1.2)%Z.
Qed.

(** On doubles, a cosine is not below the threshold exactly when it is
    at least the threshold or NaN. *)
Lemma not_below_threshold_double (c : float) :
  @not_below_threshold Simple_cartesian_double c ↔ at_least_threshold_or_nan c.
Proof.
  unfold not_below_threshold, at_least_threshold_or_nan.
  set (t := @cos_degrees Simple_cartesian_double FT_point_one).
  assert (PrimFloat.is_nan t = false) as Ht by reflexivity.
  change (@FT_lt Simple_cartesian_double c t) with (c <? t)%float.
  clearbody t.
  destruct (PrimFloat.is_nan c) eqn:Hc.
  - split; [by right|]. intros _. by apply ltb_nan_l.
  - pose proof (ltb_key c t Hc Ht) as Hlt. pose proof (leb_key t c Ht Hc) as Hle.
    rewrite lex3_compare_antisym in Hle.
    assert ((c <? t)%float = false ↔ (t <=? c)%float = true) as ->.
    { rewrite <- not_true_iff_false, Hlt, Hle.
      by destruct (lex3_compare (spec_float_key (Prim2SF c))
                     (spec_float_key (Prim2SF t))). }
    split; [by left|]. by intros [?|?].
Qed.

Lemma convexity_conditions_iff `{Kernel} (accepted accepted' : FT → Prop)
    (ps : PolySet Vector3d) :
  (∀ c, accepted c ↔ accepted' c) →
  convexity_conditions accepted ps ↔ convexity_conditions accepted' ps.
Proof.
  intros Hiff. unfold convexity_conditions, locally_convex.
  split; intros (Hm & Hc & Hlocal & Hr);
    (split; [done|split; [done|split; [|done]]]);
    intros F j e G j' e' polyF polyG p E1 E2 E3 E4 E5 E6 E7; apply Hiff;
    exact (Hlocal F j e G j' e' polyF polyG p E1 E2 E3 E4 E5 E6 E7).
Qed.

(** Doubles among which there is no NaN are totally ordered. *)
Lemma totally_ordered_without_nan (l : list float) :
  Forall (λ x, PrimFloat.is_nan x = false) l →
  @totally_ordered Simple_cartesian_double l = true.
Proof.
  intros Hl. rewrite Forall_forall in Hl. unfold totally_ordered.
  apply forallb_forall. intros a Ha%list_elem_of_In%Hl.
  apply forallb_forall. intros b Hb%list_elem_of_In%Hl.
  apply andb_true_iff. split.
  - simpl.
    pose proof (ltb_key a b Ha Hb) as Hab. pose proof (ltb_key b a Hb Ha) as Hba.
    pose proof (eqb_key a b Ha Hb) as Heq.
    rewrite lex3_compare_Lt in Hab, Hba. rewrite lex3_compare_Eq in Heq.
    destruct (a <? b)%float, (a =? b)%float, (b <? a)%float; simpl; try done;
      exfalso; intuition lia.
  - apply forallb_forall. intros c Hc%list_elem_of_In%Hl. simpl.
    apply andb_true_iff. split.
    + pose proof (eqb_key a b Ha Hb) as Hab. pose proof (eqb_key b c Hb Hc) as Hbc.
      pose proof (eqb_key a c Ha Hc) as Hac.
      rewrite lex3_compare_Eq in Hab, Hbc, Hac.
      destruct (a =? b)%float, (b =? c)%float, (a =? c)%float; simpl; try done.
      exfalso. intuition lia.
    + pose proof (ltb_key a b Ha Hb) as Hab. pose proof (ltb_key b c Hb Hc) as Hbc.
      pose proof (ltb_key a c Ha Hc) as Hac.
      rewrite lex3_compare_Lt in Hab, Hbc, Hac.
      destruct (a <? b)%float, (b <? c)%float, (a <? c)%float; simpl; try done.
      exfalso. intuition lia.
Qed.

Lemma mesh_coordinates_without_nan (ps : PolySet (Vector3 float)) :
  without_nan ps →
  Forall (λ x, PrimFloat.is_nan x = false)
    (@mesh_coordinates Simple_cartesian_double ps).
Proof.
  intros Hps. apply Forall_forall. intros x. unfold mesh_coordinates.
  intros (poly & (v & Hx & Hv)%list_elem_of_bind & Hpoly)%list_elem_of_bind.
  unfold without_nan in Hps. rewrite Forall_forall in Hps.
  specialize (Hps poly Hpoly). rewrite Forall_forall in Hps.
  specialize (Hps v Hv). rewrite Forall_forall in Hps. by apply Hps.
Qed.

Lemma edge_within_without_nan (a b c e : Vector3 float * Vector3 float) :
  e ∈ [a; b; c] →
  @edge_within Simple_cartesian_double
    (coefficients a.1 ++ coefficients a.2 ++ coefficients b.1 ++ coefficients b.2 ++
     coefficients c.1 ++ coefficients c.2) e.
Proof.
  intros He. unfold edge_within, vector_within, coefficients.
  repeat (apply elem_of_cons in He as [->|He]); [..|by apply elem_of_nil in He];
    repeat split; set_solver.
Qed.

(** X17.  On edges of doubles without a NaN coordinate, [VecPairCompare]
    is a strict weak ordering, as [std::map] requires of its comparator:
    no edge is before itself, being before is transitive, and so is being
    equivalent (neither is before the other), which holds of two edges
    exactly when they agree in every coordinate under [==]. *)
Theorem VecPairCompare_strict_weak_order (a b c : Vector3 float * Vector3 float) :
  edge_without_nan a → edge_without_nan b → edge_without_nan c →
  VecPairCompare a a = false ∧
  (VecPairCompare a b = true → VecPairCompare b c = true →
   VecPairCompare a c = true) ∧
  (equivalent a b = true → equivalent b c = true → equivalent a c = true) ∧
  equivalent a b = Vector3d_eqv a.1 b.1 && Vector3d_eqv a.2 b.2.
Proof.
  intros Ha Hb Hc.
  apply (@VecPairCompare_ordered Simple_cartesian_double
           (coefficients a.1 ++ coefficients a.2 ++ coefficients b.1 ++ coefficients b.2 ++
            coefficients c.1 ++ coefficients c.2)).
  - apply totally_ordered_without_nan.
    unfold edge_without_nan in *. rewrite !Forall_app in *. tauto.
  - apply (edge_within_without_nan a b c). set_solver.
  - apply (edge_within_without_nan a b c). set_solver.
  - apply (edge_within_without_nan a b c). set_solver.
Qed.

Lemma VecPairCompare_strict_weak_order_witness :
  let a : Vector3 float * Vector3 float :=
    (mkVector3 0 0.5 (-1), mkVector3 1 0 infinity)%float in
  let b : Vector3 float * Vector3 float :=
    (mkVector3 0 1 0, mkVector3 0 0 0)%float in
  let c : Vector3 float * Vector3 float :=
    (mkVector3 1 0 0, mkVector3 0 0 1)%float in
  VecPairCompare a a = false ∧
  (VecPairCompare a b = true → VecPairCompare b c = true →
   VecPairCompare a c = true) ∧
  (equivalent a b = true → equivalent b c = true → equivalent a c = true) ∧
  equivalent a b = Vector3d_eqv a.1 b.1 && Vector3d_eqv a.2 b.2.
Proof.
  intros a b c.
  apply (VecPairCompare_strict_weak_order a b c); repeat constructor.
Defined.

(** The check on doubles, with any map. *)
Lemma is_approximately_convex_doubles `{M : @std_map Simple_cartesian_double}
    (ps : PolySet (Vector3 float)) :
  proper_faces ps → without_nan ps →
  (is_approximately_convex ps = Ok true →
   convexity_conditions at_least_threshold_or_nan ps) ∧
  (¬ convexity_conditions at_least_threshold_or_nan ps →
   is_approximately_convex ps = Ok false).
Proof.
  intros Hproper Hnan.
  rewrite <- (@convexity_conditions_iff Simple_cartesian_double _ _ ps
                not_below_threshold_double).
  apply (@is_approximately_convex_ordered Simple_cartesian_double); [done|].
  by apply (@mesh_keys_ordered Simple_cartesian_double),
    totally_ordered_without_nan, mesh_coordinates_without_nan.
Qed.

(** The pairs of vertices of a mesh of doubles without NaN are keys the
    comparator orders. *)
Lemma mesh_keys_without_nan (ps : PolySet (Vector3 float)) :
  without_nan ps → @strict_weak_ordering Simple_cartesian_double (mesh_keys ps).
Proof.
  intros Hnan.
  by apply (@mesh_keys_ordered Simple_cartesian_double),
    totally_ordered_without_nan, mesh_coordinates_without_nan.
Qed.






(** ** [boundingBox] *)

(** X21.  The bounding box of a volumetric structure without vertices is
    the box from the origin to the origin, so that in a kernel where
    [0 - 0 == 0], as in every field, [computeResizeTransform] on it
    refuses every resize with a target size on an active axis: it logs
    the warning and returns the identity. *)
Theorem computeResizeTransform_boundingBox_empty `{ExactNef}
    (N : Exact_Nef_polyhedron_3) (dimension : nat) (newsize : Vector3 double)
    (autosize : Vector3 bool) (i : nat) (ni : double) :
  vertex_points N = [] →
  NT_eqb (NT_sub (NT_of_double 0%Q) (NT_of_double 0%Q)) (NT_of_double 0%Q) = true →
  i < dimension → coefficients newsize !! i = Some ni → ¬ (ni == 0)%Q →
  computeResizeTransform (boundingBox N) dimension newsize autosize
  = Ok (Identity, [flat_object_warning]).
Proof.
  intros Hempty Hzero Hi Hni Hnz.
  destruct (computeResizeTransform_cases (boundingBox N) dimension newsize autosize)
    as [[_ ->]|[Hno _]]; [done|].
  destruct Hno. exists i, ni, (NT_sub (NT_of_double 0%Q) (NT_of_double 0%Q)).
  repeat split; auto.
  unfold boundingBox. rewrite Hempty. simpl.
  pose proof (lookup_lt_Some _ _ _ Hni) as Hlt. simpl in Hlt.
  by destruct i as [|[|[|i]]]; [..|lia].
Qed.

Lemma computeResizeTransform_boundingBox_empty_witness :
  computeResizeTransform (boundingBox ([] : @Exact_Nef_polyhedron_3 _ rational_points))
    3 (mkVector3 0 0 5)%Q (mkVector3 true true false)
  = Ok (Identity, [flat_object_warning]).
Proof.
  apply (computeResizeTransform_boundingBox_empty
           ([] : @Exact_Nef_polyhedron_3 _ rational_points) 3 _ _ 2 5%Q);
    [reflexivity | reflexivity | lia | reflexivity | by intros ?%Qeq_eq_bool].
Defined.

(** ** [getGeometryAsPolySet] and [getNefPolyhedronFromGeometry] *)

Section conversion_log.
Context `{G : GeometryUtils}.

(** The conversion logs its two reports of unconnected edges and
    nothing else. *)
Lemma createPolySetFromNefPolyhedron3_reports (N : Nef_polyhedron_3)
    (ps ps' : PolySet Vector3f) err log :
  createPolySetFromNefPolyhedron3 N ps = Ok (err, ps', log) →
  Forall manifold_report log.
Proof.
  unfold createPolySetFromNefPolyhedron3.
  rewrite index_halffacets. simpl.
  fold (all_vertices N). rewrite triangulate_faces_eq. fold (conversion_triangles N).
  destruct (forallb _ _) eqn:Hrange; [|done]. simpl.
  destruct (emit_triangles_eq (R:=bool * PolySet Vector3f * list log_entry)
              (all_vertices N) (conversion_triangles N) ps Hrange) as (out & Hout & ->).
  simpl. intros [= _ _ <-].
  destruct (0 <? findUnconnectedEdges_polygons _),
           (0 <? findUnconnectedEdges_triangles _);
    repeat first [apply Forall_nil_2 | apply Forall_cons_2; [split; [done|simpl; auto]|]].
Qed.

(** What a run into a new mesh gives. *)
Lemma createPolySetFromNefPolyhedron3_new (N : Nef_polyhedron_3) dim convex
    ps' err log :
  createPolySetFromNefPolyhedron3 N (new_PolySet dim convex) = Ok (err, ps', log) →
  err = false ∧ getDimension ps' = dim ∧ convexValue ps' = convex ∧
  Forall (λ poly, length (vertices poly) = 3) (polygons ps') ∧
  (Forall skipped N → polygons ps' = []) ∧
  Forall manifold_report log.
Proof.
  intros Hrun. pose proof (createPolySetFromNefPolyhedron3_reports _ _ _ _ _ Hrun).
  destruct (createPolySetFromNefPolyhedron3_cases N (new_PolySet dim convex))
    as [[_ Heq]|(_ & out & log' & Hout & Heq)]; [congruence|].
  rewrite Heq in Hrun. injection Hrun as <- <- <-. simpl.
  split; [done|]. split; [done|]. split; [done|]. split; [|split; [|done]].
  - unfold emitted in Hout. apply Forall_forall. intros poly Hpoly.
    apply list_elem_of_lookup in Hpoly as [k Hk].
    destruct (Forall2_lookup_r _ _ _ _ _ Hout Hk)
      as ([t m] & _ & _ & v0 & v1 & v2 & _ & _ & _ & Hvs).
    by rewrite Hvs.
  - intros Hskipped%retained_skipped.
    unfold conversion_triangles in Hout. rewrite Hskipped in Hout.
    by apply Forall2_nil_inv_l in Hout as ->.
Qed.
End conversion_log.

Lemma manifold_report_not_failed (log : list log_entry) :
  Forall manifold_report log →
  (nef_to_polyset_failed ∉ log) ∧ (nef_to_polyset_failed_renderer ∉ log).
Proof.
  intros Hlog. rewrite Forall_forall in Hlog.
  split; intros (_ & [Hf|Hf])%Hlog; discriminate Hf.
Qed.

(** X22.  On a volumetric structure [getGeometryAsPolySet] returns a new
    mesh of dimension 3 with the convexity of the structure and an
    unknown convexity hint, all of whose polygons are triangles; a
    structure that says it is empty gives the mesh without polygons and
    logs nothing.  The error "Nef->PolySet failed." is never logged: the
    only lines are the reports of unconnected edges of the conversion. *)
Theorem getGeometryAsPolySet_Nef `{Geometries} (N : object CGAL_Nef_polyhedron)
    (r : option (object (PolySet Vector3f))) (log : list log_entry) :
  getGeometryAsPolySet (Some (a_Nef N)) = Done (r, log) →
  ∃ ps, r = Some ps ∧
    getConvexity ps = getConvexity N ∧
    getDimension (self ps) = 3 ∧ convexValue (self ps) = None ∧
    Forall (λ poly, length (vertices poly) = 3) (polygons (self ps)) ∧
    (Nef_isEmpty N = true → polygons (self ps) = [] ∧ log = []) ∧
    Forall manifold_report log ∧ nef_to_polyset_failed ∉ log.
Proof.
  unfold getGeometryAsPolySet. simpl.
  destruct (Nef_isEmpty N) eqn:Hempty; simpl.
  { intros [= <- <-]. eexists. split; [done|]. simpl.
    repeat split; auto. by intros ?%elem_of_nil. }
  destruct (p3 (self N)) as [N3|]; simpl; [|done].
  destruct (createPolySetFromNefPolyhedron3 _ _) as [[[err mesh] log']|f] eqn:Hrun;
    simpl; [|done].
  destruct (createPolySetFromNefPolyhedron3_new _ _ _ _ _ _ Hrun)
    as (-> & Hdim & Hconvex & Htri & _ & Hlog).
  intros [= <- <-]. eexists. split; [done|]. simpl.
  split; [done|]. split; [done|]. split; [done|]. split; [done|].
  split; [done|]. split; [done|]. by apply manifold_report_not_failed.
Qed.

Lemma getGeometryAsPolySet_Nef_witness :
  ∃ ps,
    Some (mkObject 5
            (mkPolySet [ mkPolygon true [point 0 0 0; point 1 0 0; point 0 1 0];
                         mkPolygon false [point 0 0 0; point 0 1 0; point 1 0 0] ]
               3 None)) = Some ps ∧
    getConvexity ps = getConvexity two_triangles ∧
    getDimension (self ps) = 3 ∧ convexValue (self ps) = None ∧
    Forall (λ poly, length (vertices poly) = 3) (polygons (self ps)) ∧
    (@Nef_isEmpty _ _ _ mesh_geometries two_triangles = true →
     polygons (self ps) = [] ∧ ([] : list log_entry) = []) ∧
    Forall manifold_report [] ∧ nef_to_polyset_failed ∉ ([] : list log_entry).
Proof.
  apply (@getGeometryAsPolySet_Nef _ _ _ mesh_geometries two_triangles).
  vm_compute. reflexivity.
Defined.

(** X23.  A flat polygon goes through [getNefPolyhedronFromGeometry] by
    its tessellation: the result is that of
    [createNefPolyhedronFromPolySet] on the mesh [polygon.tessellate()]
    returns, as a new object.  So the polygon whose tessellation has no
    polygon gives the empty geometry, and one whose tessellation has
    polygons and is not of dimension 3 fails the assertion of that
    function, with nothing logged. *)
Theorem getNefPolyhedronFromGeometry_Polygon2d `{Geometries} (poly2d : Polygon2d) :
  let ps := self (Polygon2d_tessellate poly2d) in
  (isEmpty ps = true →
   getNefPolyhedronFromGeometry (Some (a_Polygon2d poly2d))
   = ([], Done (Some (mkObject default_convexity (mkNef None))))) ∧
  (isEmpty ps = false → getDimension ps ≠ 3 →
   getNefPolyhedronFromGeometry (Some (a_Polygon2d poly2d))
   = ([], Failed (Faulted AssertionFailed))).
Proof.
  intros ps. unfold getNefPolyhedronFromGeometry, createNefPolyhedronFromPolygon2d.
  fold ps. split.
  - intros Hempty. by rewrite createNefPolyhedronFromPolySet_empty.
  - intros Hne Hdim. by rewrite createNefPolyhedronFromPolySet_dimension_eq.
Qed.

(** ** [CGALRenderer] *)

(** Induction over a geometry and the geometries in its lists. *)
Lemma Geometry_nested_ind `{Geometries} (P : Geometry → Prop) :
  (∀ children,
     Forall (λ item, ∀ g, item.2 = Some g → P g) children →
     P (a_GeometryList children)) →
  (∀ ps, P (a_PolySet ps)) →
  (∀ poly2d, P (a_Polygon2d poly2d)) →
  (∀ nef, P (a_Nef nef)) →
  (∀ hybrid, P (a_Hybrid hybrid)) →
  (∀ mani, P (a_Manifold mani)) →
  P another →
  ∀ geom, P geom.
Proof.
  intros Hlist Hps Hpoly Hnef Hhybrid Hmani Hother.
  fix IH 1.
  intros [children|ps|poly2d|nef|hybrid|mani|];
    [|apply Hps|apply Hpoly|apply Hnef|apply Hhybrid|apply Hmani|apply Hother].
  apply Hlist. revert children.
  fix IHc 1. intros [|[node [g|]] children].
  - constructor.
  - constructor; [|apply IHc]. simpl. intros g' [= <-]. apply IH.
  - constructor; [|apply IHc]. simpl. by intros g' [=].
Qed.

Section renderer.
Context `{Re : Rendering}.
Implicit Types (this : CGALRenderer) (st : CGALRenderer * list log_entry).

(** [createPolyhedrons] fills [polyhedrons], one for each structure of
    [nefPolyhedrons], and touches nothing else. *)
Lemma createPolyhedrons_members vxo this this' :
  createPolyhedrons vxo this = Done this' →
  polysets this' = polysets this ∧
  nefPolyhedrons this' = nefPolyhedrons this ∧
  colorscheme this' = colorscheme this ∧
  last_render_state this' = last_render_state this ∧
  length (polyhedrons this') = length (nefPolyhedrons this).
Proof.
  unfold createPolyhedrons.
  assert (∀ l this0 this1,
            end_of_body (flow_for_each l (λ N this,
              N3 ← deref (p3 (self N));
              let p := new_OGL_Polyhedron vxo (colorscheme this) N3 in
              Continue (set_polyhedrons (polyhedrons this ++ [p]) this)) this0)
            = Done this1 →
            polysets this1 = polysets this0 ∧
            nefPolyhedrons this1 = nefPolyhedrons this0 ∧
            colorscheme this1 = colorscheme this0 ∧
            last_render_state this1 = last_render_state this0 ∧
            length (polyhedrons this1) = length (polyhedrons this0) + length l)
    as Hloop.
  { induction l as [|N l IH]; intros this0 this1; simpl.
    { intros [= <-]. repeat split; auto. }
    destruct (p3 (self N)) as [N3|]; simpl; [|done].
    intros (-> & -> & -> & -> & ->)%IH. simpl.
    rewrite length_app. simpl. repeat split; auto. lia. }
  intros (-> & -> & -> & -> & ->)%Hloop. by simpl.
Qed.

Lemma create_missing_polyhedrons_members vxo st st' :
  end_of_body (create_missing_polyhedrons vxo st) = Done st' →
  polysets st'.1 = polysets st.1 ∧
  nefPolyhedrons st'.1 = nefPolyhedrons st.1 ∧
  colorscheme st'.1 = colorscheme st.1 ∧
  last_render_state st'.1 = last_render_state st.1 ∧
  (nefPolyhedrons st.1 = [] → polyhedrons st'.1 = polyhedrons st.1) ∧
  st'.2 = st.2.
Proof.
  unfold create_missing_polyhedrons.
  destruct (nefPolyhedrons st.1) as [|N l] eqn:Hnef; simpl.
  { intros [= <-]. by rewrite Hnef. }
  destruct (empty (polyhedrons st.1)); simpl.
  - destruct (createPolyhedrons vxo st.1) as [this'|e] eqn:Hcreate; simpl; [|done].
    intros [= <-]. simpl.
    apply createPolyhedrons_members in Hcreate as (-> & -> & -> & -> & _).
    by rewrite Hnef.
  - intros [= <-]. by rewrite Hnef.
Qed.

Lemma grows_by_trans out1 out2 st st1 st2 :
  grows_by out1 st st1 → grows_by out2 st1 st2 → grows_by (out1 ++ out2) st st2.
Proof.
  intros (Hp1 & Hn1 & Hc1 & Hl1 & Hh1 & log1 & Hlog1 & Hr1)
         (Hp2 & Hn2 & Hc2 & Hl2 & Hh2 & log2 & Hlog2 & Hr2).
  split; [by rewrite Hp2, Hp1, app_assoc|].
  split; [congruence|]. split; [congruence|]. split; [congruence|].
  split.
  - intros Hnone. rewrite Hh2, Hh1; [done..|congruence].
  - exists (log1 ++ log2). split; [by rewrite Hlog2, Hlog1, app_assoc|].
    by apply Forall_app.
Qed.

Lemma grows_by_push ps st :
  grows_by [ps] st (push_polyset ps st.1, st.2).
Proof.
  repeat split; auto. exists []. by rewrite app_nil_r.
Qed.

Lemma grows_by_tail vxo out st st1 st' :
  grows_by out st st1 →
  end_of_body (create_missing_polyhedrons vxo st1) = Done st' →
  grows_by out st st'.
Proof.
  intros (Hp & Hn & Hc & Hl & Hh & log & Hlog & Hr)
         (Hp' & Hn' & Hc' & Hl' & Hh' & Hlog')%create_missing_polyhedrons_members.
  split; [congruence|]. split; [congruence|]. split; [congruence|].
  split; [congruence|]. split.
  - intros Hnone. rewrite Hh', Hh; [done..|congruence].
  - exists log. split; [congruence|done].
Qed.

(** The branch for a volumetric structure never takes the [return]. *)
Lemma add_Nef_grows new_N st :
  (∃ st1, add_Nef new_N st = Continue st1 ∧ grows_by (converted new_N) st st1) ∨
  (∃ e, add_Nef new_N st = Stopped e).
Proof.
  unfold add_Nef, converted.
  destruct (Nef_getDimension new_N =? 3); simpl; [|eauto].
  destruct (Nef_isEmpty new_N); simpl.
  { left. eexists. split; [done|]. repeat split; auto; [by rewrite app_nil_r|].
    exists []. by rewrite app_nil_r. }
  destruct (p3 (self new_N)) as [N3|]; simpl; [|eauto].
  destruct (createPolySetFromNefPolyhedron3 _ _) as [[[err mesh] log]|f] eqn:Hrun;
    [|eauto].
  destruct (createPolySetFromNefPolyhedron3_new _ _ _ _ _ _ Hrun)
    as (-> & _ & _ & _ & _ & Hlog).
  left. eexists. split; [done|]. repeat split; auto. eauto.
Qed.

Lemma add_children_grows vxo children :
  Forall (λ item, ∀ g, item.2 = Some g →
            ∀ st st', addGeometry vxo g st = Done st' → grows_by (rendered g) st st')
    children →
  ∀ st,
    (∃ st1, add_children (addGeometry vxo) children st = Continue st1 ∧
            grows_by (rendered_children rendered children) st st1) ∨
    (∃ e, add_children (addGeometry vxo) children st = Stopped e).
Proof.
  induction 1 as [|[node [g|]] children Hitem _ IH]; intros st; simpl.
  - left. eexists. split; [done|]. repeat split; auto; [by rewrite app_nil_r|].
    exists []. by rewrite app_nil_r.
  - destruct (addGeometry vxo g st) as [st1|e] eqn:Hadd; simpl; [|eauto].
    destruct (IH st1) as [(st2 & -> & Hgrows)|(e & ->)]; [|eauto].
    left. eexists. split; [done|].
    eapply grows_by_trans; [|done]. by apply Hitem.
  - eauto.
Qed.

(** Whenever [addGeometry] returns, it has appended the meshes of the
    geometry. *)
Lemma addGeometry_grows vxo geom :
  ∀ st st', addGeometry vxo geom st = Done st' → grows_by (rendered geom) st st'.
Proof.
  induction geom as [children IH|ps|poly2d|nef|hybrid|mani|]
    using Geometry_nested_ind; intros st st'; simpl.
  - destruct (add_children_grows vxo children IH st) as [(st1 & -> & Hgrows)|(e & ->)];
      simpl; [|done].
    by apply grows_by_tail.
  - unfold add_PolySet. destruct (getDimension (self ps) =? 3); simpl; [|done].
    apply grows_by_tail, grows_by_push.
  - apply grows_by_tail, grows_by_push.
  - destruct (add_Nef_grows nef st) as [(st1 & -> & Hgrows)|(e & ->)]; simpl; [|done].
    by apply grows_by_tail.
  - apply grows_by_tail, grows_by_push.
  - destruct ENABLE_MANIFOLD; simpl; [|done].
    apply grows_by_tail, grows_by_push.
  - done.
Qed.
End renderer.

(** X24.  Whenever [CGALRenderer::addGeometry] returns, it has appended
    to [polysets] the meshes of the geometry, leaf by leaf in the order of
    the nested lists: the tessellated copy of a mesh with its convexity,
    the tessellation of a flat polygon, the conversion of a volumetric
    structure that is not empty into a new mesh of dimension 3 (nothing
    for an empty one), the mesh of a hybrid or manifold geometry.  The
    meshes already there are kept, [nefPolyhedrons] and the color scheme
    are left as they were, and the log gains reports of unconnected edges
    only: the error "Nef->PolySet failed" is never logged and no
    structure is dropped for it. *)
Theorem addGeometry_polysets `{Rendering} (vxo : bool) (geom : Geometry)
    (st st' : CGALRenderer * list log_entry) :
  addGeometry vxo geom st = Done st' →
  polysets st'.1 = polysets st.1 ++ rendered geom ∧
  nefPolyhedrons st'.1 = nefPolyhedrons st.1 ∧
  colorscheme st'.1 = colorscheme st.1 ∧
  ∃ log, st'.2 = st.2 ++ log ∧ Forall manifold_report log ∧
         nef_to_polyset_failed_renderer ∉ log.
Proof.
  intros (Hp & Hn & Hc & _ & _ & log & Hlog & Hr)%addGeometry_grows.
  split; [done|]. split; [done|]. split; [done|].
  exists log. split; [done|]. split; [done|].
  by apply manifold_report_not_failed.
Qed.

(** X25.  A renderer built by the constructor has no volumetric
    structure and no polyhedron of OpenGL: [addGeometry] never adds to
    [nefPolyhedrons], so [createPolyhedrons] is never reached, and every
    geometry is drawn through [polysets], which holds the meshes of the
    geometry. *)
Theorem new_CGALRenderer_polysets `{Rendering} (vxo : bool) (scheme : ColorScheme)
    (geom : option Geometry) (this : CGALRenderer) (log : list log_entry) :
  new_CGALRenderer vxo scheme geom = Done (this, log) →
  ∃ g, geom = Some g ∧
    polysets this = rendered g ∧
    nefPolyhedrons this = [] ∧ polyhedrons this = [] ∧
    createPolyhedrons vxo this = Done this.
Proof.
  unfold new_CGALRenderer, addGeometry_ptr. destruct geom as [g|]; [|done].
  intros (Hp & Hn & Hc & Hl & Hh & _)%addGeometry_grows. simpl in *.
  exists g. split; [done|]. split; [done|]. split; [done|].
  split; [by apply Hh|].
  unfold createPolyhedrons. destruct this. simpl in *. subst.
  rewrite Hh by done. done.
Qed.

Lemma addGeometry_polysets_witness :
  let st : @CGALRenderer _ _ _ _ mesh_rendering * list log_entry :=
    (@mkCGALRenderer _ _ _ _ mesh_rendering [] [] [] tt false, []) in
  let st' : @CGALRenderer _ _ _ _ mesh_rendering * list log_entry :=
    (@mkCGALRenderer _ _ _ _ mesh_rendering (rendered scene) [] [] tt false, []) in
  @addGeometry _ _ _ _ mesh_rendering false scene st = Done st' ∧
  polysets st'.1 = polysets st.1 ++ rendered scene ∧
  nefPolyhedrons st'.1 = nefPolyhedrons st.1 ∧
  colorscheme st'.1 = colorscheme st.1 ∧
  ∃ log, st'.2 = st.2 ++ log ∧ Forall manifold_report log ∧
         nef_to_polyset_failed_renderer ∉ log.
Proof.
  intros st st'. split; [reflexivity|].
  apply (@addGeometry_polysets _ _ _ _ mesh_rendering false scene st st').
  reflexivity.
Defined.

Lemma new_CGALRenderer_polysets_witness :
  let this : @CGALRenderer _ _ _ _ mesh_rendering :=
    @mkCGALRenderer _ _ _ _ mesh_rendering (rendered scene) [] [] tt true in
  @new_CGALRenderer _ _ _ _ mesh_rendering true tt (Some scene) = Done (this, []) ∧
  ∃ g, Some scene = Some g ∧
    polysets this = rendered g ∧
    nefPolyhedrons this = [] ∧ polyhedrons this = [] ∧
    createPolyhedrons true this = Done this.
Proof.
  intros this. split; [reflexivity|].
  apply (@new_CGALRenderer_polysets _ _ _ _ mesh_rendering true tt (Some scene) this []).
  reflexivity.
Defined.

(** The scene gives three meshes: the square, the two triangles and the
    flat triangle; the empty structure gives none. *)
Example rendered_scene :
  length (rendered scene) = 3 ∧
  rendered scene !! 1 =
  Some (Some (mkObject 1
                (mkPolySet [ mkPolygon true [point 0 0 0; point 1 0 0; point 0 1 0];
                             mkPolygon false [point 0 0 0; point 0 1 0; point 1 0 0] ]
                   3 None))).
Proof. split; vm_compute; reflexivity. Qed.

(** ** Step 1 of [createPolySetFromNefPolyhedron3] keeps the loops *)

Section loops.
Context `{K : NefKernel}.
Implicit Types (r : Reindexer Vector3f) (face : IndexedFace)
  (loop : list Vector3f) (verts : list Vector3f).

(** [lookup] extends the array at its end and returns an index of the
    value. *)
Lemma lookup_extends r v :
  getArray r `prefix_of` getArray (lookup r v).2 ∧
  getArray (lookup r v).2 !! (lookup r v).1 = Some v.
Proof.
  unfold lookup. destruct (list_find _ _) as [[idx x]|] eqn:Hfind; simpl.
  - apply list_find_Some in Hfind as (Hidx & -> & _). done.
  - split; [by apply prefix_app_r|].
    by rewrite lookup_app_r, Nat.sub_diag.
Qed.

Lemma lookup_NoDup r v : NoDup (getArray r) → NoDup (getArray (lookup r v).2).
Proof.
  intros Hnodup. unfold lookup.
  destruct (list_find _ _) as [[idx x]|] eqn:Hfind; simpl; [done|].
  apply list_find_None in Hfind.
  apply NoDup_app. split; [done|]. split; [|apply NoDup_singleton].
  intros x Hx ->%list_elem_of_singleton.
  by apply (proj1 (Forall_forall _ _) Hfind _ Hx).
Qed.

Lemma indexes_prefix verts verts' face loop :
  verts `prefix_of` verts' → indexes verts face loop → indexes verts' face loop.
Proof.
  intros Hpre Hface. eapply Forall2_impl; [done|].
  intros idx v Hv. simpl in *. by eapply prefix_lookup_Some.
Qed.

Lemma indexes_removelast verts face loop :
  indexes verts face loop → indexes verts (removelast face) (removelast loop).
Proof.
  intros Hface. destruct face as [|j face _] using rev_ind.
  { apply Forall2_nil_inv_l in Hface as ->. constructor. }
  apply Forall2_app_inv_l in Hface as (loop' & t & Hinit & Hlast & ->).
  apply Forall2_length in Hlast as Hlen. destruct t as [|u [|??]]; try done.
  by rewrite !removelast_last.
Qed.

Lemma indexes_last verts face loop idx v :
  NoDup verts → indexes verts face loop → verts !! idx = Some v →
  last face = Some idx ↔ last loop = Some v.
Proof.
  intros Hnodup Hface Hidx.
  destruct face as [|i face _] using rev_ind.
  { apply Forall2_nil_inv_l in Hface as ->. by split. }
  apply Forall2_app_inv_l in Hface as (loop' & [|w t] & _ & Hlast & ->);
    [by apply Forall2_length in Hlast|].
  apply Forall2_cons_1 in Hlast as [Hw Ht].
  apply Forall2_nil_inv_l in Ht as ->.
  rewrite !last_snoc. split.
  - intros [= ->]. congruence.
  - intros [= ->]. f_equal. by eapply NoDup_lookup.
Qed.

Lemma indexes_head verts face loop idx v :
  NoDup verts → indexes verts face loop → verts !! idx = Some v →
  head face = Some idx ↔ head loop = Some v.
Proof.
  intros Hnodup Hface Hidx.
  destruct Hface as [|i w face loop Hw _]; [by split|]. simpl. split.
  - intros [= ->]. congruence.
  - intros [= ->]. f_equal. by eapply NoDup_lookup.
Qed.

(** The loop over the points of a cycle, on the indices and on the
    vertices. *)
Lemma index_vertices_loop cycle (st : Reindexer Vector3f * IndexedFace) loop :
  NoDup (getArray st.1) → indexes (getArray st.1) st.2 loop →
  getArray st.1 `prefix_of` getArray (fold_left index_vertex cycle st).1 ∧
  NoDup (getArray (fold_left index_vertex cycle st).1) ∧
  indexes (getArray (fold_left index_vertex cycle st).1)
    (fold_left index_vertex cycle st).2
    (fold_left (λ loop v, if decide (last loop = Some v) then loop else loop ++ [v])
       (vector_convert_3f <$> cycle) loop).
Proof.
  revert st loop. induction cycle as [|p cycle IH]; intros st loop Hnodup Hface; simpl.
  { done. }
  destruct (lookup_extends st.1 (vector_convert_3f p)) as [Hpre Hidx].
  pose proof (lookup_NoDup st.1 (vector_convert_3f p) Hnodup) as Hnodup'.
  pose proof (indexes_prefix _ _ _ _ Hpre Hface) as Hface'.
  pose proof (indexes_last _ _ _ _ _ Hnodup' Hface' Hidx) as Hlast.
  destruct (IH (index_vertex st p)
              (if decide (last loop = Some (vector_convert_3f p)) then loop
               else loop ++ [vector_convert_3f p])) as (Hpre' & ? & ?).
  - by rewrite index_vertex_eq.
  - rewrite index_vertex_eq. simpl.
    destruct (decide (last loop = Some (vector_convert_3f p))) as [Heq|Hne].
    + apply Hlast in Heq.
      replace (bool_decide (st.2 = [])) with false
        by (symmetry; apply bool_decide_eq_false; intros Hnil;
            by rewrite Hnil in Heq).
      rewrite bool_decide_eq_true_2 by done. done.
    + assert (bool_decide (st.2 = []) ||
              negb (bool_decide (Some (lookup st.1 (vector_convert_3f p)).1 = last st.2))
              = true) as ->.
      { apply orb_true_iff. right. apply negb_true_iff, bool_decide_eq_false.
        intros Heq. apply Hne, Hlast. done. }
      apply Forall2_app; [done|]. by constructor.
  - split; [|by split].
    assert ((index_vertex st p).1 = (lookup st.1 (vector_convert_3f p)).2) as Hfst
      by by rewrite index_vertex_eq.
    rewrite Hfst in Hpre'. by etrans.
Qed.

Lemma index_cycle_loop_vertices cycle r :
  NoDup (getArray r) →
  getArray r `prefix_of` getArray (index_cycle cycle r).1 ∧
  NoDup (getArray (index_cycle cycle r).1) ∧
  indexes (getArray (index_cycle cycle r).1) (index_cycle cycle r).2
    (narrowed_loop cycle).
Proof.
  intros Hnodup. unfold index_cycle, narrowed_loop, without_repeats, open_loop.
  destruct (index_vertices_loop cycle (r, []) [] Hnodup) as (Hpre & Hnodup' & Hface);
    [constructor|].
  destruct (fold_left index_vertex cycle (r, [])) as [r' face]. simpl in *.
  split; [done|]. split; [done|].
  set (loop := fold_left _ _ _) in *.
  destruct Hface as [|i w face loop Hw Hrest]; [cbn; constructor|].
  rewrite (bool_decide_eq_false_2 (i :: face = [])) by done.
  cbn [negb andb empty].
  assert (indexes (getArray r') (i :: face) (w :: loop)) as Hface by by constructor.
  pose proof (indexes_last _ _ _ i w Hnodup' Hface Hw) as Hlast.
  change (head (i :: face)) with (Some i). change (head (w :: loop)) with (Some w).
  destruct (decide (last (i :: face) = Some i)) as [Heq|Hne].
  - rewrite bool_decide_eq_true_2 by done.
    rewrite (bool_decide_eq_true_2 (Some w = last (w :: loop)))
      by (symmetry; by apply Hlast).
    by apply indexes_removelast.
  - rewrite bool_decide_eq_false_2 by done.
    rewrite (bool_decide_eq_false_2 (Some w = last (w :: loop))); [done|].
    intros Heq. apply Hne, Hlast. done.
Qed.

Lemma add_cycle_eq r (faces : list IndexedFace) (cycle : list Point_3) :
  add_cycle (r, faces) cycle =
  ((index_cycle cycle r).1,
   if length (index_cycle cycle r).2 <? 3 then faces
   else faces ++ [(index_cycle cycle r).2]).
Proof.
  unfold add_cycle. destruct (index_cycle cycle r) as [r1 face]. cbn [fst snd].
  destruct (length face <? 3); [|done]. by rewrite removelast_last.
Qed.

Lemma index_cycles_loop_vertices cycles r :
  NoDup (getArray r) →
  getArray r `prefix_of` getArray (index_cycles cycles r).1 ∧
  NoDup (getArray (index_cycles cycles r).1) ∧
  Forall2 (indexes (getArray (index_cycles cycles r).1)) (index_cycles cycles r).2
    (List.filter (λ loop, 3 <=? length loop) (narrowed_loop <$> cycles)).
Proof.
  unfold index_cycles.
  assert (∀ (st : Reindexer Vector3f * list IndexedFace) loops,
            NoDup (getArray st.1) →
            Forall2 (indexes (getArray st.1)) st.2 loops →
            getArray st.1 `prefix_of` getArray (fold_left add_cycle cycles st).1 ∧
            NoDup (getArray (fold_left add_cycle cycles st).1) ∧
            Forall2 (indexes (getArray (fold_left add_cycle cycles st).1))
              (fold_left add_cycle cycles st).2
              (loops ++ List.filter (λ loop, 3 <=? length loop)
                          (narrowed_loop <$> cycles))) as Hfold.
  { induction cycles as [|cycle cycles IH]; intros [r0 faces] loops Hnodup Hfaces.
    { simpl. by rewrite app_nil_r. }
    destruct (index_cycle_loop_vertices cycle r0 Hnodup) as (Hpre & Hnodup' & Hface).
    pose proof (Forall2_length _ _ _ Hface) as Hlen.
    change (fold_left add_cycle (cycle :: cycles) (r0, faces))
      with (fold_left add_cycle cycles (add_cycle (r0, faces) cycle)).
    rewrite add_cycle_eq.
    change (narrowed_loop <$> cycle :: cycles)
      with (narrowed_loop cycle :: (narrowed_loop <$> cycles)).
    change (List.filter (λ loop, 3 <=? length loop)
              (narrowed_loop cycle :: (narrowed_loop <$> cycles)))
      with (if 3 <=? length (narrowed_loop cycle)
            then narrowed_loop cycle ::
                 List.filter (λ loop, 3 <=? length loop) (narrowed_loop <$> cycles)
            else List.filter (λ loop, 3 <=? length loop) (narrowed_loop <$> cycles)).
    rewrite <- Hlen.
    destruct (index_cycle cycle r0) as [r1 face]. cbn [fst snd] in *.
    assert (Forall2 (indexes (getArray r1)) faces loops) as Hfaces'.
    { eapply Forall2_impl; [done|]. intros ???. by eapply indexes_prefix. }
    destruct (length face <? 3) eqn:Hshort.
    - assert ((3 <=? length face) = false) as ->.
      { apply Nat.ltb_lt in Hshort. apply Nat.leb_gt. lia. }
      destruct (IH (r1, faces) loops Hnodup' Hfaces') as (? & ? & ?).
      split; [by etrans|done].
    - assert ((3 <=? length face) = true) as ->.
      { apply Nat.ltb_ge in Hshort. by apply Nat.leb_le. }
      destruct (IH (r1, faces ++ [face]) (loops ++ [narrowed_loop cycle]) Hnodup')
        as (? & ? & ?).
      { apply Forall2_app; [done|]. by constructor. }
      split; [by etrans|]. split; [done|]. by rewrite <- app_assoc in *. }
  intros Hnodup. by apply (Hfold (r, []) []); [|constructor].
Qed.

Lemma facet_faces_loop_vertices (hf : Halffacet) r :
  NoDup (getArray r) →
  getArray r `prefix_of` getArray (facet_faces hf r).1 ∧
  NoDup (getArray (facet_faces hf r).1) ∧
  Forall2 (indexes (getArray (facet_faces hf r).1)) (facet_faces hf r).2
    (narrowed_loops hf).
Proof.
  intros Hnodup. unfold facet_faces, narrowed_loops.
  destruct (incident_volume_mark hf); simpl; [by repeat constructor|].
  by apply index_cycles_loop_vertices.
Qed.

Lemma retained_loop_vertices (N : Nef_polyhedron_3) r :
  NoDup (getArray r) →
  getArray r `prefix_of` getArray (retained N r).1 ∧
  NoDup (getArray (retained N r).1) ∧
  Forall2 (Forall2 (indexes (getArray (retained N r).1))) (retained N r).2.*2
    (narrowed_groups N).
Proof.
  revert r. induction N as [|hf N IH]; intros r Hnodup; simpl.
  { by repeat constructor. }
  destruct (facet_faces_loop_vertices hf r Hnodup) as (Hpre & Hnodup' & Hfaces).
  destruct (facet_faces hf r) as [r1 faces]. simpl in *.
  destruct (IH r1 Hnodup') as (Hpre' & Hnodup'' & Hrest).
  destruct (retained N r1) as [r2 rest]. simpl in *.
  split; [by etrans|]. split; [done|].
  unfold narrowed_groups. simpl. fold (narrowed_groups N).
  pose proof (Forall2_length _ _ _ Hfaces) as Hlen.
  case_bool_decide as Hempty.
  - subst faces. destruct (narrowed_loops hf); [done|done].
  - destruct (narrowed_loops hf) as [|loop loops] eqn:Hloops.
    { by destruct faces. }
    simpl. constructor; [|done].
    eapply Forall2_impl; [done|]. intros ???. by eapply indexes_prefix.
Qed.
End loops.

(** X26.  Step 1 of [createPolySetFromNefPolyhedron3] keeps the boundary
    cycles as they are: its face groups are, half-facet by half-facet and
    cycle by cycle, the loops of the narrowed points of the cycles from
    which a vertex equal to the one before it and an end equal to the
    start have been dropped, each index standing for its vertex in the
    vertex array.  Loops left with fewer than three vertices, half-facets
    on marked volumes and half-facets left without a loop are not
    there. *)
Theorem indexed_mesh_loops `{NefKernel} (N : Nef_polyhedron_3) :
  let '(allVertices, polygons, _) := indexed_mesh N in
  Forall2 (Forall2 (indexes (getArray allVertices))) polygons (narrowed_groups N).
Proof.
  rewrite indexed_mesh_eq.
  by destruct (retained_loop_vertices N (mkReindexer [])) as (_ & _ & ?);
    [apply NoDup_nil_2|].
Qed.

(** The square whose doubled corner and closing corner go, and which
    shares its vertices with nothing: the half-facet on the marked volume
    and the one of two points leave no trace. *)
Example indexed_mesh_merging_square :
  indexed_mesh merging_square =
  (mkReindexer [point 0 0 0; point 1 0 0; point 1 1 0; point 0 1 0; point 5 5 5; point 6 5 5],
   [[[0; 1; 2; 3]]], [true]) ∧
  narrowed_groups merging_square =
  [[[point 0 0 0; point 1 0 0; point 1 1 0; point 0 1 0]]].
Proof. split; vm_compute; reflexivity. Qed.
